(** * A model of the growable array [Vector<T>] of src/vector.h

    The container keeps its elements in raw storage and constructs and
    destroys them by hand.  The model follows the C++ text statement by
    statement: a slot of storage is either raw memory or a live object, every
    construction, assignment and destruction is a step of a small state and
    exception monad, and the standard algorithms the code calls
    ([std::uninitialized_copy_n], [std::destroy_n], [std::move_backward], ...)
    are the loops the standard describes.

    Two versions of the class are present in the repository: the complete one
    (first half of src/vector.h, with [Emplace], [Insert] and [Erase]) and an
    earlier one (src/unnamed/part_000, with hand written [PushBack] and
    [EmplaceBack]).  The first is modelled at top level, the members of the
    second that differ are in [Module Part000]. *)

From Stdlib Require Import ZArith Lia.
From stdpp Require Import base tactics decidable option list strings.

(** ** The element type

    What the container needs to know of [T]: the value a moved-from object is
    left with, the value of [T()], and the three type traits the code and the
    standard algorithms branch on. *)
Class Element (T : Type) := {
  moved_from : T → T;
  value_initialized : T;
  is_nothrow_move_constructible : bool;
  is_copy_constructible : bool;
  is_nothrow_move_assignable : bool;
}.

(** ** [size_t]

    Sizes index Rocq lists and are natural numbers; the arithmetic the code
    does on them is the arithmetic of a 64-bit unsigned integer. *)
Definition SIZE_MAX : Z := 18446744073709551615.

Definition to_size_t (z : Z) : nat := Z.to_nat (z mod (SIZE_MAX + 1)).

Definition size_add (a b : nat) : nat := to_size_t (Z.of_nat a + Z.of_nat b).
Definition size_sub (a b : nat) : nat := to_size_t (Z.of_nat a - Z.of_nat b).
Definition size_mul (a b : nat) : nat := to_size_t (Z.of_nat a * Z.of_nat b).

(** A count that fits a [size_t]. *)
Definition representable (n : nat) : Prop := (Z.of_nat n <= SIZE_MAX)%Z.

Section Vector.
Context {T : Type} `{!Element T}.

(** ** Storage *)

(** One element-sized slot of a raw buffer. *)
Inductive slot :=
| Raw                (* uninitialized memory *)
| Obj (v : T).       (* a live object of value [v] *)

Definition is_live (s : slot) : bool :=
  match s with Obj _ => true | Raw => false end.

(** Modelled from the spec: rawmemory.h is not among the sources.  The spec
    gives [RawMemory<T>] as a block of [capacity] uninitialized slots that it
    allocates and frees without ever constructing or destroying an element,
    with its capacity, an O(1) swap and a move that leaves the source with
    capacity 0.  A buffer is the list of its slots, its capacity their
    number. *)
Abbreviation RawMemory := (list slot).

(** [class Vector]: the two data members. *)
Record Vector := MkVector {
  data_ : RawMemory;
  size_ : nat;
}.

(** The objects a member function works on: the vector's buffer, the local
    [RawMemory] of a reallocation ([new_data], [data_copy]) and the local
    [temp_val] of [Emplace]. *)
Inductive region := Data | NewData | TempVal.

#[export] Instance region_eq_dec : EqDecision region.
Proof. solve_decision. Defined.

(** A [T*]: a buffer and an offset into it. *)
Definition ptr : Type := region * nat.

Definition ptr_add (p : ptr) (k : nat) : ptr := (p.1, p.2 + k).
Definition ptr_sub (p : ptr) (k : nat) : ptr := (p.1, p.2 - k).

(** What a run does to elements and storage, in order. *)
Inductive event :=
| Allocate (n : nat)
| Construct (dst : ptr)
| CopyConstruct (dst src : ptr)
| MoveConstruct (dst src : ptr)
| MoveAssign (dst src : ptr)
| Destroy (p : ptr)
| Throw.

(** The state of a run.  [oracle] schedules the failures: every step that may
    throw takes the next decision, [false] meaning that it throws; an
    exhausted oracle lets every further step succeed.  [freed] lists the
    buffers given back to the allocator, each with the slots as they were at
    that moment. *)
Record World := MkWorld {
  this : Vector;
  new_data : option RawMemory;
  temp_val : option RawMemory;
  oracle : list bool;
  trace : list event;
  freed : list RawMemory;
}.

Inductive fault := UndefinedBehaviour | AssertionFailure.

Inductive result (A : Type) :=
| Ret (a : A) (w : World)    (* normal return *)
| Exc (w : World)            (* an exception leaves the function *)
| Fault (f : fault).
Arguments Ret {A} a w.
Arguments Exc {A} w.
Arguments Fault {A} f.

Definition M (A : Type) : Type := World → result A.

#[export] Instance M_ret : MRet M := λ A a w, Ret a w.
#[export] Instance M_bind : MBind M := λ A B f m w,
  match m w with
  | Ret a w' => f a w'
  | Exc w' => Exc w'
  | Fault e => Fault e
  end.

Definition undefined {A} : M A := λ _, Fault UndefinedBehaviour.

Definition assert (b : bool) : M unit := λ w,
  if b then Ret tt w else Fault AssertionFailure.

Definition modify (f : World → World) : M unit := λ w, Ret tt (f w).

Definition log (e : event) : M unit :=
  modify (λ w, MkWorld (this w) (new_data w) (temp_val w) (oracle w)
                 (trace w ++ [e]) (freed w)).

(** A step that may throw. *)
Definition may_throw : M unit := λ w,
  match oracle w with
  | [] => Ret tt w
  | true :: o =>
      Ret tt (MkWorld (this w) (new_data w) (temp_val w) o (trace w) (freed w))
  | false :: o =>
      Exc (MkWorld (this w) (new_data w) (temp_val w) o
             (trace w ++ [Throw]) (freed w))
  end.

(** [try { body } catch (...) { handler; throw; }] *)
Definition catch_rethrow {A} (body : M A) (handler : M unit) : M A := λ w,
  match body w with
  | Exc w' =>
      match handler w' with
      | Ret _ w'' => Exc w''
      | Exc w'' => Exc w''
      | Fault e => Fault e
      end
  | r => r
  end.

(** A destructor that runs when its scope is left, on either way out. *)
Definition at_scope_exit {A} (body : M A) (destructor : M unit) : M A := λ w,
  match body w with
  | Ret a w' =>
      match destructor w' with
      | Ret _ w'' => Ret a w''
      | Exc w'' => Exc w''
      | Fault e => Fault e
      end
  | Exc w' =>
      match destructor w' with
      | Ret _ w'' => Exc w''
      | Exc w'' => Exc w''
      | Fault e => Fault e
      end
  | Fault e => Fault e
  end.

(** ** Memory access *)

Definition buffer (r : region) (w : World) : option RawMemory :=
  match r with
  | Data => Some (data_ (this w))
  | NewData => new_data w
  | TempVal => temp_val w
  end.

Definition set_buffer (r : region) (b : RawMemory) (w : World) : World :=
  match r with
  | Data =>
      MkWorld (MkVector b (size_ (this w))) (new_data w) (temp_val w)
        (oracle w) (trace w) (freed w)
  | NewData =>
      MkWorld (this w) (Some b) (temp_val w) (oracle w) (trace w) (freed w)
  | TempVal =>
      MkWorld (this w) (new_data w) (Some b) (oracle w) (trace w) (freed w)
  end.

(** Reading or writing outside a buffer is undefined. *)
Definition read (p : ptr) : M slot := λ w,
  match buffer p.1 w ≫= (.!! p.2) with
  | Some s => Ret s w
  | None => Fault UndefinedBehaviour
  end.

Definition write (p : ptr) (s : slot) : M unit := λ w,
  match buffer p.1 w with
  | Some b =>
      if decide (p.2 < length b)
      then Ret tt (set_buffer p.1 (<[p.2 := s]> b) w)
      else Fault UndefinedBehaviour
  | None => Fault UndefinedBehaviour
  end.

(** The value of the object at [p]; there must be one. *)
Definition load (p : ptr) : M T :=
  s ← read p;
  match s with
  | Obj v => mret v
  | Raw => undefined
  end.

(** [q - p] for two pointers into the same buffer, [p] not after [q]. *)
Definition ptr_diff (q p : ptr) : M nat :=
  if decide (q.1 = p.1 ∧ p.2 ≤ q.2) then mret (q.2 - p.2) else undefined.

(** ** Operations on one element *)

(** [std::construct_at(p, args...)] and [::new (p) T(args...)], the arguments
    evaluating to [v]. *)
Definition construct_at (p : ptr) (v : T) : M unit :=
  may_throw;;
  write p (Obj v);;
  log (Construct p).

(** Copy construction of the object at [src] into the raw slot [dst]. *)
Definition copy_construct_at (dst src : ptr) : M unit :=
  v ← load src;
  may_throw;;
  write dst (Obj v);;
  log (CopyConstruct dst src).

(** Move construction of the object at [src] into the raw slot [dst].  When
    the constructor throws, [dst] is raw as before.  What [T] leaves in
    [src] in that case is not modelled, the run keeps its value: the
    theorems about such a failure leave the state of the source open, or
    are stated for a move constructor that cannot throw. *)
Definition move_construct_at (dst src : ptr) : M unit :=
  v ← load src;
  (if is_nothrow_move_constructible then mret tt else may_throw);;
  write src (Obj (moved_from v));;
  write dst (Obj v);;
  log (MoveConstruct dst src).

(** Move assignment of the object at [src] to the object at [dst].  What [T]
    leaves in the two objects when the assignment throws is not modelled,
    the run keeps their values: the theorems about such a failure leave the
    state of both open, or are stated for a move assignment that cannot
    throw. *)
Definition move_assign (dst src : ptr) : M unit :=
  v ← load src;
  _ ← load dst;
  (if is_nothrow_move_assignable then mret tt else may_throw);;
  write src (Obj (moved_from v));;
  write dst (Obj v);;
  log (MoveAssign dst src).

(** [::new (p) T()] *)
Definition value_construct_at (p : ptr) : M unit :=
  may_throw;;
  write p (Obj value_initialized);;
  log (Construct p).

(** [std::destroy_at(p)] *)
Definition destroy_at (p : ptr) : M unit :=
  _ ← load p;
  write p Raw;;
  log (Destroy p).

(** ** Standard algorithms *)

(** [std::destroy_n(first, n)] *)
Fixpoint destroy_n (first : ptr) (n : nat) : M unit :=
  match n with
  | 0 => mret tt
  | S n' => destroy_at first;; destroy_n (ptr_add first 1) n'
  end.

(** The loop of the [std::uninitialized_*_n] algorithms: construct object
    number [i], [S i], ... behind [first]; when a construction throws, destroy
    the objects constructed so far, first to last, and rethrow.  The standard
    wraps the whole loop in one [try]; the handler being the same at every
    iteration but for the count, the model wraps each iteration. *)
Fixpoint uninitialized_loop
    (construct : nat → M unit) (first : ptr) (i n : nat) : M unit :=
  match n with
  | 0 => mret tt
  | S n' =>
      catch_rethrow (construct i) (destroy_n first i);;
      uninitialized_loop construct first (S i) n'
  end.

Definition uninitialized_copy_n (first : ptr) (count : nat) (d_first : ptr) : M unit :=
  uninitialized_loop
    (λ i, copy_construct_at (ptr_add d_first i) (ptr_add first i)) d_first 0 count.

Definition uninitialized_move_n (first : ptr) (count : nat) (d_first : ptr) : M unit :=
  uninitialized_loop
    (λ i, move_construct_at (ptr_add d_first i) (ptr_add first i)) d_first 0 count.

Definition uninitialized_value_construct_n (first : ptr) (n : nat) : M unit :=
  uninitialized_loop (λ i, value_construct_at (ptr_add first i)) first 0 n.

(** [std::move(first, last, d_first)]: front to back. *)
Fixpoint move_loop (first d_first : ptr) (n : nat) : M unit :=
  match n with
  | 0 => mret tt
  | S n' =>
      move_assign d_first first;;
      move_loop (ptr_add first 1) (ptr_add d_first 1) n'
  end.

Definition std_move (first last d_first : ptr) : M unit :=
  n ← ptr_diff last first;
  move_loop first d_first n.

(** [std::move_backward(first, last, d_last)]: back to front, the last
    element moved lands just before [d_last]. *)
Fixpoint move_backward_loop (last d_last : ptr) (n : nat) : M unit :=
  match n with
  | 0 => mret tt
  | S n' =>
      move_assign (ptr_sub d_last 1) (ptr_sub last 1);;
      move_backward_loop (ptr_sub last 1) (ptr_sub d_last 1) n'
  end.

Definition std_move_backward (first last d_last : ptr) : M unit :=
  n ← ptr_diff last first;
  move_backward_loop last d_last n.

(** ** Local objects *)

(** Modelled from the spec: the constructor of a local [RawMemory<T>], as in
    [RawMemory<T> new_data(capacity);].  It reserves exactly [capacity]
    uninitialized slots and fails on out-of-memory only. *)
Definition allocate (capacity : nat) : M unit :=
  may_throw;;
  modify (λ w, MkWorld (this w) (Some (replicate capacity Raw)) (temp_val w)
                 (oracle w) (trace w ++ [Allocate capacity]) (freed w)).

(** Modelled from the spec: the destructor of the local [RawMemory<T>].  The
    block is freed and no element is destroyed; the log keeps the slots as
    they are at that moment. *)
Definition deallocate : M unit := λ w,
  match new_data w with
  | Some b =>
      Ret tt (MkWorld (this w) None (temp_val w) (oracle w) (trace w)
                (freed w ++ [b]))
  | None => Fault UndefinedBehaviour
  end.

Definition with_new_data {A} (capacity : nat) (body : M A) : M A :=
  allocate capacity;;
  at_scope_exit body deallocate.

(** Modelled from the spec: [data_.Swap(new_data)].  The two [RawMemory]
    objects exchange buffer and capacity, no element is touched. *)
Definition Swap_new_data : M unit := λ w,
  match new_data w with
  | Some b =>
      Ret tt (MkWorld (MkVector b (size_ (this w))) (Some (data_ (this w)))
                (temp_val w) (oracle w) (trace w) (freed w))
  | None => Fault UndefinedBehaviour
  end.

(** [T temp_val(args...);] with its destruction at the end of the block. *)
Definition with_temp_val {A} (args : T) (body : M A) : M A :=
  may_throw;;
  modify (λ w, MkWorld (this w) (new_data w) (Some [Obj args]) (oracle w)
                 (trace w ++ [Construct (TempVal, 0)]) (freed w));;
  at_scope_exit body
    (destroy_at (TempVal, 0);;
     modify (λ w, MkWorld (this w) (new_data w) None (oracle w) (trace w)
                    (freed w))).

(** ** Member functions of [Vector] (src/vector.h, lines 12-226) *)

Definition Size : M nat := λ w, Ret (size_ (this w)) w.

Definition Capacity : M nat := λ w, Ret (length (data_ (this w))) w.

(** An assignment to [size_]. *)
Definition set_size (n : nat) : M unit :=
  modify (λ w, MkWorld (MkVector (data_ (this w)) n) (new_data w) (temp_val w)
                 (oracle w) (trace w) (freed w)).

(** [begin()], [cbegin()] *)
Definition begin : ptr := (Data, 0).

(** [end()], [cend()] *)
Definition end_ : M ptr := size ← Size; mret (ptr_add begin size).

Definition ShiftDataToNewMemory (old_buf : ptr) (count : nat) (new_buf : ptr) : M unit :=
  if is_nothrow_move_constructible || negb is_copy_constructible
  then uninitialized_move_n old_buf count new_buf
  else uninitialized_copy_n old_buf count new_buf.

(** The arguments are given by the value that the constructor of the new
    element reads from them: on each of the three paths that constructor,
    of the new element or of [temp_val], is the first step to touch an
    object. *)
Definition Emplace (pos : ptr) (args : T) : M ptr :=
  offset ← ptr_diff pos begin;
  size ← Size;
  capacity ← Capacity;
  (if decide (size = capacity) then
     with_new_data (if decide (size = 0) then 1 else size_mul size 2)
       (construct_at (NewData, offset) args;;
        catch_rethrow
          (ShiftDataToNewMemory begin offset (NewData, 0))
          (destroy_n (NewData, offset) 1);;
        catch_rethrow
          (ShiftDataToNewMemory (ptr_add begin offset) (size_sub size offset)
             (ptr_add (ptr_add (NewData, 0) offset) 1))
          (destroy_n (NewData, 0) (size_add offset 1));;
        destroy_n begin size;;
        Swap_new_data)
   else
     e ← end_;
     if decide (pos = e) then
       construct_at e args
     else
       with_temp_val args
         (move_construct_at e (Data, size_sub size 1);;
          std_move_backward (ptr_add begin offset) (ptr_sub e 1) e;;
          move_assign (Data, offset) (TempVal, 0)));;
  size ← Size;
  set_size (size_add size 1);;
  mret (ptr_add begin offset).

(** Both overloads construct the element from their argument. *)
Definition Insert (pos : ptr) (value : T) : M ptr := Emplace pos value.

Definition Erase (pos : ptr) : M ptr :=
  offset ← ptr_diff pos begin;
  e ← end_;
  std_move (ptr_add (ptr_add begin offset) 1) e (ptr_add begin offset);;
  destroy_at (ptr_add begin offset);;
  size ← Size;
  set_size (size_sub size 1);;
  mret (ptr_add begin offset).

Definition Reserve (new_capacity : nat) : M unit :=
  capacity ← Capacity;
  if decide (new_capacity ≤ capacity) then mret tt
  else
    with_new_data new_capacity
      (size ← Size;
       ShiftDataToNewMemory begin size (NewData, 0);;
       destroy_n begin size;;
       Swap_new_data).

Definition Resize (new_size : nat) : M unit :=
  capacity ← Capacity;
  (if decide (capacity < new_size) then Reserve new_size else mret tt);;
  size ← Size;
  (if decide (size < new_size) then
     uninitialized_value_construct_n (ptr_add begin size) (size_sub new_size size)
   else
     destroy_n (ptr_add begin new_size) (size_sub size new_size));;
  set_size new_size.

Definition PopBack : M unit :=
  size ← Size;
  assert (bool_decide (0 < size));;
  destroy_at (ptr_sub (ptr_add begin size) 1);;
  set_size (size_sub size 1).

(** The reference returned is the address of the element. *)
Definition EmplaceBack (args : T) : M ptr :=
  e ← end_;
  it ← Emplace e args;
  mret it.

Definition PushBack (value : T) : M unit :=
  _ ← EmplaceBack value;
  mret tt.

(** Modelled from the spec: the move constructor of [RawMemory<T>].
    Ownership of the block goes to the new object (first component), the
    source is left with capacity 0 (second component). *)
Definition RawMemory_move (other : RawMemory) : RawMemory * RawMemory :=
  (other, []).

(** [Vector(Vector&& other) noexcept]: run with [this] the object under
    construction, returns what is left of [other]. *)
Definition Vector_move (other : Vector) : M Vector := λ w,
  let '(mine, theirs) := RawMemory_move (data_ other) in
  Ret (MkVector theirs 0)
    (MkWorld (MkVector mine (size_ other)) (new_data w) (temp_val w)
       (oracle w) (trace w) (freed w)).

(** ** Constructors, assignment, destructor, [Swap] and [operator[]]
    (src/vector.h, lines 18-68 and 192-212)

    A constructor runs with [this] the object under construction, the
    destructor with [this] the object that goes away.  Another vector that a
    member function is handed by reference is given by its value: one that is
    only read ([const Vector& other]) is an argument, one that is written
    ([Vector& other], [Vector&& other]) is an argument and comes back as the
    result. *)

(** Modelled from the spec: the constructor of the member [data_], as in
    [: data_(size)].  It reserves exactly [capacity] uninitialized slots and
    fails on out-of-memory only; a capacity of zero needs no allocation and
    cannot fail. *)
Definition allocate_data (capacity : nat) : M unit :=
  (if decide (capacity = 0) then mret tt else may_throw);;
  modify (λ w, MkWorld (MkVector (replicate capacity Raw) (size_ (this w)))
                 (new_data w) (temp_val w) (oracle w)
                 (trace w ++ [Allocate capacity]) (freed w)).

(** Modelled from the spec: the destructor of the member [data_].  The block
    is freed and no element is destroyed. *)
Definition deallocate_data : M unit :=
  modify (λ w, MkWorld (MkVector [] (size_ (this w))) (new_data w)
                 (temp_val w) (oracle w) (trace w)
                 (freed w ++ [data_ (this w)])).

(** Modelled from the spec: a default-constructed [RawMemory<T>] has no
    storage, its capacity is 0. *)
Definition RawMemory_default : RawMemory := [].

(** [Vector() = default]: a default-constructed [data_] and [size_ = 0]. *)
Definition Vector_default : Vector := MkVector RawMemory_default 0.

(** [explicit Vector(size_t size)].  When the body of a constructor throws,
    the members already constructed are destroyed: here [data_]. *)
Definition Vector_sized (size : nat) : M unit :=
  allocate_data size;;
  set_size size;;
  catch_rethrow (uninitialized_value_construct_n begin size) deallocate_data.

(** The value of the object at offset [i] of the buffer of [other]; there
    must be one. *)
Definition load_other (other : Vector) (i : nat) : M T :=
  match data_ other !! i with
  | Some (Obj v) => mret v
  | _ => undefined
  end.

(** [std::uninitialized_copy_n(other.data_.GetAddress() + first, count,
    d_first)]: each object is constructed from the value of its source. *)
Definition uninitialized_copy_n_from
    (other : Vector) (first count : nat) (d_first : ptr) : M unit :=
  uninitialized_loop
    (λ i, v ← load_other other (first + i); construct_at (ptr_add d_first i) v)
    d_first 0 count.

(** Copy assignment of the object at offset [i] of [other] to the object at
    [dst]; the log has no entry for it.  What [T] leaves in the target when
    the assignment throws is not modelled, the run keeps its value: the
    theorem about such a failure leaves the state of the target open. *)
Definition copy_assign_from (other : Vector) (i : nat) (dst : ptr) : M unit :=
  v ← load_other other i;
  _ ← load dst;
  may_throw;;
  write dst (Obj v).

(** [std::copy_n(other.data_.GetAddress() + first, count, d_first)] *)
Fixpoint copy_n_from
    (other : Vector) (first count : nat) (d_first : ptr) : M unit :=
  match count with
  | 0 => mret tt
  | S count' =>
      copy_assign_from other first d_first;;
      copy_n_from other (S first) count' (ptr_add d_first 1)
  end.

(** [Vector(const Vector& other)] *)
Definition Vector_copy (other : Vector) : M unit :=
  allocate_data (size_ other);;
  set_size (size_ other);;
  catch_rethrow
    (uninitialized_copy_n_from other 0 (size_ other) begin)
    deallocate_data.

(** [~Vector()]: the body, then the destructor of the member [data_]. *)
Definition destructor : M unit :=
  size ← Size;
  destroy_n begin size;;
  deallocate_data.

(** Modelled from the spec: [RawMemory::Swap].  The two objects exchange
    buffer and capacity, no element is touched. *)
Definition RawMemory_Swap (a b : RawMemory) : RawMemory * RawMemory := (b, a).

(** [void Swap(Vector& other) noexcept]; returns [other]. *)
Definition Swap (other : Vector) : M Vector := λ w,
  let '(mine, theirs) := RawMemory_Swap (data_ (this w)) (data_ other) in
  let '(my_size, their_size) := (size_ other, size_ (this w)) in
  Ret (MkVector theirs their_size)
    (MkWorld (MkVector mine my_size) (new_data w) (temp_val w)
       (oracle w) (trace w) (freed w)).

(** The right-hand side of an assignment: the object assigned to
    ([this == &other]) or another one. *)
Inductive operand :=
| This
| Other (other : Vector).

(** [Vector& operator=(const Vector& other)].  The local [temp] of the first
    branch has its buffer in the local [RawMemory] of the state and its size
    in a local variable: its constructor is that of [Vector_copy] on that
    buffer, [Swap(temp)] exchanges the two buffers and the two sizes, and its
    destructor runs at the end of the block. *)
Definition copy_assignment (rhs : operand) : M unit :=
  match rhs with
  | This => mret tt
  | Other other =>
      capacity ← Capacity;
      if decide (capacity < size_ other) then
        with_new_data (size_ other)
          (uninitialized_copy_n_from other 0 (size_ other) (NewData, 0);;
           temp_size ← mret (size_ other);
           size ← Size;
           Swap_new_data;;
           set_size temp_size;;
           temp_size ← mret size;
           destroy_n (NewData, 0) temp_size)
      else
        size ← Size;
        let min_size := Nat.min size (size_ other) in
        copy_n_from other 0 min_size begin;;
        (if decide (size < size_ other) then
           uninitialized_copy_n_from other min_size
             (size_sub (size_ other) min_size) (ptr_add begin min_size)
         else
           destroy_n (ptr_add begin (size_ other))
             (size_sub size (size_ other)));;
        set_size (size_ other)
  end.

(** [Vector& operator=(Vector&& other) noexcept]; returns [other]. *)
Definition move_assignment (rhs : operand) : M operand :=
  match rhs with
  | This => mret This
  | Other other => λ w,
      let '(mine, theirs) := RawMemory_Swap (data_ (this w)) (data_ other) in
      let '(my_size, their_size) := (size_ other, size_ (this w)) in
      Ret (Other (MkVector theirs their_size))
        (MkWorld (MkVector mine my_size) (new_data w) (temp_val w)
           (oracle w) (trace w) (freed w))
  end.

(** [T& operator[](size_t index) noexcept], and the [const] overload that
    calls it: the reference returned is the address of the element,
    [data_[index]] being the slot at offset [index] of the buffer. *)
Definition subscript (index : nat) : M ptr :=
  size ← Size;
  assert (bool_decide (index < size));;
  mret (Data, index).

(** [PushBack] of the values [vs], one after the other. *)
Fixpoint push_all (vs : list T) : M unit :=
  match vs with
  | [] => mret tt
  | v :: vs' => PushBack v;; push_all vs'
  end.

(** ** The public interface *)

Inductive operation :=
| CallReserve (new_capacity : nat)
| CallResize (new_size : nat)
| CallPushBack (value : T)
| CallEmplaceBack (args : T)
| CallInsert (pos : ptr) (value : T)
| CallEmplace (pos : ptr) (args : T)
| CallErase (pos : ptr)
| CallPopBack.

(** What a call hands back: nothing (a [void] function), an iterator or a
    reference to an element. *)
Inductive returned :=
| Nothing
| Iterator (p : ptr)
| Reference (p : ptr).

Definition call (op : operation) : M returned :=
  match op with
  | CallReserve n => Reserve n;; mret Nothing
  | CallResize n => Resize n;; mret Nothing
  | CallPushBack v => PushBack v;; mret Nothing
  | CallEmplaceBack v => r ← EmplaceBack v; mret (Reference r)
  | CallInsert pos v => it ← Insert pos v; mret (Iterator it)
  | CallEmplace pos v => it ← Emplace pos v; mret (Iterator it)
  | CallErase pos => it ← Erase pos; mret (Iterator it)
  | CallPopBack => PopBack;; mret Nothing
  end.

(** ** The representation invariant *)

(** A vector of capacity [length xs + k] holding the elements [xs]. *)
Definition mk_vector (xs : list T) (k : nat) : Vector :=
  MkVector ((Obj <$> xs) ++ replicate k Raw) (length xs).

(** [size_ <= Capacity()], the first [size_] slots hold live objects and the
    slots behind them are raw. *)
Definition invariant (v : Vector) : bool :=
  bool_decide (size_ v ≤ length (data_ v))
  && forallb is_live (take (size_ v) (data_ v))
  && forallb (λ s, negb (is_live s)) (drop (size_ v) (data_ v)).

End Vector.

Arguments Ret {T A} a w.
Arguments Exc {T A} w.
Arguments Fault {T A} f.
Arguments Raw {T}.
Arguments Obj {T} v.

(** ** The earlier version of the class (src/unnamed/part_000)

    Constructors, assignment, [Swap], [PopBack], [Size] and [Capacity] are
    the same text as in src/vector.h; [Reserve] has the transfer written out
    instead of calling [ShiftDataToNewMemory]; [Resize], [PushBack] and
    [EmplaceBack] are different code.  [PushBack] reads its argument after
    it has transferred the elements: the argument is modelled as the
    reference it is. *)
Module Part000.
Section Members.
Context {T : Type} `{!Element T}.
#[local] Abbreviation M := (@M T).

Definition Reserve (new_capacity : nat) : M unit :=
  capacity ← Capacity;
  if decide (new_capacity ≤ capacity) then mret tt
  else
    with_new_data new_capacity
      (size ← Size;
       (if is_nothrow_move_constructible || negb is_copy_constructible
        then uninitialized_move_n begin size (NewData, 0)
        else uninitialized_copy_n begin size (NewData, 0));;
       destroy_n begin size;;
       Swap_new_data).

Definition Resize (new_size : nat) : M unit :=
  size ← Size;
  if decide (new_size < size) then
    destroy_n (ptr_add begin new_size) (size_sub size new_size);;
    set_size new_size
  else if decide (size < new_size) then
    Reserve new_size;;
    uninitialized_value_construct_n (ptr_add begin size) (size_sub new_size size);;
    set_size new_size
  else mret tt.

(** The object that the parameter of [PushBack] is bound to.  [PushBack]
    takes its argument by reference and reads it when it constructs the new
    element: an object that is not in the storage of the vector is given by
    its value, an element of the vector itself, as in [S.PushBack(S[i])], by
    its offset in the buffer. *)
Inductive referent :=
| Outside (v : T)
| ElementAt (i : nat).

(** The two overloads of [PushBack], and the two instances of
    [ReallocateAndPush] they call. *)
Inductive overload :=
| ByConstRef      (* [const T& value] *)
| ByRvalueRef.    (* [T&& value] *)

(** [::new (p) T(value)], [::new (p) T(std::move(value))] and
    [::new (p) T(std::forward<U>(value))].  The constructor reads the object
    behind the reference at this moment, where the buffer [data_] has it:
    the copy constructor for a [const T&], the move constructor, which
    leaves that object moved-from, for a [T&&]. *)
Definition construct_from
    (how : overload) (p : ptr) (value : referent) : M unit :=
  match value, how with
  | Outside v, _ => construct_at p v
  | ElementAt i, ByConstRef => copy_construct_at p (Data, i)
  | ElementAt i, ByRvalueRef => move_construct_at p (Data, i)
  end.

(** [ReallocateAndPush(U&& value)]: the elements are transferred first, the
    new element is constructed from [value] after that, while [data_] still
    is the old buffer. *)
Definition ReallocateAndPush (how : overload) (value : referent) : M unit :=
  size ← Size;
  with_new_data (if decide (size = 0) then 1 else size_mul size 2)
    ((if is_nothrow_move_constructible || negb is_copy_constructible
      then uninitialized_move_n begin size (NewData, 0)
      else uninitialized_copy_n begin size (NewData, 0));;
     construct_from how (ptr_add (NewData, 0) size) value;;
     destroy_n begin size;;
     Swap_new_data;;
     size ← Size;
     set_size (size_add size 1)).

(** [PushBack(const T&)] and [PushBack(T&&)]: the same text but for the
    [std::move] of the argument. *)
Definition PushBack (how : overload) (value : referent) : M unit :=
  size ← Size;
  capacity ← Capacity;
  if decide (size < capacity) then
    construct_from how (ptr_add begin size) value;;
    size ← Size;
    set_size (size_add size 1)
  else ReallocateAndPush how value.

(** The two hand written loops of [ReallocateAndEmplace], with their
    handler: destroy the [i] objects transferred so far, then the new
    element, and rethrow. *)
Fixpoint transfer_loop
    (construct : nat → M unit) (new_begin dest : ptr) (i n : nat) : M unit :=
  match n with
  | 0 => mret tt
  | S n' =>
      catch_rethrow (construct i) (destroy_n new_begin i;; destroy_at dest);;
      transfer_loop construct new_begin dest (S i) n'
  end.

Definition ReallocateAndEmplace (args : T) : M ptr :=
  size ← Size;
  with_new_data (if decide (size = 0) then 1 else size_mul size 2)
    (let new_begin : ptr := (NewData, 0) in
     let dest := ptr_add new_begin size in
     construct_at dest args;;
     (if is_nothrow_move_constructible || negb is_copy_constructible
      then
        transfer_loop
          (λ i, move_construct_at (ptr_add new_begin i) (Data, i))
          new_begin dest 0 size
      else
        transfer_loop
          (λ i, copy_construct_at (ptr_add new_begin i) (Data, i))
          new_begin dest 0 size);;
     destroy_n begin size;;
     Swap_new_data;;
     size ← Size;
     set_size (size_add size 1);;
     size ← Size;
     mret (Data, size_sub size 1)).

Definition EmplaceBack (args : T) : M ptr :=
  size ← Size;
  capacity ← Capacity;
  if decide (size < capacity) then
    construct_at (ptr_add begin size) args;;
    size ← Size;
    set_size (size_add size 1);;
    size ← Size;
    mret (Data, size_sub size 1)
  else ReallocateAndEmplace args.

End Members.
End Part000.

(** * Element types and states for concrete runs *)

(** [int]: copying and moving leave the source as it is, nothing throws. *)
#[export] Instance int_element : Element Z := {|
  moved_from := λ x, x;
  value_initialized := 0%Z;
  is_nothrow_move_constructible := true;
  is_copy_constructible := true;
  is_nothrow_move_assignable := true;
|}.

(** [std::string]: it can be copied, its move operations cannot throw and
    leave the source empty. *)
#[export] Instance string_element : Element string := {|
  moved_from := λ _, EmptyString;
  value_initialized := EmptyString;
  is_nothrow_move_constructible := true;
  is_copy_constructible := true;
  is_nothrow_move_assignable := true;
|}.

(** A handle on some resource: it cannot be copied, a move takes the
    resource and leaves the source holding none (number 0), and the move
    constructor may throw. *)
Inductive handle := Handle (resource : nat).

#[export] Instance handle_element : Element handle := {|
  moved_from := λ _, Handle 0;
  value_initialized := Handle 0;
  is_nothrow_move_constructible := false;
  is_copy_constructible := false;
  is_nothrow_move_assignable := false;
|}.

(** A type with a copy constructor that may throw and no [noexcept] move:
    reallocation copies it. *)
Inductive tracked := Tracked (id : nat).

#[export] Instance tracked_element : Element tracked := {|
  moved_from := λ x, x;
  value_initialized := Tracked 0;
  is_nothrow_move_constructible := false;
  is_copy_constructible := true;
  is_nothrow_move_assignable := false;
|}.

(** The state before a call: no local object yet, nothing logged. *)
Definition start {T} (v : @Vector T) (o : list bool) : @World T :=
  MkWorld v None None o [] [].

(** * Specifications and proofs *)

Section Correctness.
Context {T : Type} `{!Element T}.
#[local] Abbreviation M := (@M T).
#[local] Abbreviation World := (@World T).
Implicit Types (w : World) (o : list bool) (t : list event).
Implicit Types (xs ys vs : list T) (x v : T) (pre post : list (@slot T)).

(** ** Vocabulary of the specifications *)

(** [wp m Q E w]: run from [w], [m] has defined behaviour; if it returns [a]
    in [w'] then [Q a w'], if it throws in [w'] then [E w'].  Two facts about
    the failure schedule hold of every program and are part of the
    judgement: a run only consumes its oracle, and only an oracle holding a
    failure makes it throw. *)
Definition wp {A} (m : M A) (Q : A → World → Prop) (E : World → Prop)
    (w : World) : Prop :=
  match m w with
  | Ret a w' => oracle w' `suffix_of` oracle w ∧ Q a w'
  | Exc w' => oracle w' `suffix_of` oracle w ∧ false ∈ oracle w ∧ E w'
  | Fault _ => False
  end.

(** Worlds that differ from [w] in the oracle or in the log. *)
Definition set_oracle o w : World :=
  MkWorld (this w) (new_data w) (temp_val w) o (trace w) (freed w).

Definition logged (e : event) w : World :=
  MkWorld (this w) (new_data w) (temp_val w) (oracle w) (trace w ++ [e])
    (freed w).

Definition logged_all (evs : list event) w : World :=
  MkWorld (this w) (new_data w) (temp_val w) (oracle w) (trace w ++ evs)
    (freed w).

(** The events of the loops: [n] destructions in buffer [r] from slot [i]
    on; [n] copies, or moves, from slot [sp + j] of the vector's buffer to
    slot [dp + j] of the new one, for [j] from [i] on; [n] constructions in
    the slots [p + j] of the vector's buffer, or of buffer [r]; [c] move
    assignments to the next slot, last element first, or to the previous
    slot, first element first. *)
Definition destroy_events (r : region) (i n : nat) : list event :=
  (λ j, Destroy (r, j)) <$> seq i n.

Definition copy_events (sp dp i n : nat) : list event :=
  (λ j, CopyConstruct (NewData, dp + j) (Data, sp + j)) <$> seq i n.

Definition move_events (sp dp i n : nat) : list event :=
  (λ j, MoveConstruct (NewData, dp + j) (Data, sp + j)) <$> seq i n.

Definition construct_events (p i n : nat) : list event :=
  (λ j, Construct (Data, p + j)) <$> seq i n.

Definition constructions (r : region) (p i n : nat) : list event :=
  (λ j, Construct (r, p + j)) <$> seq i n.

Definition backward_events (i c : nat) : list event :=
  (λ j, MoveAssign (Data, j + 1) (Data, j)) <$> reverse (seq i c).

Definition forward_events (i c : nat) : list event :=
  (λ j, MoveAssign (Data, j) (Data, j + 1)) <$> seq i c.

(** The branch [ShiftDataToNewMemory] takes for [T]. *)
Definition transfers_by_move : bool :=
  is_nothrow_move_constructible || negb is_copy_constructible.

Definition transfer_events (sp dp n : nat) : list event :=
  if transfers_by_move then move_events sp dp 0 n else copy_events sp dp 0 n.

(** The source elements after a complete transfer. *)
Definition transferred vs : list T :=
  if transfers_by_move then moved_from <$> vs else vs.

(** The source elements [vs'] after a transfer of [vs] that threw: a copy
    leaves them as they were; a move, which throws only if the move
    constructor can, leaves those already moved in their moved-from state. *)
Definition interrupted vs vs' : Prop :=
  if transfers_by_move then
    is_nothrow_move_constructible = false
    ∧ ∃ moved kept, vs = moved ++ kept ∧ vs' = (moved_from <$> moved) ++ kept
  else vs' = vs.

(** What [std::move_backward] leaves in the first slot of the range [ys]
    it has shifted one slot towards the tail, [z] being the object it has
    overwritten behind the range. *)
Definition vacated ys (z : T) : T :=
  match ys with
  | [] => z
  | y :: _ => moved_from y
  end.

(** What [std::move] leaves in the last slot of the range [z, ys] it has
    shifted one slot forward. *)
Fixpoint left_behind ys (z : T) : T :=
  match ys with
  | [] => z
  | y :: ys' => left_behind ys' (moved_from y)
  end.

(** The slots from the erased position to the old end, after [Erase] of the
    element [x] followed by [ys]. *)
Definition erased_slots (x : T) ys : list (@slot T) :=
  match ys with
  | [] => [Raw]
  | _ :: ys' => Raw :: (Obj <$> ys') ++ [Obj (left_behind ys x)]
  end.

(** The steps of [Emplace] at offset [p] of [n] elements when there is room
    and [p] is not the end. *)
Definition insertion_events (p n : nat) : list event :=
  [Construct (TempVal, 0); MoveConstruct (Data, n) (Data, n - 1)]
  ++ backward_events p (n - 1 - p)
  ++ [MoveAssign (Data, p) (TempVal, 0); Destroy (TempVal, 0)].

(** The capacity [Emplace] asks for when the buffer is full, and the steps
    it then takes. *)
Definition grown (size : nat) : nat := if decide (size = 0) then 1 else size * 2.

Definition reallocation_events (p n : nat) : list event :=
  Allocate (grown n) :: Construct (NewData, p)
  :: transfer_events 0 0 p
  ++ transfer_events p (p + 1) (n - p)
  ++ destroy_events Data 0 n.

(** The calls the invariant is proved for: every operation of the interface
    but [Erase], with the arguments its contract asks for. *)
Definition within_contract (op : @operation T) (v : @Vector T) : Prop :=
  match op with
  | CallReserve _ | CallPushBack _ | CallEmplaceBack _ => True
  | CallResize n => representable n
  | CallInsert pos _ | CallEmplace pos _ => pos.1 = Data ∧ pos.2 ≤ size_ v
  | CallPopBack => 0 < size_ v
  | CallErase _ => False
  end.

(** What [PushBack(v)] leaves of a sequence that held [xs]. *)
Definition appended xs v w' : Prop :=
  data_ (this w') !! length xs = Some (Obj v)
  ∧ size_ (this w') = length xs + 1
  ∧ take (length xs) (data_ (this w')) = Obj <$> xs
  ∧ ∃ k', this w' = mk_vector (xs ++ [v]) k'.

(** The value behind the reference [value] while the elements of the vector
    are [zs]. *)
Definition referred (value : @Part000.referent T) (zs : list T) : option T :=
  match value with
  | Part000.Outside v => Some v
  | Part000.ElementAt i => zs !! i
  end.

(** The elements [zs] once the new element has been constructed from the
    value [v] behind [value]: a move from one of them leaves it moved-from. *)
Definition read_from (how : Part000.overload) (value : @Part000.referent T)
    (zs : list T) (v : T) : list T :=
  match value, how with
  | Part000.ElementAt i, Part000.ByRvalueRef => <[i := moved_from v]> zs
  | _, _ => zs
  end.

(** The argument is not an element of the vector that the call moves from
    with [std::move(value)]. *)
Definition not_moved_from (how : Part000.overload)
    (value : @Part000.referent T) : Prop :=
  match value with
  | Part000.Outside _ => True
  | Part000.ElementAt _ => how = Part000.ByConstRef
  end.

(** The argument of the earlier [PushBack] holds [v] all the way to the
    constructor of the new element: it is an object outside the vector, of
    value [v]; or it is the element at an offset where [xs] has [v], passed
    as a [const T&], and the elements are not moved to another buffer before
    the constructor reads it, because the vector has room ([0 < k]) or [T]
    is transferred by copy. *)
Definition holds_until_read xs k (how : Part000.overload)
    (value : @Part000.referent T) (v : T) : Prop :=
  referred value xs = Some v
  ∧ match value with
    | Part000.Outside _ => True
    | Part000.ElementAt _ =>
        how = Part000.ByConstRef ∧ (k = 0 → transfers_by_move = false)
    end.


(** What an insertion into a vector of the elements [xs] with [k] free
    slots, run with [f] given back so far, has done to the storage when it
    returns: with room to spare nothing, and otherwise the buffer has been
    replaced by one of the capacity [grown] and given back empty. *)
Definition regrown {A} xs k (f : list (list (@slot T))) o (r : result A) : Prop :=
  match r with
  | Ret _ w' =>
      length (data_ (this w'))
      = (if decide (k = 0) then grown (length xs) else length xs + k)
      ∧ freed w'
        = (if decide (k = 0) then f ++ [replicate (length xs) Raw] else f)
  | Exc _ => false ∈ o
  | Fault _ => False
  end.


(** The capacity of a vector that had no storage, after [n] appends. *)
Fixpoint capacity_after (n : nat) : nat :=
  match n with
  | 0 => 0
  | S n' =>
      if decide (capacity_after n' = n') then grown n' else capacity_after n'
  end.

(** ** Arithmetic of [size_t] within range *)

Lemma size_add_fits a b : representable (a + b) → size_add a b = a + b.
Proof.
  unfold representable, size_add, to_size_t, SIZE_MAX. intros ?.
  rewrite Z.mod_small by lia. lia.
Qed.

Lemma size_sub_fits a b : b ≤ a → representable a → size_sub a b = a - b.
Proof.
  unfold representable, size_sub, to_size_t, SIZE_MAX. intros ??.
  rewrite Z.mod_small by lia. lia.
Qed.

Lemma size_mul_fits a b : representable (a * b) → size_mul a b = a * b.
Proof.
  unfold representable, size_mul, to_size_t, SIZE_MAX. intros ?.
  rewrite Z.mod_small by lia. lia.
Qed.

Lemma representable_le a b : a ≤ b → representable b → representable a.
Proof. unfold representable. lia. Qed.

(** ** The program logic *)

Lemma failure_in_suffix o' o : o' `suffix_of` o → false ∈ o' → false ∈ o.
Proof. intros [k ->] ?. apply elem_of_app. by right. Qed.

Lemma wp_ret {A} (a : A) Q E w : Q a w → wp (mret a) Q E w.
Proof. intros. split; [done|done]. Qed.

Lemma wp_bind {A B} (m : M A) (f : A → M B) Q E w :
  wp m (λ a w', wp (f a) Q E w') E w → wp (m ≫= f) Q E w.
Proof.
  unfold wp, mbind, M_bind. destruct (m w) as [a w'| w' |]; [|done..].
  intros [Hs H]. destruct (f a w') as [b w''| w'' |]; [| |done].
  - destruct H. split; [by etrans|done].
  - destruct H as (? & ? & ?).
    split; [by etrans|]. split; [by eapply failure_in_suffix|done].
Qed.

Lemma wp_mono {A} (m : M A) (Q Q' : A → World → Prop) (E E' : World → Prop) w :
  wp m Q E w →
  (∀ a w', Q a w' → Q' a w') → (∀ w', E w' → E' w') →
  wp m Q' E' w.
Proof.
  unfold wp. intros H HQ HE. destruct (m w); [|  |done].
  - destruct H. auto.
  - destruct H as (? & ? & ?). auto.
Qed.

Lemma wp_catch_rethrow {A} (body : M A) handler Q E w :
  wp body Q (λ w', wp handler (λ _ w'', E w'') E w') w →
  wp (catch_rethrow body handler) Q E w.
Proof.
  unfold wp, catch_rethrow. destruct (body w) as [a w'| w' |]; [done| |done].
  intros (Hs & Hf & H). destruct (handler w') as [? w''| w'' |]; [| |done].
  - destruct H. split; [by etrans|done].
  - destruct H as (? & ? & ?). split; [by etrans|done].
Qed.

Lemma wp_at_scope_exit {A} (body : M A) destructor Q E w :
  wp body (λ a w', wp destructor (λ _ w'', Q a w'') E w')
    (λ w', wp destructor (λ _ w'', E w'') E w') w →
  wp (at_scope_exit body destructor) Q E w.
Proof.
  unfold wp, at_scope_exit. destruct (body w) as [a w'| w' |]; [| |done].
  - intros [Hs H]. destruct (destructor w') as [? w''| w'' |]; [| |done].
    + destruct H. split; [by etrans|done].
    + destruct H as (? & ? & ?).
      split; [by etrans|]. split; [by eapply failure_in_suffix|done].
  - intros (Hs & Hf & H). destruct (destructor w') as [? w''| w'' |]; [| |done].
    + destruct H. split; [by etrans|done].
    + destruct H as (? & ? & ?). split; [by etrans|done].
Qed.

Lemma wp_may_throw Q E th nd tv o t f :
  (∀ o', Q tt (MkWorld th nd tv o' t f)) →
  (∀ o', E (MkWorld th nd tv o' (t ++ [Throw]) f)) →
  wp may_throw Q E (MkWorld th nd tv o t f).
Proof.
  intros HQ HE. unfold wp, may_throw. simpl.
  destruct o as [|[] o]; simpl.
  - done.
  - split; [by apply suffix_cons_r|done].
  - split; [by apply suffix_cons_r|]. split; [by left|done].
Qed.

Lemma wp_modify (g : World → World) Q E w :
  oracle (g w) = oracle w → Q tt (g w) → wp (modify g) Q E w.
Proof. intros Ho ?. unfold wp, modify. by rewrite Ho. Qed.

Lemma wp_log e Q E w :
  Q tt (MkWorld (this w) (new_data w) (temp_val w) (oracle w)
          (trace w ++ [e]) (freed w)) →
  wp (log e) Q E w.
Proof. intros. by apply wp_modify. Qed.

Lemma wp_set_size n Q E w :
  Q tt (MkWorld (MkVector (data_ (this w)) n) (new_data w) (temp_val w)
          (oracle w) (trace w) (freed w)) →
  wp (set_size n) Q E w.
Proof. intros. by apply wp_modify. Qed.

Lemma wp_assert b Q E w : b = true → Q tt w → wp (assert b) Q E w.
Proof. intros -> ?. by split. Qed.

Lemma wp_Size Q E w : Q (size_ (this w)) w → wp Size Q E w.
Proof. intros. by split. Qed.

Lemma wp_Capacity Q E w : Q (length (data_ (this w))) w → wp Capacity Q E w.
Proof. intros. by split. Qed.

Lemma wp_end Q E w : Q (Data, size_ (this w)) w → wp end_ Q E w.
Proof. intros. by split. Qed.

Lemma wp_ptr_diff (q p : ptr) Q E w :
  q.1 = p.1 → p.2 ≤ q.2 → Q (q.2 - p.2) w → wp (ptr_diff q p) Q E w.
Proof.
  intros. unfold ptr_diff. rewrite decide_True by done. by apply wp_ret.
Qed.

Lemma oracle_set_buffer r b w : oracle (set_buffer r b w) = oracle w.
Proof. by destruct r. Qed.

Lemma wp_load r i b v Q E w :
  buffer r w = Some b → b !! i = Some (Obj v) →
  Q v w → wp (load (r, i)) Q E w.
Proof.
  intros Hb Hi ?. unfold wp, load, mbind, M_bind, read. simpl.
  rewrite Hb. simpl. rewrite Hi. by split.
Qed.

Lemma wp_write r i b s Q E w :
  buffer r w = Some b → i < length b →
  Q tt (set_buffer r (<[i := s]> b) w) → wp (write (r, i) s) Q E w.
Proof.
  intros Hb Hi ?. unfold wp, write. simpl. rewrite Hb.
  rewrite decide_True by done. by rewrite oracle_set_buffer.
Qed.

(** *** The effect of the steps on one element *)

Lemma buffer_set_buffer r b w : buffer r (set_buffer r b w) = Some b.
Proof. by destruct r. Qed.

Lemma buffer_set_buffer_ne r r' b w :
  r ≠ r' → buffer r' (set_buffer r b w) = buffer r' w.
Proof. by destruct r, r'. Qed.

Lemma buffer_set_oracle r o w : buffer r (set_oracle o w) = buffer r w.
Proof. by destruct r. Qed.

Lemma wp_throwing Q E w :
  (∀ o', Q tt (set_oracle o' w)) →
  (∀ o', E (set_oracle o' (logged Throw w))) →
  wp may_throw Q E w.
Proof. destruct w. apply wp_may_throw. Qed.

Lemma wp_throwing_unless (nothrow : bool) Q E w :
  (∀ o', Q tt (set_oracle o' w)) →
  (nothrow = false → ∀ o', E (set_oracle o' (logged Throw w))) →
  wp (if nothrow then mret tt else may_throw) Q E w.
Proof.
  intros HQ HE. destruct nothrow.
  - apply wp_ret. destruct w. apply (HQ oracle0).
  - apply wp_throwing; auto.
Qed.

Lemma wp_destroy_at r i b v Q E w :
  buffer r w = Some b → b !! i = Some (Obj v) →
  Q tt (logged (Destroy (r, i)) (set_buffer r (<[i := Raw]> b) w)) →
  wp (destroy_at (r, i)) Q E w.
Proof.
  intros Hb Hi HQ. unfold destroy_at.
  apply wp_bind. eapply wp_load; [done..|].
  apply wp_bind. eapply wp_write; [done|by eapply lookup_lt_Some|].
  apply wp_log, HQ.
Qed.

Lemma wp_construct_at r i b v Q E w :
  buffer r w = Some b → i < length b →
  (∀ o', Q tt (logged (Construct (r, i))
                 (set_buffer r (<[i := Obj v]> b) (set_oracle o' w)))) →
  (∀ o', E (set_oracle o' (logged Throw w))) →
  wp (construct_at (r, i) v) Q E w.
Proof.
  intros Hb Hi HQ HE. unfold construct_at.
  apply wp_bind, wp_throwing; [|done]. intros o'.
  apply wp_bind. eapply wp_write; [by rewrite buffer_set_oracle|done|].
  apply wp_log, HQ.
Qed.

Lemma wp_copy_construct_at rd i rs j bd bs v Q E w :
  buffer rs w = Some bs → bs !! j = Some (Obj v) →
  buffer rd w = Some bd → i < length bd →
  (∀ o', Q tt (logged (CopyConstruct (rd, i) (rs, j))
                 (set_buffer rd (<[i := Obj v]> bd) (set_oracle o' w)))) →
  (∀ o', E (set_oracle o' (logged Throw w))) →
  wp (copy_construct_at (rd, i) (rs, j)) Q E w.
Proof.
  intros Hs Hj Hd Hi HQ HE. unfold copy_construct_at.
  apply wp_bind. eapply wp_load; [done..|].
  apply wp_bind, wp_throwing; [|done]. intros o'.
  apply wp_bind. eapply wp_write; [by rewrite buffer_set_oracle|done|].
  apply wp_log, HQ.
Qed.

(** Moving between two buffers. *)
Lemma wp_move_construct_at rd i rs j bd bs v Q E w :
  rs ≠ rd →
  buffer rs w = Some bs → bs !! j = Some (Obj v) →
  buffer rd w = Some bd → i < length bd →
  (∀ o', Q tt (logged (MoveConstruct (rd, i) (rs, j))
                 (set_buffer rd (<[i := Obj v]> bd)
                    (set_buffer rs (<[j := Obj (moved_from v)]> bs)
                       (set_oracle o' w))))) →
  (is_nothrow_move_constructible = false →
   ∀ o', E (set_oracle o' (logged Throw w))) →
  wp (move_construct_at (rd, i) (rs, j)) Q E w.
Proof.
  intros Hne Hs Hj Hd Hi HQ HE. unfold move_construct_at.
  apply wp_bind. eapply wp_load; [done..|].
  apply wp_bind, wp_throwing_unless; [|done]. intros o'.
  apply wp_bind. eapply wp_write; [by rewrite buffer_set_oracle|by eapply lookup_lt_Some|].
  apply wp_bind. eapply wp_write; [|done|apply wp_log, HQ].
  by rewrite buffer_set_buffer_ne, buffer_set_oracle.
Qed.

(** Moving within one buffer. *)
Lemma wp_move_construct_at_same r i j b v Q E w :
  buffer r w = Some b → b !! j = Some (Obj v) → i < length b →
  (∀ o', Q tt (logged (MoveConstruct (r, i) (r, j))
                 (set_buffer r (<[i := Obj v]> (<[j := Obj (moved_from v)]> b))
                    (set_oracle o' w)))) →
  (is_nothrow_move_constructible = false →
   ∀ o', E (set_oracle o' (logged Throw w))) →
  wp (move_construct_at (r, i) (r, j)) Q E w.
Proof.
  intros Hb Hj Hi HQ HE. unfold move_construct_at.
  apply wp_bind. eapply wp_load; [done..|].
  apply wp_bind, wp_throwing_unless; [|done]. intros o'.
  apply wp_bind. eapply wp_write; [by rewrite buffer_set_oracle|by eapply lookup_lt_Some|].
  apply wp_bind. eapply wp_write; [apply buffer_set_buffer| |].
  { by rewrite length_insert. }
  apply wp_log. specialize (HQ o'). by destruct r.
Qed.

Lemma wp_move_assign rd i rs j bd bs v u Q E w :
  rs ≠ rd →
  buffer rs w = Some bs → bs !! j = Some (Obj v) →
  buffer rd w = Some bd → bd !! i = Some (Obj u) →
  (∀ o', Q tt (logged (MoveAssign (rd, i) (rs, j))
                 (set_buffer rd (<[i := Obj v]> bd)
                    (set_buffer rs (<[j := Obj (moved_from v)]> bs)
                       (set_oracle o' w))))) →
  (is_nothrow_move_assignable = false →
   ∀ o', E (set_oracle o' (logged Throw w))) →
  wp (move_assign (rd, i) (rs, j)) Q E w.
Proof.
  intros Hne Hs Hj Hd Hi HQ HE. unfold move_assign.
  apply wp_bind. eapply wp_load; [done..|].
  apply wp_bind. eapply wp_load; [done..|].
  apply wp_bind, wp_throwing_unless; [|done]. intros o'.
  apply wp_bind. eapply wp_write; [by rewrite buffer_set_oracle|by eapply lookup_lt_Some|].
  apply wp_bind. eapply wp_write; [|by eapply lookup_lt_Some|apply wp_log, HQ].
  by rewrite buffer_set_buffer_ne, buffer_set_oracle.
Qed.

Lemma wp_move_assign_same r i j b v u Q E w :
  buffer r w = Some b → b !! j = Some (Obj v) → b !! i = Some (Obj u) →
  (∀ o', Q tt (logged (MoveAssign (r, i) (r, j))
                 (set_buffer r (<[i := Obj v]> (<[j := Obj (moved_from v)]> b))
                    (set_oracle o' w)))) →
  (is_nothrow_move_assignable = false →
   ∀ o', E (set_oracle o' (logged Throw w))) →
  wp (move_assign (r, i) (r, j)) Q E w.
Proof.
  intros Hb Hj Hi HQ HE. unfold move_assign.
  apply wp_bind. eapply wp_load; [done..|].
  apply wp_bind. eapply wp_load; [done..|].
  apply wp_bind, wp_throwing_unless; [|done]. intros o'.
  apply wp_bind. eapply wp_write; [by rewrite buffer_set_oracle|by eapply lookup_lt_Some|].
  apply wp_bind. eapply wp_write; [apply buffer_set_buffer| |].
  { rewrite length_insert. by eapply lookup_lt_Some. }
  apply wp_log. specialize (HQ o'). by destruct r.
Qed.

(** *** The standard algorithms

    A buffer is cut in three: the slots before the range an algorithm works
    on, the range, and the slots behind it. *)

Lemma buffer_logged r e w : buffer r (logged e w) = buffer r w.
Proof. by destruct r. Qed.

Lemma set_buffer_twice r b b' w :
  set_buffer r b' (set_buffer r b w) = set_buffer r b' w.
Proof. by destruct r. Qed.

Lemma set_buffer_logged r b e w :
  set_buffer r b (logged e w) = logged e (set_buffer r b w).
Proof. by destruct r. Qed.

Lemma logged_all_logged evs e w :
  logged_all evs (logged e w) = logged_all (e :: evs) w.
Proof. unfold logged_all, logged. simpl. by rewrite <-app_assoc. Qed.

Lemma logged_all_nil r b w :
  buffer r w = Some b → logged_all [] (set_buffer r b w) = w.
Proof.
  destruct w as [[d n] nd tv o t f], r; simpl; intros [= ->];
    unfold logged_all; simpl; by rewrite app_nil_r.
Qed.

Lemma wp_destroy_n r pre vs post Q E w :
  buffer r w = Some (pre ++ (Obj <$> vs) ++ post) →
  Q tt (logged_all (destroy_events r (length pre) (length vs))
          (set_buffer r (pre ++ replicate (length vs) Raw ++ post) w)) →
  wp (destroy_n (r, length pre) (length vs)) Q E w.
Proof.
  revert pre w. induction vs as [|v vs IH]; intros pre w Hb HQ.
  { apply wp_ret. by rewrite logged_all_nil in HQ. }
  simpl. apply wp_bind. eapply wp_destroy_at; [done|apply list_lookup_middle; done|].
  rewrite insert_app_r_alt, Nat.sub_diag by done. simpl.
  replace (ptr_add (r, length pre) 1) with (r, length (pre ++ [@Raw T]))
    by (unfold ptr_add; simpl; by rewrite length_app).
  apply IH.
  - rewrite buffer_logged, buffer_set_buffer. by rewrite <-app_assoc.
  - rewrite set_buffer_logged, set_buffer_twice, logged_all_logged.
    rewrite length_app, <-app_assoc. simpl.
    by replace (length pre + 1) with (S (length pre)) by lia.
Qed.

(** *** Reading a judgement back *)

Lemma wp_returns {A} (m : M A) (a : A) w w0 :
  wp m (λ b w', b = a ∧ w' = w0) (λ _, False) w → m w = Ret a w0.
Proof.
  unfold wp. destruct (m w) as [b w'| w' |]; [|by intros (_ & _ & ?)|done].
  by intros [_ [-> ->]].
Qed.

(** ** [PopBack] and shrinking with [Resize] *)

Ltac len :=
  repeat (rewrite ?length_app, ?length_fmap, ?length_replicate, ?length_insert;
          cbn [length]);
  lia.

Ltac rep :=
  match goal with
  | H : representable ?b |- representable ?a =>
      apply (representable_le a b); [len|exact H]
  end.

(** Conclude from a hypothesis about a world equal to that of the goal. *)
Ltac conclude H :=
  match goal with
  | |- _ ?w1 =>
      match type of H with
      | _ ?w2 => replace w1 with w2; [exact H|]
      end
  end.

Ltac wsimpl :=
  unfold ptr_add, ptr_sub, begin, logged, logged_all, set_oracle;
  cbn [buffer set_buffer this data_ size_ new_data temp_val oracle trace freed
       fst snd].

Lemma PopBack_spec xs x k nd tv o t f :
  representable (length xs + 1) →
  PopBack (MkWorld (mk_vector (xs ++ [x]) k) nd tv o t f)
  = Ret tt (MkWorld (mk_vector xs (S k)) nd tv o
              (t ++ [Destroy (Data, length xs)]) f).
Proof.
  intros Hrep. apply wp_returns. unfold PopBack, mk_vector.
  rewrite fmap_app, <-app_assoc, length_app. simpl.
  apply wp_bind, wp_Size. wsimpl.
  apply wp_bind, wp_assert; [apply bool_decide_eq_true; lia|].
  replace (0 + (length xs + 1) - 1) with (length (Obj <$> xs))
    by (rewrite length_fmap; lia).
  apply wp_bind. eapply wp_destroy_at with (v := x);
    [done|by apply list_lookup_middle|].
  apply wp_set_size. wsimpl.
  rewrite insert_app_r_alt, Nat.sub_diag by done. simpl.
  rewrite size_sub_fits by (done || lia).
  rewrite length_fmap. split; [done|].
  do 2 f_equal. lia.
Qed.

Lemma Resize_shrink_spec xs ys k nd tv o t f :
  representable (length xs + length ys) → ys ≠ [] →
  Resize (length xs) (MkWorld (mk_vector (xs ++ ys) k) nd tv o t f)
  = Ret tt (MkWorld (mk_vector xs (length ys + k)) nd tv o
              (t ++ destroy_events Data (length xs) (length ys)) f).
Proof.
  intros Hrep Hys. apply wp_returns. unfold Resize, mk_vector.
  assert (0 < length ys) by (destruct ys; [done|simpl; lia]).
  rewrite fmap_app, <-app_assoc, length_app.
  apply wp_bind, wp_Capacity. wsimpl.
  rewrite decide_False by (rewrite !length_app, !length_fmap; lia).
  apply wp_bind, wp_ret, wp_bind, wp_Size. wsimpl.
  rewrite decide_False by lia.
  rewrite size_sub_fits by (done || lia).
  replace (0 + length xs) with (length (Obj <$> xs)) by (by rewrite length_fmap).
  replace (length xs + length ys - length xs) with (length ys) by lia.
  apply wp_bind. eapply wp_destroy_n; [done|].
  apply wp_set_size. wsimpl. by rewrite length_fmap, replicate_add.
Qed.

Lemma Part000_Resize_shrink_spec xs ys k nd tv o t f :
  representable (length xs + length ys) → ys ≠ [] →
  Part000.Resize (length xs) (MkWorld (mk_vector (xs ++ ys) k) nd tv o t f)
  = Ret tt (MkWorld (mk_vector xs (length ys + k)) nd tv o
              (t ++ destroy_events Data (length xs) (length ys)) f).
Proof.
  intros Hrep Hys. apply wp_returns. unfold Part000.Resize, mk_vector.
  assert (0 < length ys) by (destruct ys; [done|simpl; lia]).
  rewrite fmap_app, <-app_assoc, length_app.
  apply wp_bind, wp_Size. wsimpl.
  rewrite decide_True by lia.
  rewrite size_sub_fits by (done || lia).
  replace (0 + length xs) with (length (Obj <$> xs)) by (by rewrite length_fmap).
  replace (length xs + length ys - length xs) with (length ys) by lia.
  apply wp_bind. eapply wp_destroy_n; [done|].
  apply wp_set_size. wsimpl. by rewrite length_fmap, replicate_add.
Qed.

(** C9.  On a sequence of [n] elements, [Resize(new_size)] with
    [new_size < n] (either version of [Resize]) returns normally, destroys
    the elements at the indices [new_size, n), those and no other, in that
    order, leaves [Size()] at [new_size], keeps the first [new_size]
    elements as they are and keeps [Capacity()].  [Resize(0)] on five
    elements is the instance [new_size = 0], [n = 5].  The size [n] is one
    that [size_t] can hold. *)
Theorem Resize_destroys_exactly_the_tail zs k new_size w resize :
  resize = Resize ∨ resize = Part000.Resize →
  this w = mk_vector zs k →
  representable (length zs) →
  new_size < length zs →
  ∃ w',
    resize new_size w = Ret tt w'
    ∧ trace w' = trace w ++ destroy_events Data new_size (length zs - new_size)
    ∧ this w' = mk_vector (take new_size zs) (length zs - new_size + k)
    ∧ size_ (this w') = new_size
    ∧ length (data_ (this w')) = length (data_ (this w)).
Proof.
  intros Hresize Hthis Hrep Hlt.
  destruct w as [th nd tv o t f]. simpl in Hthis. subst th.
  pose proof (take_drop new_size zs) as Hzs.
  assert (length (take new_size zs) = new_size) as Hlen
    by (rewrite length_take; lia).
  assert (length (drop new_size zs) = length zs - new_size) as Hlen'
    by apply length_drop.
  assert (drop new_size zs ≠ []) as Hne
    by (intros Heq; rewrite Heq in Hlen'; simpl in Hlen'; lia).
  eexists. split.
  { assert (representable
              (length (take new_size zs) + length (drop new_size zs)))
      by (rewrite Hlen, Hlen'; eapply representable_le; [|done]; lia).
    rewrite <-Hzs at 1. rewrite <-Hlen at 1.
    destruct Hresize as [-> | ->];
      [by apply Resize_shrink_spec|by apply Part000_Resize_shrink_spec]. }
  simpl. rewrite Hlen, Hlen'. split_and!; [done..|].
  rewrite !length_app, !length_fmap, !length_replicate, Hlen. lia.
Qed.

(** C10.  On a sequence of at least one element [PopBack] returns normally
    (the assertion [size_ > 0] holds), destroys the last element and nothing
    else, takes one off [Size()] and keeps the other elements and
    [Capacity()].  The size is one that [size_t] can hold. *)
Theorem PopBack_destroys_the_last zs k w :
  this w = mk_vector zs k →
  representable (length zs) →
  0 < length zs →
  ∃ w',
    PopBack w = Ret tt w'
    ∧ trace w' = trace w ++ [Destroy (Data, length zs - 1)]
    ∧ this w' = mk_vector (take (length zs - 1) zs) (S k)
    ∧ size_ (this w') = length zs - 1
    ∧ length (data_ (this w')) = length (data_ (this w)).
Proof.
  intros Hthis Hrep Hlt.
  destruct w as [th nd tv o t f]. simpl in Hthis. subst th.
  destruct (exists_last (l := zs)) as (xs & x & ->);
    [by intros ->; simpl in Hlt; lia|].
  rewrite length_app in *. simpl length in *.
  replace (length xs + 1 - 1) with (length xs) by lia.
  rewrite take_app_length.
  eexists. split; [by apply PopBack_spec|].
  simpl. split_and!; [done..|].
  rewrite !length_app, !length_fmap, !length_app. simpl.
  rewrite !length_replicate. lia.
Qed.

(** ** Transfers into new storage *)

Lemma insert_middle {A} (l1 l2 : list A) (x y : A) :
  <[length l1 := y]> (l1 ++ x :: l2) = l1 ++ y :: l2.
Proof. by rewrite insert_app_r_alt, Nat.sub_diag. Qed.

(** Slots addressed by their distance from the front of a buffer cut in
    pieces. *)
Lemma lookup_at {A} (l1 l2 : list A) (x : A) i :
  i = length l1 → (l1 ++ x :: l2) !! i = Some x.
Proof. intros ->. by apply list_lookup_middle. Qed.

Lemma insert_at {A} (l1 l2 : list A) (x y : A) i :
  i = length l1 → <[i := y]> (l1 ++ x :: l2) = l1 ++ y :: l2.
Proof. intros ->. apply insert_middle. Qed.

Lemma lookup_app2 {A} (l1 l2 l3 : list A) (x : A) i :
  i = length l1 + length l2 → (l1 ++ l2 ++ x :: l3) !! i = Some x.
Proof.
  intros ->. rewrite (assoc_L (++)), <-length_app. apply list_lookup_middle. done.
Qed.

Lemma insert_app2 {A} (l1 l2 l3 : list A) (x y : A) i :
  i = length l1 + length l2 →
  <[i := y]> (l1 ++ l2 ++ x :: l3) = l1 ++ l2 ++ y :: l3.
Proof.
  intros ->. rewrite (assoc_L (++)), <-length_app, insert_middle.
  by rewrite <-(assoc_L (++)).
Qed.

Lemma lookup_app2_next {A} (l1 l2 l3 : list A) (a x : A) i :
  i = length l1 + length l2 + 1 → (l1 ++ l2 ++ a :: x :: l3) !! i = Some x.
Proof.
  intros ->. rewrite (assoc_L (++)), (cons_middle a), (assoc_L (++)).
  apply list_lookup_middle. rewrite !length_app. simpl. lia.
Qed.

Lemma insert_app2_next {A} (l1 l2 l3 : list A) (a x y : A) i :
  i = length l1 + length l2 + 1 →
  <[i := y]> (l1 ++ l2 ++ a :: x :: l3) = l1 ++ l2 ++ a :: y :: l3.
Proof.
  intros ->. rewrite (assoc_L (++)), (cons_middle a), (assoc_L (++)).
  replace (length l1 + length l2 + 1) with (length ((l1 ++ l2) ++ [a]))
    by (rewrite !length_app; simpl; lia).
  rewrite insert_middle. by rewrite <-!(assoc_L (++)).
Qed.

(** The loop of [uninitialized_copy_n] from the vector's buffer into the new
    one, [done] being the elements copied so far and [rest] those still to
    copy: it either copies them all or leaves the destination range raw and
    the source as it was. *)
Lemma wp_copy_loop spre spost dpre dpost rest done n tv o t f Q E :
  (∀ o', Q tt
     (MkWorld (MkVector (spre ++ (Obj <$> done ++ rest) ++ spost) n)
        (Some (dpre ++ (Obj <$> done ++ rest) ++ dpost)) tv o'
        (t ++ copy_events (length spre) (length dpre) (length done) (length rest))
        f)) →
  (∀ o' t', E
     (MkWorld (MkVector (spre ++ (Obj <$> done ++ rest) ++ spost) n)
        (Some (dpre ++ replicate (length done + length rest) Raw ++ dpost))
        tv o' t' f)) →
  wp (uninitialized_loop
        (λ i, copy_construct_at (ptr_add (NewData, length dpre) i)
                (ptr_add (Data, length spre) i))
        (NewData, length dpre) (length done) (length rest)) Q E
    (MkWorld (MkVector (spre ++ (Obj <$> done ++ rest) ++ spost) n)
       (Some (dpre ++ (Obj <$> done) ++ replicate (length rest) Raw ++ dpost))
       tv o t f).
Proof.
  revert done o t. induction rest as [|v rest IH]; intros done o t HQ HE.
  { apply wp_ret. specialize (HQ o). unfold copy_events in HQ. simpl in *.
    by rewrite !app_nil_r in *. }
  simpl uninitialized_loop. apply wp_bind, wp_catch_rethrow.
  eapply wp_copy_construct_at with (v := v); wsimpl; [done| |done| | |].
  - rewrite lookup_app_r by lia.
    replace (length spre + length done - length spre) with (length done) by lia.
    rewrite fmap_app, <-app_assoc. simpl.
    rewrite list_lookup_middle; [done|by rewrite length_fmap].
  - rewrite !length_app, length_fmap. simpl. lia.
  - intros o'. wsimpl.
    rewrite insert_app_r_alt by lia.
    replace (length dpre + length done - length dpre) with (length (Obj <$> done))
      by (rewrite length_fmap; lia).
    rewrite insert_app_r_alt, Nat.sub_diag by done. simpl.
    replace (S (length done)) with (length (done ++ [v]))
      by (rewrite length_app; simpl; lia).
    replace (spre ++ (Obj <$> done ++ v :: rest) ++ spost)
      with (spre ++ (Obj <$> (done ++ [v]) ++ rest) ++ spost)
      by (by rewrite <-(assoc_L (++) done)).
    replace (dpre ++ (Obj <$> done) ++ Obj v :: replicate (length rest) Raw ++ dpost)
      with (dpre ++ (Obj <$> done ++ [v]) ++ replicate (length rest) Raw ++ dpost)
      by (by rewrite fmap_app, <-app_assoc).
    apply IH.
    + intros o''. specialize (HQ o'').
      rewrite <-(assoc_L (++) done). simpl.
      replace ((t ++ [CopyConstruct (NewData, length dpre + length done)
                        (Data, length spre + length done)]) ++
               copy_events (length spre) (length dpre) (length (done ++ [v]))
                 (length rest))
        with (t ++ copy_events (length spre) (length dpre) (length done)
                     (length (v :: rest))); [done|].
      rewrite <-app_assoc. f_equal. unfold copy_events. simpl.
      rewrite length_app. simpl.
      by replace (length done + 1) with (S (length done)) by lia.
    + intros o'' t'. specialize (HE o'' t').
      rewrite <-(assoc_L (++) done). simpl.
      rewrite length_app. simpl.
      by replace (length done + 1 + length rest)
        with (length done + S (length rest)) by lia.
  - intros o'. wsimpl.
    replace (length dpre + 0) with (length dpre) by lia.
    eapply wp_destroy_n; [done|]. wsimpl.
    specialize (HE o'
      ((t ++ [Throw]) ++ destroy_events NewData (length dpre) (length done))).
    simpl in HE. rewrite replicate_add in HE.
    by rewrite <-app_assoc in HE.
Qed.

(** The loop of [uninitialized_move_n]: the source objects are left
    moved-from.  It can only throw when the move constructor of [T] can; the
    destination range is then raw again but the objects already moved stay
    moved-from. *)
Lemma wp_move_loop spre spost dpre dpost rest done n tv o t f Q E :
  (∀ o', Q tt
     (MkWorld
        (MkVector (spre ++ (Obj <$> (moved_from <$> done ++ rest)) ++ spost) n)
        (Some (dpre ++ (Obj <$> done ++ rest) ++ dpost)) tv o'
        (t ++ move_events (length spre) (length dpre) (length done) (length rest))
        f)) →
  (is_nothrow_move_constructible = false →
   ∀ o' t' moved kept, rest = moved ++ kept →
     E (MkWorld
          (MkVector
             (spre ++ (Obj <$> (moved_from <$> done ++ moved)) ++
              (Obj <$> kept) ++ spost) n)
          (Some (dpre ++ replicate (length done + length rest) Raw ++ dpost))
          tv o' t' f)) →
  wp (uninitialized_loop
        (λ i, move_construct_at (ptr_add (NewData, length dpre) i)
                (ptr_add (Data, length spre) i))
        (NewData, length dpre) (length done) (length rest)) Q E
    (MkWorld
       (MkVector
          (spre ++ (Obj <$> (moved_from <$> done)) ++ (Obj <$> rest) ++ spost) n)
       (Some (dpre ++ (Obj <$> done) ++ replicate (length rest) Raw ++ dpost))
       tv o t f).
Proof.
  revert done o t. induction rest as [|v rest IH]; intros done o t HQ HE.
  { apply wp_ret. specialize (HQ o). unfold move_events in HQ. simpl in *.
    by rewrite !app_nil_r in *. }
  simpl uninitialized_loop. apply wp_bind, wp_catch_rethrow.
  eapply wp_move_construct_at with (v := v); wsimpl; [done|done| |done| | |].
  - rewrite lookup_app_r by lia.
    replace (length spre + length done - length spre)
      with (length (Obj <$> (moved_from <$> done)))
      by (rewrite !length_fmap; lia).
    simpl. by rewrite list_lookup_middle.
  - rewrite !length_app, length_fmap. simpl. lia.
  - intros o'. wsimpl.
    rewrite !(insert_app_r_alt _ _ (_ + _)) by lia.
    replace (length dpre + length done - length dpre) with (length (Obj <$> done))
      by (rewrite length_fmap; lia).
    replace (length spre + length done - length spre)
      with (length (Obj <$> (moved_from <$> done)))
      by (rewrite !length_fmap; lia).
    rewrite fmap_cons. cbn [length replicate].
    rewrite <-!app_comm_cons, !insert_middle.
    replace (S (length done)) with (length (done ++ [v]))
      by (rewrite length_app; simpl; lia).
    replace (spre ++ (Obj <$> (moved_from <$> done)) ++
             Obj (moved_from v) :: (Obj <$> rest) ++ spost)
      with (spre ++ (Obj <$> (moved_from <$> done ++ [v])) ++
            (Obj <$> rest) ++ spost)
      by (by rewrite !fmap_app, <-app_assoc).
    replace (dpre ++ (Obj <$> done) ++ Obj v :: replicate (length rest) Raw ++ dpost)
      with (dpre ++ (Obj <$> done ++ [v]) ++ replicate (length rest) Raw ++ dpost)
      by (by rewrite fmap_app, <-app_assoc).
    apply IH.
    + intros o''. specialize (HQ o'').
      rewrite <-(assoc_L (++) done). simpl.
      replace ((t ++ [MoveConstruct (NewData, length dpre + length done)
                        (Data, length spre + length done)]) ++
               move_events (length spre) (length dpre) (length (done ++ [v]))
                 (length rest))
        with (t ++ move_events (length spre) (length dpre) (length done)
                     (length (v :: rest))); [done|].
      rewrite <-app_assoc. f_equal. unfold move_events. simpl.
      rewrite length_app. simpl.
      by replace (length done + 1) with (S (length done)) by lia.
    + intros Hthrows o'' t' moved kept ->.
      specialize (HE Hthrows o'' t' (v :: moved) kept eq_refl).
      rewrite <-(assoc_L (++) done). simpl.
      rewrite length_app. simpl.
      by replace (length done + 1 + length (moved ++ kept))
        with (length done + S (length (moved ++ kept))) by lia.
  - intros Hthrows o'. wsimpl.
    replace (length dpre + 0) with (length dpre) by lia.
    eapply wp_destroy_n; [done|]. wsimpl.
    specialize (HE Hthrows o'
      ((t ++ [Throw]) ++ destroy_events NewData (length dpre) (length done))
      [] (v :: rest) eq_refl).
    simpl in HE. rewrite replicate_add in HE.
    by rewrite app_nil_r, <-app_assoc in HE.
Qed.

(** *** [ShiftDataToNewMemory] *)

Lemma interrupted_length vs vs' : interrupted vs vs' → length vs' = length vs.
Proof.
  unfold interrupted. destruct transfers_by_move; [|by intros ->].
  intros (_ & moved & kept & -> & ->). by rewrite !length_app, length_fmap.
Qed.

(** A type that can be copied or whose move cannot throw is never left
    half moved. *)
Lemma interrupted_unchanged vs vs' :
  is_nothrow_move_constructible || is_copy_constructible = true →
  interrupted vs vs' → vs' = vs.
Proof.
  unfold interrupted, transfers_by_move.
  destruct is_nothrow_move_constructible, is_copy_constructible; simpl;
    try done; by intros _ [? _].
Qed.

Lemma wp_ShiftDataToNewMemory spre vs spost dpre dpost n tv o t f Q E :
  (∀ o', Q tt
     (MkWorld (MkVector (spre ++ (Obj <$> transferred vs) ++ spost) n)
        (Some (dpre ++ (Obj <$> vs) ++ dpost)) tv o'
        (t ++ transfer_events (length spre) (length dpre) (length vs)) f)) →
  (∀ o' t' vs', interrupted vs vs' →
     E (MkWorld (MkVector (spre ++ (Obj <$> vs') ++ spost) n)
          (Some (dpre ++ replicate (length vs) Raw ++ dpost)) tv o' t' f)) →
  wp (ShiftDataToNewMemory (Data, length spre) (length vs) (NewData, length dpre))
    Q E
    (MkWorld (MkVector (spre ++ (Obj <$> vs) ++ spost) n)
       (Some (dpre ++ replicate (length vs) Raw ++ dpost)) tv o t f).
Proof.
  unfold ShiftDataToNewMemory, transferred, transfer_events, interrupted.
  fold transfers_by_move. destruct transfers_by_move; intros HQ HE.
  - apply (wp_move_loop spre spost dpre dpost vs []); [done|].
    intros Hthrows o' t' moved kept ->. simpl.
    rewrite (assoc_L (++) (Obj <$> _) (Obj <$> _)), <-fmap_app.
    apply HE. eauto.
  - apply (wp_copy_loop spre spost dpre dpost vs []); [done|].
    intros o' t'. by apply HE.
Qed.

(** *** The local buffer *)

Lemma wp_deallocate b Q E w :
  new_data w = Some b →
  Q tt (MkWorld (this w) None (temp_val w) (oracle w) (trace w)
          (freed w ++ [b])) →
  wp deallocate Q E w.
Proof. intros Hb HQ. unfold wp, deallocate. by rewrite Hb. Qed.

Lemma wp_Swap_new_data b Q E w :
  new_data w = Some b →
  Q tt (MkWorld (MkVector b (size_ (this w))) (Some (data_ (this w)))
          (temp_val w) (oracle w) (trace w) (freed w)) →
  wp Swap_new_data Q E w.
Proof. intros Hb HQ. unfold wp, Swap_new_data. by rewrite Hb. Qed.

Lemma wp_with_new_data {A} capacity (body : M A) Q E th nd tv o t f :
  (∀ o',
     wp body (λ a w', wp deallocate (λ _ w'', Q a w'') E w')
       (λ w', wp deallocate (λ _ w'', E w'') E w')
       (MkWorld th (Some (replicate capacity Raw)) tv o'
          (t ++ [Allocate capacity]) f)) →
  (∀ o', E (MkWorld th nd tv o' (t ++ [Throw]) f)) →
  wp (with_new_data capacity body) Q E (MkWorld th nd tv o t f).
Proof.
  intros Hbody HE. unfold with_new_data, allocate.
  apply wp_bind, wp_bind, wp_may_throw; [|done]. intros o'.
  apply wp_modify; [done|]. by apply wp_at_scope_exit.
Qed.

Lemma wp_elim {A} (m : M A) Q E w :
  wp m Q E w →
  match m w with
  | Ret a w' => Q a w'
  | Exc w' => false ∈ oracle w ∧ E w'
  | Fault _ => False
  end.
Proof.
  unfold wp. destruct (m w); [by intros [_ ?]|by intros (_ & ? & ?)|done].
Qed.

Lemma wp_total {A} (m : M A) Q w :
  wp m Q (λ _, True) w →
  match m w with
  | Ret a w' => Q a w'
  | Exc _ => false ∈ oracle w
  | Fault _ => False
  end.
Proof.
  unfold wp. destruct (m w); [by intros [_ ?]|by intros (_ & ? & ?)|done].
Qed.


(** The two loop lemmas with the indices as the code computes them. *)
Lemma wp_destroy_n_at r i n pre vs post Q E w :
  i = length pre → n = length vs →
  buffer r w = Some (pre ++ (Obj <$> vs) ++ post) →
  Q tt (logged_all (destroy_events r i n)
          (set_buffer r (pre ++ replicate n Raw ++ post) w)) →
  wp (destroy_n (r, i) n) Q E w.
Proof. intros -> ->. apply wp_destroy_n. Qed.

Lemma wp_ShiftDataToNewMemory_at si c di spre vs spost dpre dpost
    n tv o t f Q E :
  si = length spre → c = length vs → di = length dpre →
  (∀ o', Q tt
     (MkWorld (MkVector (spre ++ (Obj <$> transferred vs) ++ spost) n)
        (Some (dpre ++ (Obj <$> vs) ++ dpost)) tv o'
        (t ++ transfer_events si di c) f)) →
  (∀ o' t' vs', interrupted vs vs' →
     E (MkWorld (MkVector (spre ++ (Obj <$> vs') ++ spost) n)
          (Some (dpre ++ replicate c Raw ++ dpost)) tv o' t' f)) →
  wp (ShiftDataToNewMemory (Data, si) c (NewData, di)) Q E
    (MkWorld (MkVector (spre ++ (Obj <$> vs) ++ spost) n)
       (Some (dpre ++ replicate c Raw ++ dpost)) tv o t f).
Proof. intros -> -> ->. apply wp_ShiftDataToNewMemory. Qed.

Lemma length_transferred vs : length (transferred vs) = length vs.
Proof.
  unfold transferred. destruct transfers_by_move; by rewrite ?length_fmap.
Qed.

(** ** [Reserve] *)

Lemma Part000_Reserve_same : @Part000.Reserve T _ = Reserve.
Proof. reflexivity. Qed.

(** The three ways out of [Reserve]: nothing to do or a completed
    reallocation; a failed allocation; a failed transfer. *)
Lemma wp_Reserve new_capacity xs k nd tv o t f Q E :
  (new_capacity ≤ length xs + k →
   Q tt (MkWorld (mk_vector xs k) nd tv o t f)) →
  (length xs + k < new_capacity → ∀ o',
   Q tt (MkWorld (mk_vector xs (new_capacity - length xs)) None tv o'
           (t ++ Allocate new_capacity
              :: transfer_events 0 0 (length xs)
              ++ destroy_events Data 0 (length xs))
           (f ++ [replicate (length xs + k) Raw]))) →
  (length xs + k < new_capacity → ∀ o',
   E (MkWorld (mk_vector xs k) nd tv o' (t ++ [Throw]) f)) →
  (length xs + k < new_capacity → ∀ o' t' xs', interrupted xs xs' →
   E (MkWorld (mk_vector xs' k) None tv o' t'
        (f ++ [replicate new_capacity Raw]))) →
  wp (Reserve new_capacity) Q E (MkWorld (mk_vector xs k) nd tv o t f).
Proof.
  intros Hnoop HQ Halloc Htransfer. unfold Reserve.
  apply wp_bind, wp_Capacity. simpl.
  rewrite length_app, length_fmap, length_replicate.
  destruct (decide (new_capacity ≤ length xs + k)) as [?|Hgt];
    [by apply wp_ret, Hnoop|].
  assert (length xs + k < new_capacity) as Hlt by lia.
  apply wp_with_new_data; [|by apply Halloc]. intros o1.
  unfold mk_vector in *.
  apply wp_bind, wp_Size. wsimpl.
  replace (replicate new_capacity Raw)
    with ([] ++ replicate (length xs) (@Raw T)
             ++ replicate (new_capacity - length xs) Raw)
    by (simpl; rewrite <-replicate_add; f_equal; lia).
  apply wp_bind.
  apply (wp_ShiftDataToNewMemory_at _ _ _ [] xs (replicate k Raw) [] _);
    [done..| |].
  - intros o2. simpl app.
    apply wp_bind.
    eapply (wp_destroy_n_at Data _ _ [] (transferred xs) (replicate k Raw));
      [done|by rewrite length_transferred|done|].
    wsimpl. simpl app.
    eapply wp_Swap_new_data; [done|]. wsimpl.
    eapply wp_deallocate; [done|]. wsimpl.
    specialize (HQ Hlt o2).
    rewrite <-replicate_add, <-!app_assoc. done.
  - intros o2 t' xs' Hxs'. simpl app.
    eapply wp_deallocate; [done|]. wsimpl.
    specialize (Htransfer Hlt o2 t' xs' Hxs').
    rewrite (interrupted_length _ _ Hxs') in Htransfer.
    rewrite <-replicate_add.
    by replace (length xs + (new_capacity - length xs)) with new_capacity
      by lia.
Qed.

(** C6.  [Reserve(k)] never has undefined behaviour and throws only if an
    allocation or a construction fails.  When it returns the capacity is at
    least [k] and at least what it was, the size and the elements are what
    they were, and for [k] within the old capacity nothing has changed at
    all. *)
Theorem Reserve_capacity_is_monotonic xs k new_capacity w :
  this w = mk_vector xs k →
  match Reserve new_capacity w with
  | Ret _ w' =>
      new_capacity ≤ length (data_ (this w'))
      ∧ length (data_ (this w)) ≤ length (data_ (this w'))
      ∧ (new_capacity ≤ length (data_ (this w)) → w' = w)
      ∧ size_ (this w') = size_ (this w)
      ∧ ∃ k', this w' = mk_vector xs k'
  | Exc _ => false ∈ oracle w
  | Fault _ => False
  end.
Proof.
  intros Hthis. destruct w as [th nd tv o t f]. simpl in Hthis. subst th.
  apply wp_total, wp_Reserve; simpl;
    rewrite ?length_app, ?length_fmap, ?length_replicate; try done.
  - intros ?. split_and!; eauto with lia.
  - intros ? o'. split_and!; eauto with lia.
Qed.

(** ** Insertion *)

(** *** [std::move_backward] inside the vector's buffer

    The range [ys] moves one slot towards the tail, over the object [z]
    behind it; the first slot of the range keeps a moved-from object. *)

Lemma vacated_snoc ys y z : vacated (ys ++ [y]) z = vacated ys (moved_from y).
Proof. by destruct ys. Qed.

Lemma wp_move_backward_loop_exact ys :
  ∀ last d_last c L z R n nd tv o t f Q E,
  last = length L + length ys → d_last = last + 1 → c = length ys →
  (∀ o', Q tt
     (MkWorld (MkVector (L ++ Obj (vacated ys z) :: (Obj <$> ys) ++ R) n)
        nd tv o' (t ++ backward_events (length L) (length ys)) f)) →
  (is_nothrow_move_assignable = false →
   ∀ mid o' t', length mid = S (length ys) →
     E (MkWorld (MkVector (L ++ mid ++ R) n) nd tv o' t' f)) →
  wp (move_backward_loop (Data, last) (Data, d_last) c) Q E
    (MkWorld (MkVector (L ++ (Obj <$> ys) ++ Obj z :: R) n) nd tv o t f).
Proof.
  induction ys as [|y ys IH] using rev_ind;
    intros last d_last c L z R n nd tv o t f Q E -> -> -> HQ HE.
  { apply wp_ret. specialize (HQ o). unfold backward_events in HQ.
    simpl in *. by rewrite app_nil_r in HQ. }
  rewrite length_app. simpl length.
  replace (length ys + 1) with (S (length ys)) by lia.
  simpl move_backward_loop. unfold ptr_sub. simpl fst. simpl snd.
  rewrite fmap_app, <-app_assoc. simpl.
  apply wp_bind.
  eapply wp_move_assign_same with (v := y) (u := z); wsimpl; [done| | | |].
  - apply lookup_app2. rewrite length_fmap. lia.
  - apply lookup_app2_next. rewrite length_fmap. lia.
  - intros o'. wsimpl.
    rewrite (insert_app2 _ _ _ _ (Obj (moved_from y)))
      by (rewrite length_fmap; lia).
    rewrite (insert_app2_next _ _ _ _ _ (Obj y)) by (rewrite length_fmap; lia).
    eapply IH; [lia|lia|done| |].
    2:{ intros Hthrows mid o'' t' Hmid.
        specialize (HE Hthrows (mid ++ [Obj y]) o'' t').
        rewrite <-app_assoc in HE. apply HE. len. }
    intros o''. specialize (HQ o'').
    rewrite vacated_snoc, fmap_app, <-app_assoc in HQ. simpl in HQ.
    replace ((t ++ [MoveAssign (Data, length L + S (length ys) + 1 - 1)
                      (Data, length L + S (length ys) - 1)]) ++
             backward_events (length L) (length ys))
      with (t ++ backward_events (length L) (length (ys ++ [y]))); [done|].
    rewrite <-app_assoc. f_equal. unfold backward_events.
    rewrite length_app. simpl. rewrite seq_app, reverse_app. simpl.
    do 3 f_equal; lia.
  - intros Hthrows o'.
    specialize (HE Hthrows ((Obj <$> ys) ++ [Obj y; Obj z]) o' (t ++ [Throw])).
    rewrite <-!app_assoc in HE. apply HE. len.
Qed.

Lemma wp_move_backward_loop ys : ∀ last d_last c L z R n nd tv o t f Q E,
  last = length L + length ys → d_last = last + 1 → c = length ys →
  (∀ o', Q tt
     (MkWorld (MkVector (L ++ Obj (vacated ys z) :: (Obj <$> ys) ++ R) n)
        nd tv o' (t ++ backward_events (length L) (length ys)) f)) →
  (is_nothrow_move_assignable = false →
   ∀ d' o' t', E (MkWorld (MkVector d' n) nd tv o' t' f)) →
  wp (move_backward_loop (Data, last) (Data, d_last) c) Q E
    (MkWorld (MkVector (L ++ (Obj <$> ys) ++ Obj z :: R) n) nd tv o t f).
Proof.
  intros last d_last c L z R n nd tv o t f Q E ? ? ? HQ HE.
  apply wp_move_backward_loop_exact; try done.
  intros Hthrows mid o' t' _. by apply HE.
Qed.

(** *** The local [temp_val] *)

Lemma wp_with_temp_val {A} v (body : M A) Q E th nd tv o t f :
  (∀ o',
     wp body
       (λ a w', ∃ u, temp_val w' = Some [Obj u]
          ∧ Q a (MkWorld (this w') (new_data w') None (oracle w')
                   (trace w' ++ [Destroy (TempVal, 0)]) (freed w')))
       (λ w', ∃ u, temp_val w' = Some [Obj u]
          ∧ E (MkWorld (this w') (new_data w') None (oracle w')
                 (trace w' ++ [Destroy (TempVal, 0)]) (freed w')))
       (MkWorld th nd (Some [Obj v]) o' (t ++ [Construct (TempVal, 0)]) f)) →
  (∀ o', E (MkWorld th nd tv o' (t ++ [Throw]) f)) →
  wp (with_temp_val v body) Q E (MkWorld th nd tv o t f).
Proof.
  intros Hbody HE. unfold with_temp_val.
  apply wp_bind, wp_may_throw; [|done]. intros o'.
  apply wp_bind, wp_modify; [done|]. wsimpl.
  apply wp_at_scope_exit.
  eapply wp_mono; [apply Hbody|..].
  - intros a w' (u & Hu & HQ). apply wp_bind.
    eapply wp_destroy_at; [done..|]. by apply wp_modify.
  - intros w' (u & Hu & HE'). apply wp_bind.
    eapply wp_destroy_at; [done..|]. by apply wp_modify.
Qed.

(** *** [Emplace] with room to spare *)

(** At the end: one construction in the first free slot; if it throws,
    nothing has changed. *)
Lemma wp_Emplace_at_end_exact xs k v nd tv o t f Q E :
  representable (length xs + 1) →
  (∀ o', Q (Data, length xs)
     (MkWorld (mk_vector (xs ++ [v]) k) nd tv o'
        (t ++ [Construct (Data, length xs)]) f)) →
  (∀ o', E (MkWorld (mk_vector xs (S k)) nd tv o' (t ++ [Throw]) f)) →
  wp (Emplace (Data, length xs) v) Q E
    (MkWorld (mk_vector xs (S k)) nd tv o t f).
Proof.
  intros Hrep HQ HE. unfold Emplace. unfold mk_vector at 1.
  apply wp_bind, wp_ptr_diff; [done|simpl; lia|]. simpl.
  rewrite Nat.sub_0_r.
  apply wp_bind, wp_Size. wsimpl.
  apply wp_bind, wp_Capacity. wsimpl.
  rewrite decide_False by len.
  apply wp_bind, wp_bind, wp_end. wsimpl.
  rewrite decide_True by done.
  eapply wp_construct_at; wsimpl; [done|len| |apply HE].
  intros o'. wsimpl.
  rewrite (insert_at (Obj <$> xs)) by len.
  apply wp_bind, wp_Size. wsimpl.
  apply wp_bind, wp_set_size. wsimpl. apply wp_ret.
  rewrite size_add_fits by done.
  specialize (HQ o'). unfold mk_vector in HQ.
  rewrite fmap_app, <-app_assoc, length_app in HQ.
  by replace (0 + length xs) with (length xs) by lia.
Qed.

Lemma wp_Emplace_at_end xs k v nd tv o t f Q E :
  representable (length xs + 1) →
  (∀ o', Q (Data, length xs)
     (MkWorld (mk_vector (xs ++ [v]) k) nd tv o'
        (t ++ [Construct (Data, length xs)]) f)) →
  (∀ w', E w') →
  wp (Emplace (Data, length xs) v) Q E
    (MkWorld (mk_vector xs (S k)) nd tv o t f).
Proof. intros ? ? HE. by apply wp_Emplace_at_end_exact. Qed.

(** Before the element [yl] at the back, [ys] being the elements between the
    position and the last: a temporary, the last element moved into the free
    slot, the range moved back to front, the temporary moved in. *)
Lemma wp_Emplace_in_the_middle_exact xs ys yl k v nd tv o t f Q E :
  representable (length xs + length ys + 2) →
  (∀ o', Q (Data, length xs)
     (MkWorld (mk_vector (xs ++ v :: ys ++ [yl]) k) nd None o'
        (t ++ insertion_events (length xs) (length xs + length ys + 1)) f)) →
  (∀ tv' o' t',
     E (MkWorld (mk_vector (xs ++ ys ++ [yl]) (S k)) nd tv' o' t' f)) →
  (is_nothrow_move_assignable = false →
   ∀ mid tv' o' t', length mid = length ys + 1 →
     E (MkWorld
          (MkVector ((Obj <$> xs) ++ mid ++ Obj yl :: replicate k Raw)
             (length xs + (length ys + 1)))
          nd tv' o' t' f)) →
  wp (Emplace (Data, length xs) v) Q E
    (MkWorld (mk_vector (xs ++ ys ++ [yl]) (S k)) nd tv o t f).
Proof.
  intros Hrep HQ Hsame HE. unfold Emplace. unfold mk_vector at 1.
  assert (∀ tv' o' t',
            E (MkWorld
                 (MkVector
                    ((Obj <$> xs) ++ (Obj <$> ys) ++ Obj yl :: Raw
                       :: replicate k Raw)
                    (length xs + (length ys + 1)))
                 nd tv' o' t' f)) as Hsame'.
  { intros tv' o' t'. specialize (Hsame tv' o' t'). unfold mk_vector in Hsame.
    conclude Hsame. rewrite !fmap_app, <-!app_assoc, !length_app. done. }
  assert (representable (length xs + length ys + 1))
    by (eapply representable_le; [|done]; lia).
  apply wp_bind, wp_ptr_diff; [done|simpl; lia|]. simpl.
  rewrite Nat.sub_0_r.
  apply wp_bind, wp_Size. wsimpl.
  apply wp_bind, wp_Capacity. wsimpl.
  rewrite decide_False by len.
  apply wp_bind, wp_bind, wp_end. wsimpl.
  rewrite decide_False by (intros [=]; revert H1; len).
  rewrite !length_app. simpl length.
  rewrite size_sub_fits by (lia || rep).
  rewrite !fmap_app, <-!app_assoc. simpl.
  apply wp_with_temp_val; [|intros o'; apply Hsame']. intros o1.
  (* the last element goes to the free slot *)
  apply wp_bind.
  eapply wp_move_construct_at_same with (v := yl); wsimpl; [done| | | |].
  { apply lookup_app2. len. }
  { len. }
  2:{ intros _ o'. eexists. split; [done|apply Hsame']. }
  intros o2. wsimpl.
  rewrite (insert_app2 _ _ _ _ (Obj (moved_from yl))) by len.
  rewrite (insert_app2_next _ _ _ _ _ (Obj yl)) by len.
  (* the range in between moves back to front *)
  apply wp_bind. unfold std_move_backward.
  apply wp_bind, wp_ptr_diff; [done|simpl; lia|]. simpl.
  eapply (wp_move_backward_loop_exact ys); [len|lia|lia| |].
  2:{ intros Hthrows mid o' t' Hmid. eexists. split; [done|].
      apply HE; [done|lia]. }
  intros o3.
  (* the temporary goes to the position *)
  eapply wp_move_assign with (v := v); wsimpl; [done|done|done|done| | |].
  { apply lookup_at. len. }
  2:{ intros Hthrows o'. eexists. split; [done|]. wsimpl.
      apply (HE Hthrows
               (Obj (vacated ys (moved_from yl)) :: (Obj <$> ys))).
      len. }
  intros o4. wsimpl. eexists. split; [done|].
  rewrite (insert_at (Obj <$> xs)) by len.
  apply wp_bind, wp_Size. wsimpl.
  apply wp_bind, wp_set_size. wsimpl. apply wp_ret.
  rewrite size_add_fits by rep.
  specialize (HQ o4). unfold mk_vector, insertion_events in HQ.
  conclude HQ. f_equal; [f_equal|].
  - rewrite fmap_app, fmap_cons, fmap_app, <-!app_assoc. simpl.
    by rewrite <-app_assoc.
  - len.
  - rewrite <-!app_assoc. simpl. rewrite length_fmap.
    replace (length xs + length ys + 1 - 1 - length xs) with (length ys) by lia.
    replace (length xs + (length ys + 1)) with (length xs + length ys + 1)
      by lia.
    done.
Qed.

Lemma wp_Emplace_in_the_middle xs ys yl k v nd tv o t f Q E :
  representable (length xs + length ys + 2) →
  (∀ o', Q (Data, length xs)
     (MkWorld (mk_vector (xs ++ v :: ys ++ [yl]) k) nd None o'
        (t ++ insertion_events (length xs) (length xs + length ys + 1)) f)) →
  (∀ w', E w') →
  wp (Emplace (Data, length xs) v) Q E
    (MkWorld (mk_vector (xs ++ ys ++ [yl]) (S k)) nd tv o t f).
Proof.
  intros ? ? HE. by apply wp_Emplace_in_the_middle_exact.
Qed.

(** *** [Emplace] into new storage *)

Lemma interrupted_prefix xs1 xs1' xs2 :
  interrupted xs1 xs1' → interrupted (xs1 ++ xs2) (xs1' ++ xs2).
Proof.
  unfold interrupted. destruct transfers_by_move; [|by intros ->].
  intros (? & moved & kept & -> & ->). split; [done|].
  exists moved, (kept ++ xs2). by rewrite <-!app_assoc.
Qed.

Lemma interrupted_suffix xs1 xs2 xs2' :
  interrupted xs2 xs2' → interrupted (xs1 ++ xs2) (transferred xs1 ++ xs2').
Proof.
  unfold interrupted, transferred. destruct transfers_by_move; [|by intros ->].
  intros (? & moved & kept & -> & ->). split; [done|].
  exists (xs1 ++ moved), kept. by rewrite fmap_app, <-!app_assoc.
Qed.

Lemma wp_Emplace_reallocating xs1 xs2 v nd tv o t f Q E :
  let n := length xs1 + length xs2 in
  representable (n * 2) → representable (n + 1) →
  (∀ o', Q (Data, length xs1)
     (MkWorld (mk_vector (xs1 ++ v :: xs2) (grown n - n - 1)) None tv o'
        (t ++ reallocation_events (length xs1) n) (f ++ [replicate n Raw]))) →
  (∀ o', E (MkWorld (mk_vector (xs1 ++ xs2) 0) nd tv o' (t ++ [Throw]) f)) →
  (∀ o' t' xs', xs' = xs1 ++ xs2 ∨ interrupted (xs1 ++ xs2) xs' →
     E (MkWorld (mk_vector xs' 0) None tv o' t'
          (f ++ [replicate (grown n) Raw]))) →
  wp (Emplace (Data, length xs1) v) Q E
    (MkWorld (mk_vector (xs1 ++ xs2) 0) nd tv o t f).
Proof.
  intros n Hrep2 Hrep1 HQ Halloc HE. unfold Emplace, mk_vector.
  assert (n < grown n) as Hgrown
    by (unfold grown; destruct (decide (n = 0)); lia).
  rewrite fmap_app, length_app. fold n. simpl replicate. rewrite !app_nil_r.
  apply wp_bind, wp_ptr_diff; [done|simpl; lia|]. simpl.
  rewrite Nat.sub_0_r.
  apply wp_bind, wp_Size. wsimpl.
  apply wp_bind, wp_Capacity. wsimpl.
  rewrite decide_True by (subst n; len).
  replace (if decide (n = 0) then 1 else size_mul n 2) with (grown n)
    by (unfold grown; destruct (decide (n = 0)); [done|];
        by rewrite size_mul_fits).
  apply wp_bind.
  apply wp_with_new_data.
  2:{ intros o'. specialize (Halloc o'). unfold mk_vector in Halloc.
      rewrite fmap_app, length_app in Halloc. simpl in Halloc.
      by rewrite !app_nil_r in Halloc. }
  intros o1.
  (* the new element *)
  apply wp_bind.
  eapply wp_construct_at; wsimpl; [done|len| |].
  2:{ intros o'. eapply wp_deallocate; [done|]. wsimpl.
      specialize (HE o' ((t ++ [Allocate (grown n)]) ++ [Throw]) (xs1 ++ xs2)
                    (or_introl eq_refl)).
      unfold mk_vector in HE. rewrite fmap_app, length_app in HE.
      simpl in HE. by rewrite !app_nil_r in HE. }
  intros o2. wsimpl.
  replace (<[length xs1:=Obj v]> (replicate (grown n) Raw))
    with ([] ++ replicate (length xs1) Raw
             ++ Obj v :: replicate (grown n - length xs1 - 1) (@Raw T)).
  2:{ replace (grown n) with (length xs1 + S (grown n - length xs1 - 1)) at 2
        by (subst n; lia).
      rewrite replicate_add. simpl.
      rewrite (insert_at (replicate (length xs1) Raw)) by len. done. }
  (* the elements before the position *)
  apply wp_bind, wp_catch_rethrow.
  apply (wp_ShiftDataToNewMemory_at 0 _ 0 []); [done| done |done| |].
  2:{ intros o' t' xs1' Hxs1'. wsimpl. simpl app.
      eapply (wp_destroy_n_at NewData _ 1 (replicate (length xs1) Raw) [v]);
        [len|done|done|]. wsimpl.
      eapply wp_deallocate; [done|]. wsimpl.
      specialize (HE o' (t' ++ destroy_events NewData (length xs1) 1)
                    (xs1' ++ xs2) (or_intror (interrupted_prefix _ _ _ Hxs1'))).
      conclude HE. unfold mk_vector.
      rewrite fmap_app, length_app, (interrupted_length _ _ Hxs1').
      simpl. rewrite !app_nil_r. do 4 f_equal.
      replace (grown n) with (length xs1 + (1 + (grown n - length xs1 - 1)))
        at 1 by (subst n; lia).
      by rewrite !replicate_add. }
  intros o3. simpl app.
  (* the elements behind it *)
  rewrite size_sub_fits by (subst n; lia || rep).
  replace (n - length xs1) with (length xs2) by (subst n; lia).
  replace (replicate (grown n - length xs1 - 1) (@Raw T))
    with (replicate (length xs2) (@Raw T) ++ replicate (grown n - n - 1) Raw)
    by (rewrite <-replicate_add; f_equal; subst n; lia).
  apply wp_bind, wp_catch_rethrow.
  replace ((Obj <$> transferred xs1) ++ (Obj <$> xs2))
    with ((Obj <$> transferred xs1) ++ (Obj <$> xs2) ++ [])
    by (by rewrite app_nil_r).
  replace ((Obj <$> xs1) ++
           Obj v :: replicate (length xs2) Raw ++ replicate (grown n - n - 1) Raw)
    with (((Obj <$> xs1) ++ [Obj v]) ++
          replicate (length xs2) Raw ++ replicate (grown n - n - 1) Raw)
    by (by rewrite <-app_assoc).
  apply (wp_ShiftDataToNewMemory_at _ _ _ (Obj <$> transferred xs1) xs2 []
           ((Obj <$> xs1) ++ [Obj v]));
    [rewrite length_fmap, length_transferred; lia|done|len| |].
  2:{ intros o' t' xs2' Hxs2'. wsimpl.
      rewrite size_add_fits by rep.
      eapply (wp_destroy_n_at NewData _ _ [] (xs1 ++ [v]));
        [done|len| |].
      { wsimpl. by rewrite fmap_app, <-!app_assoc. }
      wsimpl. eapply wp_deallocate; [done|]. wsimpl.
      specialize (HE o' (t' ++ destroy_events NewData 0 (length xs1 + 1))
                    (transferred xs1 ++ xs2')
                    (or_intror (interrupted_suffix _ _ _ Hxs2'))).
      conclude HE. unfold mk_vector.
      rewrite fmap_app, length_app, (interrupted_length _ _ Hxs2'),
        length_transferred.
      simpl. rewrite !app_nil_r. do 4 f_equal.
      rewrite <-!replicate_add. f_equal. subst n. lia. }
  intros o4. wsimpl.
  (* the old elements go, the buffers change hands *)
  apply wp_bind.
  eapply (wp_destroy_n_at Data _ _ [] (transferred xs1 ++ transferred xs2) []);
    [done|subst n; rewrite length_app, !length_transferred; lia| |].
  { wsimpl. by rewrite fmap_app, <-!app_assoc. }
  wsimpl.
  eapply wp_Swap_new_data; [done|]. wsimpl.
  eapply wp_deallocate; [done|]. wsimpl.
  apply wp_bind, wp_Size. wsimpl.
  apply wp_bind, wp_set_size. wsimpl. apply wp_ret.
  rewrite size_add_fits by done.
  specialize (HQ o4). conclude HQ.
  unfold mk_vector, reallocation_events. f_equal; [f_equal| |].
  - rewrite fmap_app, <-!app_assoc. done.
  - subst n. len.
  - rewrite <-!app_assoc. simpl.
    by replace (n - length xs1) with (length xs2) by (subst n; lia).
  - simpl. by rewrite app_nil_r.
Qed.

Lemma representable_1 : representable 1.
Proof. unfold representable, SIZE_MAX. lia. Qed.



(** ** Appending *)

Lemma wp_EmplaceBack xs k v nd tv o t f Q E :
  representable (length xs + k) →
  (k = 0 → representable (length xs * 2)) →
  (∀ k' nd' o' t' f', Q (Data, length xs)
     (MkWorld (mk_vector (xs ++ [v]) k') nd' tv o' t' f')) →
  (∀ w', E w') →
  wp (EmplaceBack v) Q E (MkWorld (mk_vector xs k) nd tv o t f).
Proof.
  intros Hcap Hdouble HQ HE. unfold EmplaceBack.
  apply wp_bind, wp_end. unfold mk_vector at 1. wsimpl. apply wp_bind.
  destruct k as [|k].
  - specialize (Hdouble eq_refl).
    rewrite <-(app_nil_r xs) at 2.
    eapply wp_mono;
      [apply (wp_Emplace_reallocating xs [] v nd tv o t f
                (λ it w', it = (Data, length xs)
                   ∧ ∃ k' nd' o' t' f', w' =
                       MkWorld (mk_vector (xs ++ [v]) k') nd' tv o' t' f')
                (λ _, True)); simpl; rewrite ?Nat.add_0_r; try done|..].
    + destruct (decide (length xs = 0)) as [->|Hnz];
        [apply representable_1|rep].
    + intros o'. split; [done|]. by eauto 10.
    + intros it w' (-> & k' & nd' & o' & t' & f' & ->). apply wp_ret, HQ.
    + done.
  - eapply wp_mono;
      [apply (wp_Emplace_at_end xs k v nd tv o t f
                (λ it w', it = (Data, length xs)
                   ∧ ∃ k' nd' o' t' f', w' =
                       MkWorld (mk_vector (xs ++ [v]) k') nd' tv o' t' f')
                (λ _, True)); [rep| |done]|..].
    + intros o'. split; [done|]. by eauto 10.
    + intros it w' (-> & k' & nd' & o' & t' & f' & ->). apply wp_ret, HQ.
    + done.
Qed.

Lemma wp_PushBack xs k v nd tv o t f Q E :
  representable (length xs + k) →
  (k = 0 → representable (length xs * 2)) →
  (∀ k' nd' o' t' f', Q tt
     (MkWorld (mk_vector (xs ++ [v]) k') nd' tv o' t' f')) →
  (∀ w', E w') →
  wp (PushBack v) Q E (MkWorld (mk_vector xs k) nd tv o t f).
Proof.
  intros Hcap Hdouble HQ HE. unfold PushBack.
  apply wp_bind, wp_EmplaceBack; [done..| |done].
  intros k' nd' o' t' f'. apply wp_ret, HQ.
Qed.

(** The constructor of the new element, in the free slot behind the elements
    of the vector. *)
Lemma wp_construct_from_in_place how value xs raws v sz nd tv o t f Q E :
  referred value xs = Some v →
  (∀ o' t', Q tt
     (MkWorld
        (MkVector ((Obj <$> read_from how value xs v) ++ Obj v :: raws) sz)
        nd tv o' t' f)) →
  (∀ o' t', E
     (MkWorld (MkVector ((Obj <$> xs) ++ Raw :: raws) sz) nd tv o' t' f)) →
  wp (Part000.construct_from how (Data, length xs) value) Q E
    (MkWorld (MkVector ((Obj <$> xs) ++ Raw :: raws) sz) nd tv o t f).
Proof.
  intros Hv HQ HE. destruct value as [u|i]; simpl in Hv.
  - injection Hv as ->. simpl.
    eapply wp_construct_at; wsimpl; [done|len| |intros o'; apply HE].
    intros o'. rewrite (insert_at (Obj <$> xs)) by len.
    destruct how; apply HQ.
  - assert (((Obj <$> xs) ++ Raw :: raws) !! i = Some (Obj v)) as Hi
      by (apply lookup_app_l_Some; by rewrite list_lookup_fmap, Hv).
    destruct how; simpl.
    + eapply (wp_copy_construct_at Data _ Data i); wsimpl;
        [done|done|done|len| |intros o'; apply HE].
      intros o'. rewrite (insert_at (Obj <$> xs)) by len. apply HQ.
    + eapply wp_move_construct_at_same; wsimpl;
        [done|done|len| |intros _ o'; apply HE].
      intros o'.
      rewrite insert_app_l
        by (rewrite length_fmap; by eapply lookup_lt_Some).
      rewrite <-list_fmap_insert.
      rewrite (insert_at (Obj <$> <[i := moved_from v]> xs)) by len.
      apply HQ.
Qed.

(** The same constructor, in slot [i] of the new buffer. *)
Lemma wp_construct_from_new_data how value zs bn i v sz tv o t f Q E :
  referred value zs = Some v → i < length bn →
  (∀ o' t', Q tt
     (MkWorld (MkVector (Obj <$> read_from how value zs v) sz)
        (Some (<[i := Obj v]> bn)) tv o' t' f)) →
  (∀ o' t', E (MkWorld (MkVector (Obj <$> zs) sz) (Some bn) tv o' t' f)) →
  wp (Part000.construct_from how (NewData, i) value) Q E
    (MkWorld (MkVector (Obj <$> zs) sz) (Some bn) tv o t f).
Proof.
  intros Hv Hi HQ HE. destruct value as [u|j]; simpl in Hv.
  - injection Hv as ->. simpl.
    eapply wp_construct_at; wsimpl; [done|done| |intros o'; apply HE].
    intros o'. destruct how; apply HQ.
  - assert ((Obj <$> zs) !! j = Some (Obj v)) as Hj
      by (by rewrite list_lookup_fmap, Hv).
    destruct how; simpl.
    + eapply (wp_copy_construct_at NewData _ Data j); wsimpl;
        [done|done|done|done| |intros o'; apply HE].
      intros o'. apply HQ.
    + eapply (wp_move_construct_at NewData _ Data j); wsimpl;
        [done|done|done|done|done| |intros _ o'; apply HE].
      intros o'. rewrite <-list_fmap_insert. apply HQ.
Qed.

(** The ways out of the [PushBack] of the earlier version, [v] being the
    value behind its argument when the new element is constructed: done, in
    a new buffer or in place; a failed allocation or a failed construction
    in place; a failed transfer; a failed construction of the new element
    behind the transferred ones. *)
Lemma wp_Part000_PushBack_exact how value xs k nd tv o t f Q E :
  representable (length xs + k) →
  (k = 0 → representable (length xs * 2)) →
  is_Some (referred value xs) →
  (k = 0 → ∀ v o' t', referred value (transferred xs) = Some v →
     Q tt
       (MkWorld (mk_vector (xs ++ [v]) (grown (length xs) - length xs - 1))
          None tv o' t' (f ++ [replicate (length xs) Raw]))) →
  (0 < k → ∀ v o' t', referred value xs = Some v →
     Q tt
       (MkWorld (mk_vector (read_from how value xs v ++ [v]) (k - 1))
          nd tv o' t' f)) →
  (∀ o' t', E (MkWorld (mk_vector xs k) nd tv o' t' f)) →
  (k = 0 → ∀ o' t' xs', xs' = xs ∨ interrupted xs xs' →
     E (MkWorld (mk_vector xs' 0) None tv o' t'
          (f ++ [replicate (grown (length xs)) Raw]))) →
  (k = 0 → ∀ o' t',
     E (MkWorld (mk_vector (transferred xs) 0) None tv o' t'
          (f ++ [(Obj <$> xs)
                   ++ replicate (grown (length xs) - length xs) Raw]))) →
  wp (Part000.PushBack how value) Q E (MkWorld (mk_vector xs k) nd tv o t f).
Proof.
  intros Hcap Hdouble [u Hu] Hfull Hroom Esame Etransfer Elate.
  unfold Part000.PushBack. unfold mk_vector at 1.
  apply wp_bind, wp_Size. wsimpl.
  apply wp_bind, wp_Capacity. wsimpl.
  destruct k as [|k].
  - (* [ReallocateAndPush] *)
    specialize (Hdouble eq_refl).
    rewrite decide_False by len.
    unfold Part000.ReallocateAndPush.
    apply wp_bind, wp_Size. wsimpl.
    set (n := length xs).
    assert (representable (n + 1)).
    { destruct (decide (n = 0)) as [->|Hnz]; [apply representable_1|].
      subst n. rep. }
    replace (if decide (n = 0) then 1 else size_mul n 2) with (grown n)
      by (unfold grown; destruct (decide (n = 0)); [done|];
          by rewrite size_mul_fits).
    assert (n < grown n) as Hgrown
      by (unfold grown; destruct (decide (n = 0)); lia).
    assert (∃ v, referred value (transferred xs) = Some v) as [v Hv].
    { destruct value as [v|i]; simpl in *; [by eauto|].
      apply lookup_lt_is_Some. rewrite length_transferred.
      by eapply lookup_lt_Some. }
    apply wp_with_new_data; [|intros o'; apply Esame]. intros o1.
    change (if is_nothrow_move_constructible || negb is_copy_constructible
            then uninitialized_move_n begin n (NewData, 0)
            else uninitialized_copy_n begin n (NewData, 0))
      with (ShiftDataToNewMemory begin n (NewData, 0)).
    replace (replicate (grown n) Raw)
      with ([] ++ replicate n (@Raw T) ++ replicate (grown n - n) Raw)
      by (simpl; rewrite <-replicate_add; f_equal; lia).
    simpl replicate. rewrite app_nil_r.
    replace (Obj <$> xs) with ([] ++ (Obj <$> xs) ++ []) at 1
      by (simpl; by rewrite app_nil_r).
    apply wp_bind.
    apply (wp_ShiftDataToNewMemory_at _ _ _ [] xs [] []); [done..| |].
    2:{ intros o' t' xs' Hxs'. eapply wp_deallocate; [done|]. wsimpl.
        specialize (Etransfer eq_refl o' t' xs' (or_intror Hxs')).
        unfold mk_vector in Etransfer. conclude Etransfer.
        rewrite (interrupted_length _ _ Hxs'). fold n.
        simpl. rewrite <-replicate_add.
        by replace (n + (grown n - n)) with (grown n) by lia. }
    intros o2. simpl app. rewrite app_nil_r.
    apply wp_bind.
    replace (replicate (grown n - n) (@Raw T))
      with (Raw :: replicate (grown n - n - 1) (@Raw T))
      by (replace (grown n - n) with (S (grown n - n - 1)) at 2 by lia;
          reflexivity).
    eapply (wp_construct_from_new_data _ _ _ _ _ v); [done|subst n; len| |].
    2:{ intros o' t'. eapply wp_deallocate; [done|]. wsimpl.
        specialize (Elate eq_refl o' t').
        unfold mk_vector in Elate. conclude Elate.
        rewrite length_transferred. fold n. simpl. rewrite app_nil_r.
        replace (grown n - n) with (S (grown n - n - 1)) at 1 by lia.
        done. }
    intros o3 t3.
    rewrite (insert_at (Obj <$> xs)) by (subst n; len).
    apply wp_bind.
    assert (length (read_from how value (transferred xs) v) = n) as Hlen.
    { unfold read_from. destruct value, how;
        rewrite ?length_insert; apply length_transferred. }
    rewrite <-Hlen.
    eapply (wp_destroy_n_at Data _ _ []
              (read_from how value (transferred xs) v) []);
      [done|done|by rewrite app_nil_r|].
    wsimpl.
    apply wp_bind. eapply wp_Swap_new_data; [done|]. wsimpl.
    apply wp_bind, wp_Size. wsimpl.
    apply wp_set_size. wsimpl.
    eapply wp_deallocate; [done|]. wsimpl.
    rewrite Hlen, size_add_fits by done.
    match goal with
    | |- Q _ (MkWorld _ _ _ _ ?t' _) => specialize (Hfull eq_refl v o3 t' Hv)
    end.
    unfold mk_vector in Hfull.
    rewrite fmap_app, <-app_assoc, length_app in Hfull.
    simpl. rewrite app_nil_r. apply Hfull.
  - rewrite decide_True by len.
    apply wp_bind.
    replace (0 + length xs) with (length xs) by lia.
    cbn [replicate].
    eapply (wp_construct_from_in_place _ _ _ _ u);
      [done| |intros o' t'; apply Esame].
    intros o' t'.
    apply wp_bind, wp_Size. wsimpl. apply wp_set_size. wsimpl.
    rewrite size_add_fits by rep.
    specialize (Hroom ltac:(lia) u o' t' Hu).
    unfold mk_vector in Hroom. simpl in Hroom.
    rewrite Nat.sub_0_r, fmap_app, <-app_assoc, length_app in Hroom.
    assert (length (read_from how value xs u) = length xs) as Hlen.
    { unfold read_from. destruct value, how; by rewrite ?length_insert. }
    rewrite Hlen in Hroom. apply Hroom.
Qed.

Lemma wp_Part000_PushBack how value xs k v nd tv o t f Q E :
  representable (length xs + k) →
  (k = 0 → representable (length xs * 2)) →
  holds_until_read xs k how value v →
  (∀ k' nd' o' t' f', Q tt
     (MkWorld (mk_vector (xs ++ [v]) k') nd' tv o' t' f')) →
  (∀ w', E w') →
  wp (Part000.PushBack how value) Q E (MkWorld (mk_vector xs k) nd tv o t f).
Proof.
  intros ? ? [Hv Hkept] HQ HE.
  assert (read_from how value xs v = xs) as Hsame.
  { unfold read_from. destruct value; [done|]. by destruct Hkept as [-> _]. }
  apply wp_Part000_PushBack_exact; try done.
  - intros -> v' o' t' Hv'.
    assert (v' = v) as ->; [|apply HQ].
    destruct value as [u|i]; simpl in *; [congruence|].
    destruct Hkept as [_ Hkept]. unfold transferred in Hv'.
    rewrite Hkept in Hv' by done. congruence.
  - intros Hk v' o' t' Hv'.
    assert (v' = v) as -> by congruence. rewrite Hsame. apply HQ.
Qed.

(** *** The loops of [ReallocateAndEmplace]

    The new element [v] is already in its slot [dest], behind the range the
    loop fills; a failure destroys what was transferred and then [v]. *)
Lemma wp_transfer_copy_loop spost dpost v rest : ∀ done dest n tv o t f Q E,
  dest = length done + length rest →
  (∀ o', Q tt
     (MkWorld (MkVector ((Obj <$> done ++ rest) ++ spost) n)
        (Some ((Obj <$> done ++ rest) ++ Obj v :: dpost)) tv o'
        (t ++ copy_events 0 0 (length done) (length rest)) f)) →
  (∀ o' t', E
     (MkWorld (MkVector ((Obj <$> done ++ rest) ++ spost) n)
        (Some (replicate dest Raw ++ Raw :: dpost)) tv o' t' f)) →
  wp (Part000.transfer_loop
        (λ i, copy_construct_at (ptr_add (NewData, 0) i) (Data, i))
        (NewData, 0) (NewData, dest) (length done) (length rest)) Q E
    (MkWorld (MkVector ((Obj <$> done ++ rest) ++ spost) n)
       (Some ((Obj <$> done) ++ replicate (length rest) Raw ++ Obj v :: dpost))
       tv o t f).
Proof.
  induction rest as [|x rest IH]; intros done dest n tv o t f Q E -> HQ HE.
  { apply wp_ret. specialize (HQ o). unfold copy_events in HQ. simpl in *.
    by rewrite !app_nil_r in *. }
  simpl Part000.transfer_loop. apply wp_bind, wp_catch_rethrow.
  eapply wp_copy_construct_at with (v := x); wsimpl; [done| |done| | |].
  - rewrite fmap_app, <-app_assoc. simpl. apply lookup_at. len.
  - len.
  - intros o'. wsimpl. cbn [length replicate].
    rewrite <-app_comm_cons, (insert_at (Obj <$> done)) by len.
    replace (S (length done)) with (length (done ++ [x])) by len.
    replace ((Obj <$> done ++ x :: rest) ++ spost)
      with ((Obj <$> (done ++ [x]) ++ rest) ++ spost)
      by (by rewrite <-(assoc_L (++) done)).
    replace ((Obj <$> done) ++ Obj x :: replicate (length rest) Raw
               ++ Obj v :: dpost)
      with ((Obj <$> done ++ [x]) ++ replicate (length rest) Raw
              ++ Obj v :: dpost)
      by (by rewrite fmap_app, <-app_assoc).
    eapply IH; [len| |].
    + intros o''. specialize (HQ o''). conclude HQ.
      rewrite <-(assoc_L (++) done). simpl. f_equal.
      rewrite <-app_assoc. f_equal. unfold copy_events. simpl.
      rewrite length_app. simpl.
      by replace (length done + 1) with (S (length done)) by lia.
    + intros o'' t'. specialize (HE o'' t'). conclude HE.
      by rewrite <-(assoc_L (++) done).
  - intros o'. wsimpl. apply wp_bind.
    eapply (wp_destroy_n_at NewData _ _ [] done); [done..|]. wsimpl.
    rewrite app_nil_l.
    eapply wp_destroy_at with (v := v); wsimpl; [done| |].
    { apply lookup_app2. len. }
    rewrite (insert_app2 _ _ _ _ Raw) by len.
    specialize (HE o'
      (((t ++ [Throw]) ++ destroy_events NewData 0 (length done))
       ++ [Destroy (NewData, length done + length (x :: rest))])).
    conclude HE. do 2 f_equal. by rewrite replicate_add, <-app_assoc.
Qed.

Lemma wp_transfer_move_loop spost dpost v rest : ∀ done dest n tv o t f Q E,
  dest = length done + length rest →
  (∀ o', Q tt
     (MkWorld (MkVector ((Obj <$> (moved_from <$> done ++ rest)) ++ spost) n)
        (Some ((Obj <$> done ++ rest) ++ Obj v :: dpost)) tv o'
        (t ++ move_events 0 0 (length done) (length rest)) f)) →
  (is_nothrow_move_constructible = false →
   ∀ o' t' moved kept, rest = moved ++ kept →
     E (MkWorld
          (MkVector
             ((Obj <$> (moved_from <$> done ++ moved)) ++ (Obj <$> kept)
                ++ spost) n)
          (Some (replicate dest Raw ++ Raw :: dpost)) tv o' t' f)) →
  wp (Part000.transfer_loop
        (λ i, move_construct_at (ptr_add (NewData, 0) i) (Data, i))
        (NewData, 0) (NewData, dest) (length done) (length rest)) Q E
    (MkWorld
       (MkVector ((Obj <$> (moved_from <$> done)) ++ (Obj <$> rest) ++ spost) n)
       (Some ((Obj <$> done) ++ replicate (length rest) Raw ++ Obj v :: dpost))
       tv o t f).
Proof.
  induction rest as [|x rest IH]; intros done dest n tv o t f Q E -> HQ HE.
  { apply wp_ret. specialize (HQ o). unfold move_events in HQ. simpl in *.
    by rewrite !app_nil_r in *. }
  simpl Part000.transfer_loop. apply wp_bind, wp_catch_rethrow.
  eapply wp_move_construct_at with (v := x); wsimpl; [done|done| |done| | |].
  - rewrite fmap_cons, <-app_comm_cons. apply lookup_at. len.
  - len.
  - intros o'. wsimpl. cbn [length replicate].
    rewrite fmap_cons, <-!app_comm_cons.
    rewrite (insert_at (Obj <$> (moved_from <$> done))) by len.
    rewrite (insert_at (Obj <$> done)) by len.
    replace (S (length done)) with (length (done ++ [x])) by len.
    replace ((Obj <$> (moved_from <$> done)) ++
             Obj (moved_from x) :: (Obj <$> rest) ++ spost)
      with ((Obj <$> (moved_from <$> done ++ [x])) ++ (Obj <$> rest) ++ spost)
      by (by rewrite !fmap_app, <-app_assoc).
    replace ((Obj <$> done) ++ Obj x :: replicate (length rest) Raw
               ++ Obj v :: dpost)
      with ((Obj <$> done ++ [x]) ++ replicate (length rest) Raw
              ++ Obj v :: dpost)
      by (by rewrite fmap_app, <-app_assoc).
    eapply IH; [len| |].
    + intros o''. specialize (HQ o''). conclude HQ.
      rewrite <-(assoc_L (++) done). simpl. f_equal.
      rewrite <-app_assoc. f_equal. unfold move_events. simpl.
      rewrite length_app. simpl.
      by replace (length done + 1) with (S (length done)) by lia.
    + intros Hthrows o'' t' moved kept ->.
      specialize (HE Hthrows o'' t' (x :: moved) kept eq_refl). conclude HE.
      by rewrite <-(assoc_L (++) done).
  - intros Hthrows o'. wsimpl. apply wp_bind.
    eapply (wp_destroy_n_at NewData _ _ [] done); [done..|]. wsimpl.
    rewrite app_nil_l.
    eapply wp_destroy_at with (v := v); wsimpl; [done| |].
    { apply lookup_app2. len. }
    rewrite (insert_app2 _ _ _ _ Raw) by len.
    specialize (HE Hthrows o'
      (((t ++ [Throw]) ++ destroy_events NewData 0 (length done))
       ++ [Destroy (NewData, length done + length (x :: rest))])
      [] (x :: rest) eq_refl).
    conclude HE. by rewrite app_nil_r, replicate_add, <-app_assoc.
Qed.

(** The ways out of the [EmplaceBack] of the earlier version: done, in a
    new buffer or in place; a failed allocation or a failed construction in
    place; a failed construction in the new buffer, of the new element or of
    a transferred one. *)
Lemma wp_Part000_EmplaceBack_exact xs k v nd tv o t f Q E :
  representable (length xs + k) →
  (k = 0 → representable (length xs * 2)) →
  (k = 0 → ∀ o' t', Q (Data, length xs)
     (MkWorld (mk_vector (xs ++ [v]) (grown (length xs) - length xs - 1))
        None tv o' t' (f ++ [replicate (length xs) Raw]))) →
  (0 < k → ∀ o' t', Q (Data, length xs)
     (MkWorld (mk_vector (xs ++ [v]) (k - 1)) nd tv o' t' f)) →
  (∀ o' t', E (MkWorld (mk_vector xs k) nd tv o' t' f)) →
  (k = 0 → ∀ o' t' xs', xs' = xs ∨ interrupted xs xs' →
     E (MkWorld (mk_vector xs' 0) None tv o' t'
          (f ++ [replicate (grown (length xs)) Raw]))) →
  wp (Part000.EmplaceBack v) Q E (MkWorld (mk_vector xs k) nd tv o t f).
Proof.
  intros Hcap Hdouble Hfull Hroom Esame Etransfer.
  unfold Part000.EmplaceBack. unfold mk_vector at 1.
  apply wp_bind, wp_Size. wsimpl.
  apply wp_bind, wp_Capacity. wsimpl.
  destruct k as [|k].
  - (* [ReallocateAndEmplace] *)
    specialize (Hdouble eq_refl).
    rewrite decide_False by len.
    unfold Part000.ReallocateAndEmplace.
    apply wp_bind, wp_Size. wsimpl.
    set (n := length xs).
    assert (representable (n + 1)).
    { destruct (decide (n = 0)) as [->|Hnz]; [apply representable_1|].
      subst n. rep. }
    replace (if decide (n = 0) then 1 else size_mul n 2) with (grown n)
      by (unfold grown; destruct (decide (n = 0)); [done|];
          by rewrite size_mul_fits).
    assert (n < grown n) as Hgrown
      by (unfold grown; destruct (decide (n = 0)); lia).
    apply wp_with_new_data; [|intros o'; apply Esame]. intros o1.
    assert (∀ o' t' xs', xs' = xs ∨ interrupted xs xs' →
              E (MkWorld (MkVector (Obj <$> xs') n) None tv o' t'
                   (f ++ [replicate n Raw ++ Raw
                            :: replicate (grown n - n - 1) Raw])))
      as Etransfer'.
    { intros o' t' xs' Hxs'.
      specialize (Etransfer eq_refl o' t' xs' Hxs').
      unfold mk_vector in Etransfer. conclude Etransfer.
      assert (length xs' = n) as ->
        by (destruct Hxs' as [->|?]; [done|by eapply interrupted_length]).
      simpl. rewrite app_nil_r. do 3 f_equal.
      fold n. replace (grown n) with (n + S (grown n - n - 1)) at 1 by lia.
      by rewrite replicate_add. }
    cbv zeta. wsimpl. simpl replicate. rewrite app_nil_r.
    apply wp_bind.
    replace (replicate (grown n) Raw)
      with (replicate n (@Raw T) ++ Raw :: replicate (grown n - n - 1) Raw).
    2:{ replace (grown n) with (n + S (grown n - n - 1)) at 2 by lia.
        by rewrite replicate_add. }
    eapply wp_construct_at; wsimpl; [done|len| |].
    2:{ intros o'. eapply wp_deallocate; [done|]. wsimpl.
        apply Etransfer'. by left. }
    intros o2. wsimpl.
    rewrite (insert_at (replicate n Raw)) by len.
    apply wp_bind.
    assert (∀ Q' E',
      (∀ o', Q' tt
         (MkWorld (MkVector (Obj <$> transferred xs) n)
            (Some ((Obj <$> xs) ++ Obj v :: replicate (grown n - n - 1) Raw))
            tv o'
            ((t ++ [Allocate (grown n)]) ++ [Construct (NewData, 0 + n)]
               ++ transfer_events 0 0 n) f)) →
      (∀ o' t' xs', xs' = xs ∨ interrupted xs xs' →
         E' (MkWorld (MkVector (Obj <$> xs') n)
               (Some (replicate n Raw ++ Raw
                        :: replicate (grown n - n - 1) Raw))
               tv o' t' f)) →
      wp (if is_nothrow_move_constructible || negb is_copy_constructible
          then Part000.transfer_loop
                 (λ i, move_construct_at (ptr_add (NewData, 0) i) (Data, i))
                 (NewData, 0) (NewData, 0 + n) 0 n
          else Part000.transfer_loop
                 (λ i, copy_construct_at (ptr_add (NewData, 0) i) (Data, i))
                 (NewData, 0) (NewData, 0 + n) 0 n) Q' E'
        (MkWorld (MkVector (Obj <$> xs) n)
           (Some (replicate n Raw ++ Obj v :: replicate (grown n - n - 1) Raw))
           tv o2
           ((t ++ [Allocate (grown n)]) ++ [Construct (NewData, 0 + n)]) f))
      as Htransfer.
    { intros Q' E' HQ' HE'. unfold transferred, transfer_events in HQ'.
      fold transfers_by_move.
      replace (MkVector (Obj <$> xs) n) with (MkVector ((Obj <$> xs) ++ []) n)
        by (by rewrite app_nil_r).
      unfold interrupted in HE'.
      destruct transfers_by_move.
      - eapply (wp_transfer_move_loop [] _ v xs []); [done| |].
        + intros o'. specialize (HQ' o'). conclude HQ'.
          simpl. subst n. by rewrite !app_nil_r, <-!app_assoc.
        + intros Hthrows o' t' moved kept Hsplit.
          specialize (HE' o' t' ((moved_from <$> moved) ++ kept)).
          simpl. rewrite app_nil_r, <-fmap_app. apply HE'.
          right. split; [done|]. by exists moved, kept.
      - eapply (wp_transfer_copy_loop [] _ v xs []); [done| |].
        + intros o'. specialize (HQ' o'). conclude HQ'.
          simpl. subst n. by rewrite !app_nil_r, <-!app_assoc.
        + intros o' t'. simpl. rewrite app_nil_r. apply HE'. by left. }
    apply Htransfer.
    2:{ intros o' t' xs' Hxs'. eapply wp_deallocate; [done|]. wsimpl.
        by apply Etransfer'. }
    intros o3.
    apply wp_bind.
    eapply (wp_destroy_n_at Data _ _ [] (transferred xs) []);
      [done|by rewrite length_transferred|by rewrite app_nil_r|].
    wsimpl.
    apply wp_bind. eapply wp_Swap_new_data; [done|]. wsimpl.
    apply wp_bind, wp_Size. wsimpl.
    apply wp_bind, wp_set_size. wsimpl.
    apply wp_bind, wp_Size. wsimpl. apply wp_ret.
    eapply wp_deallocate; [done|]. wsimpl.
    rewrite size_add_fits by done.
    rewrite size_sub_fits by (lia || done).
    replace (n + 1 - 1) with n by lia.
    match goal with
    | |- Q _ (MkWorld _ _ _ _ ?t' _) => specialize (Hfull eq_refl o3 t')
    end.
    unfold mk_vector in Hfull.
    rewrite fmap_app, <-app_assoc, length_app in Hfull.
    simpl. rewrite ?app_nil_r. apply Hfull.
  - rewrite decide_True by len.
    apply wp_bind.
    eapply wp_construct_at; wsimpl; [done|len| |intros o'; apply Esame].
    intros o'. wsimpl. cbn [replicate].
    rewrite (insert_at (Obj <$> xs)) by len.
    apply wp_bind, wp_Size. wsimpl. apply wp_bind, wp_set_size. wsimpl.
    apply wp_bind, wp_Size. wsimpl. apply wp_ret.
    rewrite size_add_fits by rep.
    rewrite size_sub_fits by (lia || rep).
    replace (length xs + 1 - 1) with (length xs) by lia.
    specialize (Hroom ltac:(lia) o'
      (t ++ [Construct (Data, 0 + length xs)])).
    unfold mk_vector in Hroom. simpl in Hroom.
    rewrite Nat.sub_0_r, fmap_app, <-app_assoc, length_app in Hroom.
    apply Hroom.
Qed.

Lemma wp_Part000_EmplaceBack xs k v nd tv o t f Q E :
  representable (length xs + k) →
  (k = 0 → representable (length xs * 2)) →
  (∀ k' nd' o' t' f', Q (Data, length xs)
     (MkWorld (mk_vector (xs ++ [v]) k') nd' tv o' t' f')) →
  (∀ w', E w') →
  wp (Part000.EmplaceBack v) Q E (MkWorld (mk_vector xs k) nd tv o t f).
Proof.
  intros ? ? HQ HE. by apply wp_Part000_EmplaceBack_exact.
Qed.

Lemma appended_mk_vector xs v k' nd' tv' o' t' f' :
  appended xs v (MkWorld (mk_vector (xs ++ [v]) k') nd' tv' o' t' f').
Proof.
  unfold appended. simpl. split_and!; [|len| |by eauto].
  - rewrite fmap_app, <-app_assoc. simpl. apply lookup_at. len.
  - rewrite fmap_app, <-app_assoc.
    rewrite take_app_length'; [done|len].
Qed.

(** C5 (amended).  After [PushBack(v)] the element at index [old_size] is
    [v], [Size()] is [old_size + 1] and the first [old_size] elements are
    what they were: for [PushBack] of src/vector.h, and for both overloads
    of the earlier [PushBack] of src/unnamed/part_000 when the object passed
    holds [v] until the new element is constructed from it
    ([holds_until_read]: every object outside the vector, and an element of
    the vector passed as [const T&] unless the buffer is full and [T] is
    transferred by move).  [EmplaceBack], in either version, does the same
    and returns a reference to the new element; [PushBack] returns nothing.
    None of them has undefined behaviour, and they throw only if an
    allocation or a construction fails.  The capacity, and twice the size
    when the buffer is full, are numbers that [size_t] can hold. *)
Theorem PushBack_appends_the_value xs k v w :
  this w = mk_vector xs k →
  representable (length xs + k) →
  (k = 0 → representable (length xs * 2)) →
  match PushBack v w with
  | Ret _ w' => appended xs v w'
  | Exc _ => false ∈ oracle w
  | Fault _ => False
  end
  ∧ (∀ how value, holds_until_read xs k how value v →
       match Part000.PushBack how value w with
       | Ret _ w' => appended xs v w'
       | Exc _ => false ∈ oracle w
       | Fault _ => False
       end)
  ∧ match call (CallPushBack v) w with
    | Ret r w' => r = Nothing ∧ appended xs v w'
    | Exc _ => false ∈ oracle w
    | Fault _ => False
    end
  ∧ (∀ emplace, emplace = EmplaceBack ∨ emplace = Part000.EmplaceBack →
       match emplace v w with
       | Ret r w' => r = (Data, length xs) ∧ appended xs v w'
       | Exc _ => false ∈ oracle w
       | Fault _ => False
       end)
  ∧ match call (CallEmplaceBack v) w with
    | Ret r w' => r = Reference (Data, length xs) ∧ appended xs v w'
    | Exc _ => false ∈ oracle w
    | Fault _ => False
    end.
Proof.
  intros Hthis Hcap Hdouble.
  destruct w as [th nd tv o t f]. simpl in Hthis. subst th.
  split_and!.
  - apply wp_total, wp_PushBack; try done.
    intros; apply appended_mk_vector.
  - intros how value Hvalue.
    eapply wp_total, wp_Part000_PushBack; try done.
    intros; apply appended_mk_vector.
  - apply wp_total. unfold call.
    apply wp_bind, wp_PushBack; [done..| |done].
    intros. apply wp_ret. split; [done|apply appended_mk_vector].
  - intros emplace [-> | ->]; apply wp_total;
      [apply wp_EmplaceBack|apply wp_Part000_EmplaceBack]; try done;
      intros; (split; [done|apply appended_mk_vector]).
  - apply wp_total. unfold call.
    apply wp_bind, wp_EmplaceBack; [done..| |done].
    intros. apply wp_ret. split; [done|apply appended_mk_vector].
Qed.

(** ** Failed reallocations *)





(** ** Move construction *)

(** C7.  Move construction cannot throw, whatever the failure schedule: it
    constructs, assigns and allocates nothing.  The new object has the
    buffer and the size of the source, hence its elements in their order,
    and the source is left with size 0 (and capacity 0). *)
Theorem move_construction_takes_over (other : Vector) w :
  ∃ other' w',
    Vector_move other w = Ret other' w'
    ∧ size_ other' = 0 ∧ data_ other' = []
    ∧ this w' = other
    ∧ oracle w' = oracle w ∧ trace w' = trace w ∧ freed w' = freed w.
Proof.
  unfold Vector_move. simpl. destruct other. by eauto 10.
Qed.

Lemma lookup_next {A} (l1 l3 : list A) (a x : A) i :
  i = length l1 + 1 → (l1 ++ a :: x :: l3) !! i = Some x.
Proof. intros ->. apply (lookup_app2_next l1 []). simpl. lia. Qed.

Lemma insert_next {A} (l1 l3 : list A) (a x y : A) i :
  i = length l1 + 1 → <[i := y]> (l1 ++ a :: x :: l3) = l1 ++ a :: y :: l3.
Proof. intros ->. apply (insert_app2_next l1 []). simpl. lia. Qed.

(** ** The invariant and the sequences the theorems range over *)

Lemma invariant_mk_vector xs k : invariant (mk_vector xs k) = true.
Proof.
  unfold invariant, mk_vector. simpl.
  rewrite bool_decide_eq_true_2 by len. simpl.
  rewrite take_app_length' by len.
  rewrite drop_app_length' by len.
  apply andb_true_intro. split.
  - induction xs; simpl; auto.
  - induction k; simpl; auto.
Qed.

Lemma all_live_objects (l : list (@slot T)) :
  forallb is_live l = true → ∃ xs, l = Obj <$> xs.
Proof.
  induction l as [|[|x] l IH]; simpl; intros H.
  - by exists [].
  - done.
  - destruct (IH H) as [xs ->]. by exists (x :: xs).
Qed.

Lemma all_raw (l : list (@slot T)) :
  forallb (λ s, negb (is_live s)) l = true → l = replicate (length l) Raw.
Proof.
  induction l as [|[|x] l IH]; simpl; intros H; [done| |done].
  f_equal. by apply IH.
Qed.

(** The vectors [mk_vector xs k] are all the vectors that satisfy the
    representation invariant. *)
Lemma invariant_is_mk_vector (v : Vector) :
  invariant v = true ↔ ∃ xs k, v = mk_vector xs k.
Proof.
  split; [|intros (xs & k & ->); apply invariant_mk_vector].
  unfold invariant. intros [[Hle%bool_decide_eq_true Hlive]%andb_prop
    Hraw]%andb_prop.
  destruct (all_live_objects _ Hlive) as [xs Hxs].
  apply all_raw in Hraw.
  exists xs, (length (drop (size_ v) (data_ v))).
  destruct v as [d n]. simpl in *. unfold mk_vector. f_equal.
  - by rewrite <-Hxs, <-Hraw, take_drop.
  - apply (f_equal length) in Hxs. rewrite length_fmap, length_take in Hxs. lia.
Qed.

Lemma invariant_live_below_size (v : Vector) i :
  invariant v = true → i < size_ v → ∃ x, data_ v !! i = Some (Obj x).
Proof.
  intros (xs & k & ->)%invariant_is_mk_vector. simpl. intros Hi.
  destruct (lookup_lt_is_Some_2 xs i Hi) as [x Hx]. exists x.
  rewrite lookup_app_l by len. by rewrite list_lookup_fmap, Hx.
Qed.

(** ** Growing with [Resize] *)

Lemma wp_value_construct_loop pre post n : ∀ i size nd tv o t f Q E,
  (∀ o', Q tt
     (MkWorld
        (MkVector (pre ++ (Obj <$> replicate (i + n) value_initialized) ++ post)
           size)
        nd tv o' (t ++ construct_events (length pre) i n) f)) →
  (∀ o' t', E
     (MkWorld (MkVector (pre ++ replicate (i + n) Raw ++ post) size)
        nd tv o' t' f)) →
  wp (uninitialized_loop
        (λ j, value_construct_at (ptr_add (Data, length pre) j))
        (Data, length pre) i n) Q E
    (MkWorld
       (MkVector
          (pre ++ (Obj <$> replicate i value_initialized)
             ++ replicate n Raw ++ post) size)
       nd tv o t f).
Proof.
  induction n as [|n IH]; intros i size nd tv o t f Q E HQ HE.
  { apply wp_ret. specialize (HQ o). unfold construct_events in HQ.
    simpl in *. by rewrite Nat.add_0_r, app_nil_r in HQ. }
  simpl uninitialized_loop. apply wp_bind, wp_catch_rethrow.
  unfold value_construct_at.
  apply wp_bind, wp_may_throw.
  - intros o'. apply wp_bind. eapply wp_write; wsimpl; [done|len|].
    apply wp_log. wsimpl. cbn [replicate]. rewrite <-app_comm_cons.
    rewrite (insert_app2 _ _ _ _ (Obj value_initialized)) by len.
    replace (pre ++ (Obj <$> replicate i value_initialized)
               ++ Obj value_initialized :: replicate n Raw ++ post)
      with (pre ++ (Obj <$> replicate (S i) value_initialized)
              ++ replicate n Raw ++ post).
    2:{ replace (S i) with (i + 1) by lia.
        by rewrite replicate_add, fmap_app, <-app_assoc. }
    apply IH.
    + intros o''. specialize (HQ o''). conclude HQ.
      replace (S i + n) with (i + S n) by lia. by rewrite <-app_assoc.
    + intros o'' t'. specialize (HE o'' t'). conclude HE.
      by replace (S i + n) with (i + S n) by lia.
  - intros o'. wsimpl.
    eapply (wp_destroy_n_at Data _ _ pre (replicate i value_initialized));
      [done|len|done|]. wsimpl.
    specialize (HE o'
      ((t ++ [Throw]) ++ destroy_events Data (length pre) i)).
    conclude HE. by rewrite replicate_add, <-app_assoc.
Qed.

(** [Resize] for every size asked: the elements kept are the first
    [new_size] old ones, the elements added are value-initialized. *)
Lemma wp_Resize new_size xs k nd tv o t f Q E :
  representable new_size → representable (length xs) →
  (∀ k' nd' o' t' f', Q tt
     (MkWorld
        (mk_vector
           (take new_size xs
              ++ replicate (new_size - length xs) value_initialized) k')
        nd' tv o' t' f')) →
  (∀ w', E w') →
  wp (Resize new_size) Q E (MkWorld (mk_vector xs k) nd tv o t f).
Proof.
  intros Hnew Hold HQ HE. unfold Resize.
  assert (∀ k0 nd0 o0 t0 f0,
    wp (size ← Size;
        (if decide (size < new_size)
         then uninitialized_value_construct_n (ptr_add begin size)
                (size_sub new_size size)
         else destroy_n (ptr_add begin new_size) (size_sub size new_size));;
        set_size new_size) Q E
      (MkWorld (mk_vector xs k0) nd0 tv o0 t0 f0)
    ∨ length xs + k0 < new_size) as Hrest.
  { intros k0 nd0 o0 t0 f0.
    destruct (decide (length xs + k0 < new_size)) as [?|Hfits]; [by right|left].
    unfold mk_vector. apply wp_bind, wp_Size. wsimpl.
    destruct (decide (length xs < new_size)) as [Hgrow|Hshrink].
    - rewrite size_sub_fits by (lia || done).
      replace (replicate k0 Raw)
        with (replicate (new_size - length xs) (@Raw T)
                ++ replicate (length xs + k0 - new_size) Raw)
        by (rewrite <-replicate_add; f_equal; lia).
      apply wp_bind. unfold uninitialized_value_construct_n.
      replace (0 + length xs) with (length (Obj <$> xs)) by len.
      apply (wp_value_construct_loop (Obj <$> xs) _ _ 0); [|by eauto].
      intros o'. apply wp_set_size. wsimpl.
      specialize (HQ (length xs + k0 - new_size) nd0 o'
        (t0 ++ construct_events (length (Obj <$> xs)) 0 (new_size - length xs))
        f0).
      rewrite firstn_all2 in HQ by lia. unfold mk_vector in HQ.
      conclude HQ. f_equal. f_equal.
      + by rewrite fmap_app, <-app_assoc.
      + len.
    - rewrite size_sub_fits by (lia || done).
      replace (Obj <$> xs)
        with ((Obj <$> take new_size xs) ++ (Obj <$> drop new_size xs))
        by by rewrite <-fmap_app, take_drop.
      rewrite <-app_assoc. apply wp_bind.
      eapply (wp_destroy_n_at Data _ _ (Obj <$> take new_size xs)
                (drop new_size xs));
        [rewrite length_fmap, length_take; lia|rewrite length_drop; lia|done|].
      wsimpl. apply wp_set_size. wsimpl.
      specialize (HQ (length xs - new_size + k0) nd0 o0
        (t0 ++ destroy_events Data new_size (length xs - new_size)) f0).
      replace (new_size - length xs) with 0 in HQ by lia.
      simpl in HQ. rewrite app_nil_r in HQ. unfold mk_vector in HQ.
      conclude HQ. f_equal. f_equal.
      + by rewrite replicate_add.
      + rewrite length_take. lia. }
  apply wp_bind, wp_Capacity. simpl.
  rewrite length_app, length_fmap, length_replicate.
  destruct (decide (length xs + k < new_size)) as [Hlt|Hge].
  - apply wp_bind, wp_Reserve; try lia; [|by eauto..].
    intros _ o'.
    destruct (Hrest (new_size - length xs) None o'
                (t ++ Allocate new_size
                   :: transfer_events 0 0 (length xs)
                   ++ destroy_events Data 0 (length xs))
                (f ++ [replicate (length xs + k) Raw])); [done|lia].
  - apply wp_bind, wp_ret.
    destruct (Hrest k nd o t f); [done|lia].
Qed.

(** [Emplace] on its three paths at once. *)
Lemma wp_Emplace xs k p v nd tv o t f Q E :
  p ≤ length xs →
  representable (length xs + k) →
  (k = 0 → representable (length xs * 2)) →
  (∀ k' nd' tv' o' t' f', Q (Data, p)
     (MkWorld (mk_vector (take p xs ++ v :: drop p xs) k') nd' tv' o' t' f')) →
  (∀ w', E w') →
  wp (Emplace (Data, p) v) Q E (MkWorld (mk_vector xs k) nd tv o t f).
Proof.
  intros Hp Hcap Hdouble HQ HE.
  assert (xs = take p xs ++ drop p xs) as Hxs by (by rewrite take_drop).
  assert (p = length (take p xs)) as Hlen by (rewrite length_take; lia).
  remember (take p xs) as xs1 eqn:H1. remember (drop p xs) as xs2 eqn:H2.
  clear H1 H2 Hp. subst xs p.
  rewrite length_app in *.
  destruct k as [|k].
  - specialize (Hdouble eq_refl).
    apply wp_Emplace_reallocating; try done.
    destruct (decide (length xs1 + length xs2 = 0)) as [->|Hnz];
      [apply representable_1|rep].
  - destruct xs2 as [|y xs2 _] using rev_ind.
    + rewrite app_nil_r.
      apply wp_Emplace_at_end; [rep| |done].
      intros o'. by rewrite <-(app_nil_r (xs1 ++ [v])), <-app_assoc.
    + rewrite length_app in *. simpl length in *.
      apply wp_Emplace_in_the_middle; [rep|done..].
Qed.

(** X1.  Every operation of the interface but [Erase], called within its
    contract on a sequence that satisfies the invariant and whose sizes fit
    [size_t]: it has defined behaviour, it throws only if a step fails, and
    when it returns the invariant holds again. *)
Theorem operations_other_than_Erase_keep_the_invariant op w :
  invariant (this w) = true →
  representable (length (data_ (this w)) * 2) →
  within_contract op (this w) →
  match call op w with
  | Ret _ w' => invariant (this w') = true
  | Exc _ => false ∈ oracle w
  | Fault _ => False
  end.
Proof.
  intros (xs & k & Hthis)%invariant_is_mk_vector Hrep Hop.
  destruct w as [th nd tv o t f]. simpl in *. subst th.
  unfold mk_vector in Hrep. simpl in Hrep.
  rewrite length_app, length_fmap, length_replicate in Hrep.
  assert (representable (length xs + k)) by rep.
  assert (representable (length xs * 2)) by rep.
  apply wp_total. destruct op as [n|n|v|v|[r p] v|[r p] v|pos|];
    simpl in Hop; unfold call.
  - apply wp_bind, wp_Reserve; try done; intros; apply wp_ret;
      apply invariant_mk_vector.
  - apply wp_bind, wp_Resize; [done|rep| |done].
    intros. apply wp_ret, invariant_mk_vector.
  - apply wp_bind, wp_PushBack; [done..| |done].
    intros. apply wp_ret, invariant_mk_vector.
  - apply wp_bind, wp_EmplaceBack; [done..| |done].
    intros. apply wp_ret, invariant_mk_vector.
  - destruct Hop as [-> Hp]. unfold Insert.
    apply wp_bind, wp_Emplace; [done..| |done].
    intros. apply wp_ret, invariant_mk_vector.
  - destruct Hop as [-> Hp].
    apply wp_bind, wp_Emplace; [done..| |done].
    intros. apply wp_ret, invariant_mk_vector.
  - done.
  - destruct (exists_last (l := xs)) as (xs' & x & ->);
      [by intros ->; simpl in Hop; lia|].
    rewrite length_app in *. simpl length in *.
    unfold wp, mbind, M_bind. rewrite PopBack_spec by rep.
    simpl. split; [done|apply invariant_mk_vector].
Qed.

(** ** [Erase] as it is written *)

Lemma wp_std_move_loop ys : ∀ first d_first L z R n nd tv o t f Q E,
  d_first = length L → first = d_first + 1 →
  (∀ o', Q tt
     (MkWorld (MkVector (L ++ (Obj <$> ys) ++ Obj (left_behind ys z) :: R) n)
        nd tv o' (t ++ forward_events (length L) (length ys)) f)) →
  (is_nothrow_move_assignable = false →
   ∀ d' o' t', E (MkWorld (MkVector d' n) nd tv o' t' f)) →
  wp (move_loop (Data, first) (Data, d_first) (length ys)) Q E
    (MkWorld (MkVector (L ++ Obj z :: (Obj <$> ys) ++ R) n) nd tv o t f).
Proof.
  induction ys as [|y ys IH];
    intros first d_first L z R n nd tv o t f Q E -> -> HQ HE.
  { apply wp_ret. specialize (HQ o). unfold forward_events in HQ.
    simpl in *. by rewrite app_nil_r in HQ. }
  simpl move_loop. rewrite fmap_cons, <-app_comm_cons. apply wp_bind.
  eapply wp_move_assign_same with (v := y) (u := z); wsimpl; [done| | | |].
  - by apply lookup_next.
  - by apply lookup_at.
  - intros o'. wsimpl.
    rewrite (insert_next L _ _ _ (Obj (moved_from y))) by done.
    rewrite (insert_at L _ _ (Obj y)) by done.
    replace (L ++ Obj y :: Obj (moved_from y) :: (Obj <$> ys) ++ R)
      with ((L ++ [Obj y]) ++ Obj (moved_from y) :: (Obj <$> ys) ++ R)
      by (by rewrite <-app_assoc).
    eapply IH; [len|len| |done].
    intros o''. specialize (HQ o''). conclude HQ. f_equal; [f_equal|].
    + by rewrite <-app_assoc.
    + rewrite <-app_assoc. f_equal. unfold forward_events. simpl.
      rewrite length_app. simpl.
      by replace (length L + 1) with (S (length L)) by lia.
  - intros Hthrows o'. by apply HE.
Qed.

Lemma wp_Erase xs x ys k nd tv o t f Q E :
  representable (length xs + length ys + 1) →
  (∀ o', Q (Data, length xs)
     (MkWorld
        (MkVector ((Obj <$> xs) ++ erased_slots x ys ++ replicate k Raw)
           (length xs + length ys))
        nd tv o'
        (t ++ forward_events (length xs) (length ys)
           ++ [Destroy (Data, length xs)]) f)) →
  (∀ w', E w') →
  wp (Erase (Data, length xs)) Q E
    (MkWorld (mk_vector (xs ++ x :: ys) k) nd tv o t f).
Proof.
  intros Hrep HQ HE. unfold Erase, mk_vector.
  rewrite fmap_app, <-app_assoc, length_app. simpl.
  apply wp_bind, wp_ptr_diff; [done|simpl; lia|]. simpl.
  rewrite Nat.sub_0_r.
  apply wp_bind, wp_end. wsimpl.
  apply wp_bind. unfold std_move.
  apply wp_bind, wp_ptr_diff; [done|simpl; lia|]. simpl.
  replace (length xs + S (length ys) - (length xs + 1)) with (length ys) by lia.
  eapply (wp_std_move_loop ys _ _ (Obj <$> xs)); [len|done| |by eauto].
  intros o1.
  assert (∃ y, ((Obj <$> xs) ++ (Obj <$> ys)
                  ++ Obj (left_behind ys x) :: replicate k Raw)
               !! length xs = Some (Obj y)) as [y Hy].
  { destruct ys as [|y ys]; simpl; eexists; apply lookup_at; len. }
  apply wp_bind. eapply wp_destroy_at; [done..|]. wsimpl.
  apply wp_bind, wp_Size. wsimpl.
  apply wp_bind, wp_set_size. wsimpl. apply wp_ret.
  rewrite size_sub_fits by (lia || rep).
  specialize (HQ o1). conclude HQ. f_equal; [f_equal|].
  - destruct ys as [|y' ys]; simpl.
    + by rewrite (insert_at (Obj <$> xs)) by len.
    + rewrite (insert_at (Obj <$> xs)) by len. by rewrite <-app_assoc.
  - lia.
  - rewrite length_fmap, <-!app_assoc. done.
Qed.

(** X10.  What [Erase(begin() + p)] does for every sequence and every [p] in
    [begin, end): it returns [begin + p] and takes one off the size; when it
    erases the last element the sequence is the old one without it; in
    every other case slot [p] is left without an object and the invariant
    is broken. *)
Theorem Erase_is_right_only_for_the_last_element xs x ys k w :
  this w = mk_vector (xs ++ x :: ys) k →
  representable (length xs + length ys + 1) →
  match Erase (Data, length xs) w with
  | Ret it w' =>
      it = (Data, length xs)
      ∧ size_ (this w') = length xs + length ys
      ∧ (ys = [] → this w' = mk_vector xs (S k))
      ∧ (ys ≠ [] →
         data_ (this w') !! length xs = Some Raw
         ∧ invariant (this w') = false)
  | Exc _ => false ∈ oracle w
  | Fault _ => False
  end.
Proof.
  intros Hthis Hrep. destruct w as [th nd tv o t f]. simpl in Hthis. subst th.
  apply wp_total, wp_Erase; [done| |done].
  intros o'. simpl. split_and!; [done..| |].
  - intros ->. simpl. unfold mk_vector. by rewrite Nat.add_0_r.
  - intros Hys.
    assert (((Obj <$> xs) ++ erased_slots x ys ++ replicate k Raw)
            !! length xs = Some Raw) as Hraw.
    { destruct ys; [done|]. simpl. apply lookup_at. len. }
    split; [done|].
    destruct (invariant _) eqn:Hinv; [|done].
    destruct (invariant_live_below_size _ (length xs) Hinv) as [y Hy].
    + simpl. destruct ys; [done|]. simpl. lia.
    + simpl in Hy. congruence.
Qed.

(** ** Construction and destruction of the whole object *)

Lemma wp_allocate_data capacity Q E d n nd tv o t f :
  (∀ o', Q tt
     (MkWorld (MkVector (replicate capacity Raw) n) nd tv o'
        (t ++ [Allocate capacity]) f)) →
  (capacity ≠ 0 → ∀ o', E (MkWorld (MkVector d n) nd tv o' (t ++ [Throw]) f)) →
  wp (allocate_data capacity) Q E (MkWorld (MkVector d n) nd tv o t f).
Proof.
  intros HQ HE. unfold allocate_data. apply wp_bind.
  destruct (decide (capacity = 0)) as [->|Hnz].
  - apply wp_ret, wp_modify; [done|apply HQ].
  - apply wp_may_throw; [|by apply HE].
    intros o'. apply wp_modify; [done|apply HQ].
Qed.

Lemma wp_deallocate_data Q E w :
  Q tt (MkWorld (MkVector [] (size_ (this w))) (new_data w) (temp_val w)
          (oracle w) (trace w) (freed w ++ [data_ (this w)])) →
  wp deallocate_data Q E w.
Proof. intros. by apply wp_modify. Qed.

Lemma wp_load_other other i v Q E w :
  data_ other !! i = Some (Obj v) → Q v w → wp (load_other other i) Q E w.
Proof. intros Hi HQ. unfold load_other. rewrite Hi. by apply wp_ret. Qed.

(** One more step recorded behind a finished one. *)
Lemma world_after_step r b b1 e evs o' o'' w :
  logged_all evs
    (set_buffer r b (set_oracle o'' (logged e (set_buffer r b1 (set_oracle o' w)))))
  = logged_all (e :: evs) (set_buffer r b (set_oracle o'' w)).
Proof.
  destruct w as [[d n] nd tv o t f], r; unfold logged_all, logged, set_oracle;
    simpl; by rewrite <-app_assoc.
Qed.

(** The loop of [uninitialized_copy_n_from] into buffer [r], [done] being
    the values copied so far and [rest] those still to copy: it either
    copies them all or leaves the destination range raw. *)
Lemma wp_copy_from_loop other r first pre post rest : ∀ done Q E w,
  (∀ j v, (done ++ rest) !! j = Some v →
     data_ other !! (first + j) = Some (Obj v)) →
  buffer r w
  = Some (pre ++ (Obj <$> done) ++ replicate (length rest) Raw ++ post) →
  (∀ o', Q tt
     (logged_all (constructions r (length pre) (length done) (length rest))
        (set_buffer r (pre ++ (Obj <$> done ++ rest) ++ post)
           (set_oracle o' w)))) →
  (∀ o' evs, E
     (logged_all evs
        (set_buffer r
           (pre ++ replicate (length done + length rest) Raw ++ post)
           (set_oracle o' w)))) →
  wp (uninitialized_loop
        (λ i, v ← load_other other (first + i);
              construct_at (ptr_add (r, length pre) i) v)
        (r, length pre) (length done) (length rest)) Q E w.
Proof.
  induction rest as [|x rest IH]; intros done Q E w Hsrc Hb HQ HE.
  { apply wp_ret. specialize (HQ (oracle w)).
    unfold constructions in HQ. simpl in HQ.
    rewrite app_nil_r in HQ. simpl in Hb.
    destruct w as [[d n] nd tv o t f], r; simpl in *; simplify_eq;
      unfold logged_all, set_oracle in HQ; simpl in HQ;
      by rewrite app_nil_r in HQ. }
  simpl uninitialized_loop. apply wp_bind, wp_catch_rethrow.
  apply wp_bind. eapply (wp_load_other _ _ x).
  { apply Hsrc. by apply list_lookup_middle. }
  unfold ptr_add. cbn [fst snd].
  eapply wp_construct_at; [done|len| |].
  - intros o'. cbn [length replicate]. rewrite <-app_comm_cons.
    rewrite (insert_app2 _ _ _ _ (Obj x)) by len.
    replace (S (length done)) with (length (done ++ [x])) by len.
    eapply IH.
    + intros j v. rewrite <-(assoc_L (++) done). apply Hsrc.
    + rewrite buffer_logged, buffer_set_buffer.
      by rewrite fmap_app, <-app_assoc.
    + intros o''. specialize (HQ o'').
      rewrite <-(assoc_L (++) done), world_after_step.
      conclude HQ. unfold constructions. rewrite length_app. simpl.
      by replace (length done + 1) with (S (length done)) by lia.
    + intros o'' evs.
      specialize (HE o'' (Construct (r, length pre + length done) :: evs)).
      rewrite world_after_step.
      by replace (length (done ++ [x]) + length rest)
        with (length done + length (x :: rest)) by len.
  - intros o'.
    eapply (wp_destroy_n_at r _ _ pre done); [done|done| |].
    { rewrite buffer_set_oracle, buffer_logged. done. }
    specialize (HE o' (Throw :: destroy_events r (length pre) (length done))).
    conclude HE.
    destruct w as [[d n] nd tv o t f], r; simpl in *; simplify_eq;
      unfold logged_all, logged, set_oracle;
      simpl; by rewrite <-!app_assoc, replicate_add, <-app_assoc.
Qed.

(** The whole algorithm, with the indices as the code computes them. *)
Lemma wp_uninitialized_copy_n_from other r first p c pre post vs Q E w :
  p = length pre → c = length vs →
  (∀ j v, vs !! j = Some v → data_ other !! (first + j) = Some (Obj v)) →
  buffer r w = Some (pre ++ replicate c Raw ++ post) →
  (∀ o', Q tt
     (logged_all (constructions r p 0 c)
        (set_buffer r (pre ++ (Obj <$> vs) ++ post) (set_oracle o' w)))) →
  (∀ o' evs, E
     (logged_all evs
        (set_buffer r (pre ++ replicate c Raw ++ post) (set_oracle o' w)))) →
  wp (uninitialized_copy_n_from other first c (r, p)) Q E w.
Proof.
  intros -> -> Hsrc Hb HQ HE.
  apply (wp_copy_from_loop other r first pre post vs []); done.
Qed.

Lemma mk_vector_lookup xs k j v :
  xs !! j = Some v → data_ (mk_vector xs k) !! (0 + j) = Some (Obj v).
Proof.
  intros Hj. simpl. apply lookup_app_l_Some. by rewrite list_lookup_fmap, Hj.
Qed.

(** X12.  [Vector(n)]: [n] value-initialized elements in a buffer of exactly [n]
    slots; or an exception, from the allocation with nothing allocated, or
    from a constructor with the buffer released and no object left in it. *)
Theorem sized_construction_is_all_or_nothing n w :
  match Vector_sized n w with
  | Ret _ w' =>
      this w' = mk_vector (replicate n value_initialized) 0
      ∧ trace w' = trace w ++ Allocate n :: construct_events 0 0 n
      ∧ freed w' = freed w
  | Exc w' =>
      false ∈ oracle w
      ∧ (trace w' = trace w ++ [Throw] ∧ freed w' = freed w
         ∨ freed w' = freed w ++ [replicate n Raw])
  | Fault _ => False
  end.
Proof.
  destruct w as [[d sz] nd tv o t f].
  apply wp_elim with (E := λ w',
    trace w' = t ++ [Throw] ∧ freed w' = f
    ∨ freed w' = f ++ [replicate n Raw]).
  unfold Vector_sized.
  apply wp_bind, wp_allocate_data; [|by intros; left].
  intros o1. apply wp_bind, wp_set_size. wsimpl.
  apply wp_catch_rethrow. unfold uninitialized_value_construct_n.
  replace (replicate n (@Raw T))
    with ([] ++ (Obj <$> replicate 0 value_initialized)
             ++ replicate n (@Raw T) ++ [])
    by (simpl; by rewrite app_nil_r).
  apply (wp_value_construct_loop [] [] n 0).
  - intros o2. simpl. unfold mk_vector.
    rewrite length_replicate, <-app_assoc. done.
  - intros o2 t'. apply wp_deallocate_data. simpl.
    right. by rewrite app_nil_r.
Qed.

(** X13.  [Vector(other)]: the elements of [other], in a buffer of exactly
    [other.size_] slots; or an exception, from the allocation with nothing
    allocated, or from a copy with the buffer released and no object left
    in it. *)
Theorem copy_construction_copies_or_releases xs k w :
  match Vector_copy (mk_vector xs k) w with
  | Ret _ w' =>
      this w' = mk_vector xs 0
      ∧ trace w' = trace w ++ Allocate (length xs)
                     :: construct_events 0 0 (length xs)
      ∧ freed w' = freed w
  | Exc w' =>
      false ∈ oracle w
      ∧ (trace w' = trace w ++ [Throw] ∧ freed w' = freed w
         ∨ freed w' = freed w ++ [replicate (length xs) Raw])
  | Fault _ => False
  end.
Proof.
  destruct w as [[d sz] nd tv o t f].
  apply wp_elim with (E := λ w',
    trace w' = t ++ [Throw] ∧ freed w' = f
    ∨ freed w' = f ++ [replicate (length xs) Raw]).
  unfold Vector_copy. simpl size_.
  apply wp_bind, wp_allocate_data; [|by intros; left].
  intros o1. apply wp_bind, wp_set_size. wsimpl.
  apply wp_catch_rethrow.
  apply (wp_uninitialized_copy_n_from _ _ _ _ _ [] [] xs);
    [done|done|apply mk_vector_lookup| | |].
  - simpl. by rewrite app_nil_r.
  - intros o2. wsimpl. simpl. rewrite app_nil_r.
    unfold mk_vector. simpl. rewrite app_nil_r, <-app_assoc. done.
  - intros o2 evs. apply wp_deallocate_data. wsimpl. simpl.
    right. by rewrite app_nil_r.
Qed.

(** ** The destructor *)

Lemma destructor_spec xs k nd tv o t f :
  destructor (MkWorld (mk_vector xs k) nd tv o t f)
  = Ret tt
      (MkWorld (MkVector [] (length xs)) nd tv o
         (t ++ destroy_events Data 0 (length xs))
         (f ++ [replicate (length xs + k) Raw])).
Proof.
  apply wp_returns. unfold destructor, mk_vector.
  apply wp_bind, wp_Size. wsimpl. apply wp_bind.
  eapply (wp_destroy_n_at Data _ _ [] xs (replicate k Raw)); [done..|].
  wsimpl. apply wp_deallocate_data. simpl.
  by rewrite replicate_add.
Qed.

(** X16.  [~Vector()] on a vector that satisfies the invariant returns; it has
    destroyed the elements, each once, in index order, and nothing else, and
    has given the buffer back with no object left in it. *)
Theorem destructor_destroys_each_element_once w :
  invariant (this w) = true →
  ∃ w',
    destructor w = Ret tt w'
    ∧ trace w' = trace w ++ destroy_events Data 0 (size_ (this w))
    ∧ freed w' = freed w ++ [replicate (length (data_ (this w))) Raw]
    ∧ oracle w' = oracle w.
Proof.
  intros (xs & k & Hthis)%invariant_is_mk_vector.
  destruct w as [th nd tv o t f]. simpl in *. subst th.
  eexists. split; [apply destructor_spec|]. simpl.
  split_and!; [done| |done].
  by rewrite length_app, length_fmap, length_replicate.
Qed.

(** ** Copy assignment *)

(** [std::copy_n] from another vector over the objects [us]: it either
    assigns all of [vs], or throws with the first [m] assigned. *)
Lemma wp_copy_n_from other post : ∀ vs us pre first n nd tv o t f Q E,
  length us = length vs →
  (∀ j v, vs !! j = Some v → data_ other !! (first + j) = Some (Obj v)) →
  (∀ o', Q tt
     (MkWorld (MkVector (pre ++ (Obj <$> vs) ++ post) n) nd tv o' t f)) →
  (∀ o' m, m < length vs → E
     (MkWorld (MkVector (pre ++ (Obj <$> take m vs ++ drop m us) ++ post) n)
        nd tv o' (t ++ [Throw]) f)) →
  wp (copy_n_from other first (length vs) (Data, length pre)) Q E
    (MkWorld (MkVector (pre ++ (Obj <$> us) ++ post) n) nd tv o t f).
Proof.
  induction vs as [|v vs IH];
    intros us pre first n nd tv o t f Q E Hlen Hsrc HQ HE.
  { destruct us; [|done]. apply wp_ret, HQ. }
  destruct us as [|u us]; [done|]. injection Hlen as Hlen.
  cbn [copy_n_from length]. apply wp_bind. unfold copy_assign_from.
  apply wp_bind. eapply (wp_load_other _ _ v).
  { rewrite <-(Nat.add_0_r first). by apply Hsrc. }
  apply wp_bind. eapply (wp_load _ _ _ u); wsimpl; [done| |].
  { rewrite fmap_cons, <-app_comm_cons. by apply list_lookup_middle. }
  apply wp_bind, wp_may_throw.
  - intros o'. eapply wp_write; wsimpl; [done|len|].
    rewrite fmap_cons, <-app_comm_cons, insert_middle.
    replace (pre ++ Obj v :: (Obj <$> us) ++ post)
      with ((pre ++ [Obj v]) ++ (Obj <$> us) ++ post)
      by (by rewrite <-app_assoc).
    replace (length pre + 1) with (length (pre ++ [Obj v])) by len.
    apply IH; [done| | |].
    + intros j' v' Hj. replace (S first + j') with (first + S j') by lia.
      by apply Hsrc.
    + intros o''. specialize (HQ o''). conclude HQ.
      by rewrite fmap_cons, <-app_assoc.
    + intros o'' m Hm.
      assert (S m < length (v :: vs)) as Hm' by (simpl; lia).
      specialize (HE o'' (S m) Hm'). conclude HE.
      simpl. by rewrite <-app_assoc.
  - intros o'. specialize (HE o' 0). simpl in HE. apply HE. lia.
Qed.

Lemma drop_take_drop {A} (l : list A) m n :
  m ≤ n → drop m (take n l) ++ drop n l = drop m l.
Proof.
  intros Hmn. rewrite <-(take_drop n l) at 3.
  rewrite drop_app. f_equal.
  destruct (decide (n ≤ length l)).
  - rewrite length_take, Nat.min_l by done.
    by replace (m - n) with 0 by lia.
  - rewrite (drop_ge l n) by lia. by rewrite drop_nil.
Qed.

(** The ways out of a copy assignment from another vector: done, with or
    without a new buffer; a failed allocation or a failed copy into the new
    buffer; a failure while the old buffer is written. *)
Lemma wp_copy_assignment xs k ys j nd tv o t f Q E :
  representable (length xs) → representable (length ys) →
  (length xs + k < length ys → ∀ o' t',
   Q tt (MkWorld (mk_vector ys 0) None tv o' t'
           (f ++ [replicate (length xs + k) Raw]))) →
  (length ys ≤ length xs + k → ∀ o' t',
   Q tt (MkWorld (mk_vector ys (length xs + k - length ys)) nd tv o' t' f)) →
  (length xs + k < length ys → ∀ o' t',
   E (MkWorld (mk_vector xs k) nd tv o' t' f)
   ∧ E (MkWorld (mk_vector xs k) None tv o' t'
          (f ++ [replicate (length ys) Raw]))) →
  (length ys ≤ length xs + k → ∀ o' t' m, m ≤ length xs → m ≤ length ys →
   E (MkWorld (mk_vector (take m ys ++ drop m xs) k) nd tv o' t' f)) →
  wp (copy_assignment (Other (mk_vector ys j))) Q E
    (MkWorld (mk_vector xs k) nd tv o t f).
Proof.
  intros Hxs Hys Hnew Hold Efresh Eold. unfold copy_assignment, mk_vector.
  apply wp_bind, wp_Capacity. cbn [this data_ size_].
  rewrite length_app, length_fmap, length_replicate.
  destruct (decide (length xs + k < length ys)) as [Hlt|Hge].
  - apply wp_with_new_data; [|intros o'; by apply Efresh].
    intros o1. apply wp_bind.
    apply (wp_uninitialized_copy_n_from _ _ _ _ _ [] [] ys); [done|done| | | |].
    + intros i v. apply (mk_vector_lookup ys j).
    + simpl. by rewrite app_nil_r.
    + intros o2. wsimpl. simpl. rewrite app_nil_r.
      apply wp_bind, wp_ret, wp_bind, wp_Size. wsimpl.
      apply wp_bind. eapply wp_Swap_new_data; [done|]. wsimpl.
      apply wp_bind, wp_set_size. wsimpl.
      apply wp_bind, wp_ret.
      eapply (wp_destroy_n_at NewData _ _ [] xs (replicate k Raw)); [done..|].
      wsimpl. simpl.
      eapply wp_deallocate; [done|]. wsimpl.
      specialize (Hnew Hlt o2). unfold mk_vector in Hnew. simpl in Hnew.
      rewrite app_nil_r in Hnew. rewrite <-replicate_add. apply Hnew.
    + intros o2 evs. wsimpl. simpl.
      eapply wp_deallocate; [done|]. wsimpl.
      rewrite app_nil_r. by apply Efresh.
  - assert (length ys ≤ length xs + k) as Hle by lia.
    apply wp_bind, wp_Size. wsimpl.
    set (m := Nat.min (length xs) (length ys)).
    replace (Obj <$> xs)
      with ((Obj <$> take m xs) ++ (Obj <$> drop m xs))
      by (by rewrite <-fmap_app, take_drop).
    assert (length (take m ys) = m) as Hmy by (rewrite length_take; lia).
    assert (length (take m xs) = m) as Hmx by (rewrite length_take; lia).
    rewrite <-Hmy at 1. rewrite <-app_assoc.
    apply wp_bind.
    apply (wp_copy_n_from (mk_vector ys j) _ (take m ys) (take m xs) []);
      [lia| | |].
    + intros i v Hi. apply mk_vector_lookup.
      by apply lookup_take_Some in Hi as [? ?].
    + intros o1. simpl app. apply wp_bind.
      destruct (decide (length xs < length ys)) as [Hgrow|Hshrink].
      * assert (m = length xs) as Hm by lia.
        rewrite size_sub_fits by (lia || done).
        rewrite (drop_ge xs m) by lia. simpl.
        replace (replicate k Raw)
          with (replicate (length ys - m) (@Raw T)
                  ++ replicate (length xs + k - length ys) Raw)
          by (rewrite <-replicate_add; f_equal; lia).
        eapply (wp_uninitialized_copy_n_from _ _ _ _ _
                  (Obj <$> take m ys) _ (drop m ys));
          [len|by rewrite length_drop| |done| |].
        -- intros i v Hi. rewrite lookup_drop in Hi.
           replace (m + i) with (0 + (m + i)) by lia.
           by apply (mk_vector_lookup ys j).
        -- intros o2. wsimpl. simpl. apply wp_set_size. wsimpl.
           specialize (Hold Hle o2
             (t ++ constructions Data m 0 (length ys - m))).
           unfold mk_vector in Hold. conclude Hold. f_equal.
           rewrite (assoc_L (++)), <-fmap_app, take_drop. done.
        -- intros o2 evs. wsimpl. simpl.
           assert (m ≤ length xs) as Hm1 by lia.
           assert (m ≤ length ys) as Hm2 by lia.
           specialize (Eold Hle o2 (t ++ evs) m Hm1 Hm2).
           rewrite (drop_ge xs m), app_nil_r in Eold by lia.
           unfold mk_vector in Eold. rewrite Hmy in Eold.
           conclude Eold. rewrite <-replicate_add, Hm.
           do 4 f_equal. lia.
      * assert (m = length ys) as Hm by lia.
        rewrite size_sub_fits by (lia || done).
        rewrite (take_ge ys m) by lia.
        replace (0 + length ys) with (length (Obj <$> ys)) by len.
        eapply (wp_destroy_n_at Data _ _ (Obj <$> ys) (drop m xs));
          [done|rewrite length_drop; lia|done|].
        wsimpl. apply wp_set_size. wsimpl.
        specialize (Hold Hle o1
          (t ++ destroy_events Data (length (Obj <$> ys))
                  (length xs - length ys))).
        unfold mk_vector in Hold. conclude Hold.
        rewrite <-replicate_add. do 4 f_equal. lia.
    + intros o1 i Hi. simpl app.
      assert (i < m) as Him by lia.
      assert (i ≤ length xs) as Hix by lia.
      assert (i ≤ length ys) as Hiy by lia.
      specialize (Eold Hle o1 (t ++ [Throw]) i Hix Hiy).
      unfold mk_vector in Eold. conclude Eold.
      f_equal. f_equal.
      * rewrite <-(drop_take_drop xs i m) at 1 by lia.
        rewrite take_take, Nat.min_l by lia.
        by rewrite !fmap_app, <-!app_assoc.
      * rewrite length_app, length_take, length_drop. lia.
Qed.

(** X14.  [*this = other]: assigning a vector to itself changes nothing; after an
    assignment from another vector the elements are those of [other].  When
    [other] holds more elements than the buffer has slots, the new buffer
    has exactly [other.size_] slots and the old one is given back with every
    element destroyed; otherwise the buffer stays and nothing is given
    back.  The two sizes are numbers that [size_t] can hold. *)
Theorem copy_assignment_takes_the_elements xs k ys j nd tv o t f :
  representable (length xs) → representable (length ys) →
  let w := MkWorld (mk_vector xs k) nd tv o t f in
  copy_assignment This w = Ret tt w
  ∧ match copy_assignment (Other (mk_vector ys j)) w with
    | Ret _ w' =>
        this w' = mk_vector ys (Nat.max (length xs + k) (length ys) - length ys)
        ∧ (length xs + k < length ys →
           freed w' = f ++ [replicate (length xs + k) Raw])
        ∧ (length ys ≤ length xs + k → freed w' = f ∧ new_data w' = nd)
    | Exc _ => false ∈ o
    | Fault _ => False
    end.
Proof.
  intros Hxs Hys w. split; [done|].
  apply wp_total, wp_copy_assignment; try done.
  - intros Hlt o' t'. simpl.
    replace (Nat.max (length xs + k) (length ys) - length ys) with 0 by lia.
    split_and!; [done|done|lia].
  - intros Hle o' t'. simpl.
    replace (Nat.max (length xs + k) (length ys) - length ys)
      with (length xs + k - length ys) by lia.
    split_and!; [done|lia|done].
Qed.

(** X15.  A copy assignment that throws.  When it had to take a new buffer the
    vector is what it was, and the new buffer, if it was allocated, has been
    given back with no object left in it.  When it wrote into the old
    buffer the size and the capacity are what they were and the invariant
    holds; for some index [m], the elements before [m] are those of [other]
    and the elements behind [m] are the old ones.  What the element at [m]
    holds is left open: if it is the assignment to it that threw, that is
    up to [T]. *)
Theorem failed_copy_assignment_keeps_a_valid_vector xs k ys j nd tv o t f :
  representable (length xs) → representable (length ys) →
  match copy_assignment (Other (mk_vector ys j))
          (MkWorld (mk_vector xs k) nd tv o t f) with
  | Ret _ _ => True
  | Exc w' =>
      false ∈ o
      ∧ (length xs + k < length ys →
         this w' = mk_vector xs k
         ∧ (freed w' = f ∨ freed w' = f ++ [replicate (length ys) Raw]))
      ∧ (length ys ≤ length xs + k →
         freed w' = f
         ∧ ∃ zs m, this w' = mk_vector zs k
             ∧ length zs = length xs
             ∧ m ≤ length xs ∧ m ≤ length ys
             ∧ take m zs = take m ys
             ∧ drop (S m) zs = drop (S m) xs
             ∧ invariant (this w') = true)
  | Fault _ => False
  end.
Proof.
  intros Hxs Hys.
  apply wp_elim with (Q := λ _ _, True), wp_copy_assignment; try done.
  - intros Hlt o' t'. simpl. split.
    + split; [by eauto|lia].
    + split; [by eauto|lia].
  - intros Hle o' t' m Hmx Hmy. simpl. split; [lia|].
    intros _. split; [done|].
    exists (take m ys ++ drop m xs), m.
    assert (length (take m ys) = m) as Hm by (rewrite length_take; lia).
    split_and!; [done| |done|done| | |].
    + rewrite length_app, length_take, length_drop. lia.
    + by rewrite take_app_length'.
    + rewrite drop_app_ge by lia. rewrite Hm, drop_drop. f_equal. lia.
    + apply invariant_mk_vector.
Qed.

(** ** [Swap], move assignment and element access *)

(** X17.  [Swap] and the move assignment exchange the buffers and the sizes of the
    two vectors, whatever they hold, and do nothing else; a move assignment
    of a vector to itself does nothing.  What [*this] held is then
    destroyed, each element once, when the other vector is. *)
Theorem move_assignment_hands_the_elements_over xs k (other : Vector) w :
  this w = mk_vector xs k →
  let w' := MkWorld other (new_data w) (temp_val w) (oracle w) (trace w)
              (freed w) in
  move_assignment (Other other) w = Ret (Other (mk_vector xs k)) w'
  ∧ Swap other w = Ret (mk_vector xs k) w'
  ∧ (other' ← Swap other; Swap other') w = Ret other w
  ∧ move_assignment This w = Ret This w
  ∧ destructor
      (MkWorld (mk_vector xs k) (new_data w) (temp_val w) (oracle w) (trace w)
         (freed w))
    = Ret tt
        (MkWorld (MkVector [] (length xs)) (new_data w) (temp_val w)
           (oracle w) (trace w ++ destroy_events Data 0 (length xs))
           (freed w ++ [replicate (length xs + k) Raw])).
Proof.
  intros Hthis w'. destruct w as [th nd tv o t f]. simpl in Hthis. subst th.
  split_and!; [by destruct other..|done|apply destructor_spec].
Qed.

(** X18.  [operator[]] hands out the element at [index] when [index < size_] and
    fails its assertion for every other index, also for one within the
    capacity; [PopBack] on an empty vector fails its assertion.  Neither
    touches the vector. *)
Theorem access_is_checked_against_the_size xs k index nd tv o t f :
  let w := MkWorld (mk_vector xs k) nd tv o t f in
  (p ← subscript index; load p) w
  = match xs !! index with
    | Some v => Ret v w
    | None => Fault AssertionFailure
    end
  ∧ (xs = [] → PopBack w = Fault AssertionFailure).
Proof.
  intros w. split.
  - unfold mbind, M_bind, subscript, mbind, M_bind, Size, assert. simpl.
    destruct (xs !! index) as [v|] eqn:Hv.
    + rewrite bool_decide_eq_true_2 by (by eapply lookup_lt_Some).
      simpl. unfold load, read, mbind, M_bind. simpl.
      rewrite lookup_app_l by (rewrite length_fmap; by eapply lookup_lt_Some).
      by rewrite list_lookup_fmap, Hv.
    + rewrite bool_decide_eq_false_2; [done|].
      apply lookup_ge_None in Hv. lia.
  - by intros ->.
Qed.

(** ** [Reserve] and [Resize] beyond the capacity *)

(** X2.  [Reserve(n)] with [n] above the capacity, in either version of the
    class: the new buffer has exactly [n] slots and holds the elements; each
    element has been transferred, by a move if [T] has a move constructor
    that cannot throw or cannot be copied and by a copy otherwise, and then
    destroyed in the old buffer; the old buffer has been given back with no
    object left in it. *)
Theorem Reserve_takes_a_buffer_of_the_size_asked reserve xs k n nd tv o t f :
  reserve = Reserve ∨ reserve = Part000.Reserve →
  length xs + k < n →
  match reserve n (MkWorld (mk_vector xs k) nd tv o t f) with
  | Ret _ w' =>
      this w' = mk_vector xs (n - length xs)
      ∧ length (data_ (this w')) = n
      ∧ trace w' = t ++ Allocate n :: transfer_events 0 0 (length xs)
                     ++ destroy_events Data 0 (length xs)
      ∧ freed w' = f ++ [replicate (length xs + k) Raw]
      ∧ new_data w' = None
  | Exc _ => false ∈ o
  | Fault _ => False
  end.
Proof.
  intros Hreserve Hlt.
  assert (reserve = Reserve) as ->
    by (destruct Hreserve as [-> | ->]; [done|apply Part000_Reserve_same]).
  apply wp_total, wp_Reserve; try done; [lia|].
  intros _ o'. simpl. split_and!; [done|len|done..].
Qed.

(** The tail that [Resize] constructs when there is room for it. *)
Lemma wp_value_construct_tail n xs k nd tv o t f Q E :
  length xs < n → n ≤ length xs + k → representable n →
  (∀ o', Q tt
     (MkWorld
        (mk_vector (xs ++ replicate (n - length xs) value_initialized)
           (length xs + k - n))
        nd tv o' (t ++ construct_events (length xs) 0 (n - length xs)) f)) →
  (∀ o' t', E (MkWorld (mk_vector xs k) nd tv o' t' f)) →
  wp (uninitialized_value_construct_n (ptr_add begin (length xs))
        (size_sub n (length xs));;
      set_size n) Q E (MkWorld (mk_vector xs k) nd tv o t f).
Proof.
  intros Hgrow Hfits Hrep HQ HE. unfold mk_vector. wsimpl.
  rewrite size_sub_fits by (lia || done).
  replace (replicate k Raw)
    with (replicate (n - length xs) (@Raw T)
            ++ replicate (length xs + k - n) Raw)
    by (rewrite <-replicate_add; f_equal; lia).
  apply wp_bind. unfold uninitialized_value_construct_n.
  replace (0 + length xs) with (length (Obj <$> xs)) by len.
  apply (wp_value_construct_loop (Obj <$> xs) _ _ 0).
  - intros o'. apply wp_set_size. wsimpl.
    specialize (HQ o'). unfold mk_vector in HQ. conclude HQ.
    f_equal; [f_equal|].
    + by rewrite fmap_app, <-app_assoc.
    + len.
    + by rewrite length_fmap.
  - intros o' t'. specialize (HE o' t'). unfold mk_vector in HE.
    conclude HE. rewrite <-replicate_add. do 4 f_equal. lia.
Qed.

(** The ways out of a growing [Resize], in either version. *)
Lemma wp_Resize_grows resize n xs k nd tv o t f Q E :
  resize = Resize ∨ resize = Part000.Resize →
  length xs < n → representable n →
  (∀ nd' o' t' f', Q tt
     (MkWorld
        (mk_vector (xs ++ replicate (n - length xs) value_initialized)
           (Nat.max (length xs + k) n - n))
        nd' tv o' t' f')) →
  (∀ xs' k' nd' o' t' f', xs' = xs ∨ interrupted xs xs' →
     E (MkWorld (mk_vector xs' k') nd' tv o' t' f')) →
  wp (resize n) Q E (MkWorld (mk_vector xs k) nd tv o t f).
Proof.
  intros Hresize Hgrow Hrep HQ HE.
  assert (∀ k0 nd0 o0 t0 f0, n ≤ length xs + k0 →
            Nat.max (length xs + k) n = length xs + k0 →
            wp (uninitialized_value_construct_n (ptr_add begin (length xs))
                  (size_sub n (length xs));;
                set_size n) Q E
              (MkWorld (mk_vector xs k0) nd0 tv o0 t0 f0)) as Htail.
  { intros k0 nd0 o0 t0 f0 Hfits Hmax.
    apply wp_value_construct_tail; [done..| |].
    - intros o'. rewrite <-Hmax. apply HQ.
    - intros o' t'. apply HE. by left. }
  destruct Hresize as [-> | ->].
  - unfold Resize.
    apply wp_bind, wp_Capacity. simpl.
    rewrite length_app, length_fmap, length_replicate.
    destruct (decide (length xs + k < n)) as [Hlt|Hge].
    + apply wp_bind, wp_Reserve; [lia| | |].
      * intros _ o'. apply wp_bind, wp_Size. simpl.
        rewrite decide_True by done. apply Htail; lia.
      * intros _ o'. apply HE. by left.
      * intros _ o' t' xs' Hxs'. apply HE. by right.
    + apply wp_bind, wp_ret, wp_bind, wp_Size. simpl.
      rewrite decide_True by done. apply Htail; lia.
  - unfold Part000.Resize.
    apply wp_bind, wp_Size. simpl.
    rewrite decide_False, decide_True by lia.
    rewrite Part000_Reserve_same.
    apply wp_bind, wp_Reserve.
    + intros Hfits. apply Htail; lia.
    + intros Hlt o'. apply Htail; lia.
    + intros _ o'. apply HE. by left.
    + intros _ o' t' xs' Hxs'. apply HE. by right.
Qed.

(** X3.  [Resize(n)] above the size, in either version of the class: the old
    elements stay, followed by value-initialized ones up to [n]; the
    capacity is the larger of the old one and [n].  If it throws, the size
    is what it was and no part of the new tail is left; the elements are
    what they were if [T] can be copied or has a move constructor that
    cannot throw.  [n] is a number that [size_t] can hold. *)
Theorem Resize_appends_value_initialized_elements resize n xs k nd tv o t f :
  resize = Resize ∨ resize = Part000.Resize →
  length xs < n → representable n →
  match resize n (MkWorld (mk_vector xs k) nd tv o t f) with
  | Ret _ w' =>
      this w'
      = mk_vector (xs ++ replicate (n - length xs) value_initialized)
          (Nat.max (length xs + k) n - n)
      ∧ size_ (this w') = n
      ∧ length (data_ (this w')) = Nat.max (length xs + k) n
  | Exc w' =>
      false ∈ o
      ∧ ∃ xs' k', this w' = mk_vector xs' k'
          ∧ length xs' = length xs
          ∧ (is_nothrow_move_constructible || is_copy_constructible = true →
             xs' = xs)
  | Fault _ => False
  end.
Proof.
  intros Hresize Hgrow Hrep.
  apply wp_elim, (wp_Resize_grows resize); try done.
  - intros nd' o' t' f'. simpl. split_and!; [done|len|len].
  - intros xs' k' nd' o' t' f' Hxs'. simpl. exists xs', k'.
    destruct Hxs' as [->|Hxs']; [done|].
    split_and!; [done|by eapply interrupted_length|].
    intros Htraits. by apply interrupted_unchanged.
Qed.

(** ** Insertion: the capacity afterwards, and failures *)

(** The ways out of [Emplace] at any position. *)
Lemma wp_Emplace_exact xs k p v nd tv o t f Q E :
  p ≤ length xs →
  representable (length xs + k) →
  (k = 0 → representable (length xs * 2)) →
  (k = 0 → ∀ o' t', Q (Data, p)
     (MkWorld
        (mk_vector (take p xs ++ v :: drop p xs)
           (grown (length xs) - length xs - 1))
        None tv o' t' (f ++ [replicate (length xs) Raw]))) →
  (0 < k → ∀ tv' o' t', Q (Data, p)
     (MkWorld (mk_vector (take p xs ++ v :: drop p xs) (k - 1))
        nd tv' o' t' f)) →
  (∀ tv' o' t', E (MkWorld (mk_vector xs k) nd tv' o' t' f)) →
  (k = 0 → ∀ o' t' xs', xs' = xs ∨ interrupted xs xs' →
     E (MkWorld (mk_vector xs' 0) None tv o' t'
          (f ++ [replicate (grown (length xs)) Raw]))) →
  (0 < k → p < length xs → is_nothrow_move_assignable = false →
   ∀ w', E w') →
  wp (Emplace (Data, p) v) Q E (MkWorld (mk_vector xs k) nd tv o t f).
Proof.
  intros Hp Hcap Hdouble Hfull Hroom Esame Etransfer Eassign.
  assert (xs = take p xs ++ drop p xs) as Hxs by (by rewrite take_drop).
  assert (p = length (take p xs)) as Hlen by (rewrite length_take; lia).
  remember (take p xs) as xs1 eqn:H1. remember (drop p xs) as xs2 eqn:H2.
  clear H1 H2 Hp. subst xs p.
  rewrite length_app in *.
  destruct k as [|k].
  - specialize (Hdouble eq_refl).
    apply wp_Emplace_reallocating; simpl.
    + done.
    + destruct (decide (length xs1 + length xs2 = 0)) as [->|Hnz];
        [apply representable_1|rep].
    + intros o'. by apply Hfull.
    + intros o'. apply Esame.
    + intros o' t' xs' Hxs'. by apply Etransfer.
  - destruct xs2 as [|y xs2 _] using rev_ind.
    + rewrite app_nil_r in *.
      apply wp_Emplace_at_end_exact; [rep| |].
      * intros o'. specialize (Hroom ltac:(lia) tv o'
          (t ++ [Construct (Data, length xs1)])).
        simpl in Hroom. rewrite Nat.sub_0_r in Hroom.
        by rewrite <-(app_nil_r (xs1 ++ [v])), <-app_assoc.
      * intros o'. apply Esame.
    + rewrite length_app in *. simpl length in *.
      apply wp_Emplace_in_the_middle_exact; [rep| | |].
      * intros o'. specialize (Hroom ltac:(lia) None o'
          (t ++ insertion_events (length xs1)
                  (length xs1 + length xs2 + 1))).
        simpl in Hroom. by rewrite Nat.sub_0_r in Hroom.
      * intros tv' o' t'. apply Esame.
      * intros Hthrows mid tv' o' t' _. apply Eassign; [lia|lia|done].
Qed.

Lemma wp_EmplaceBack_exact xs k v nd tv o t f Q E :
  representable (length xs + k) →
  (k = 0 → representable (length xs * 2)) →
  (k = 0 → ∀ o' t', Q (Data, length xs)
     (MkWorld (mk_vector (xs ++ [v]) (grown (length xs) - length xs - 1))
        None tv o' t' (f ++ [replicate (length xs) Raw]))) →
  (0 < k → ∀ tv' o' t', Q (Data, length xs)
     (MkWorld (mk_vector (xs ++ [v]) (k - 1)) nd tv' o' t' f)) →
  (∀ tv' o' t', E (MkWorld (mk_vector xs k) nd tv' o' t' f)) →
  (k = 0 → ∀ o' t' xs', xs' = xs ∨ interrupted xs xs' →
     E (MkWorld (mk_vector xs' 0) None tv o' t'
          (f ++ [replicate (grown (length xs)) Raw]))) →
  wp (EmplaceBack v) Q E (MkWorld (mk_vector xs k) nd tv o t f).
Proof.
  intros Hcap Hdouble Hfull Hroom Esame Etransfer. unfold EmplaceBack.
  apply wp_bind, wp_end. simpl. apply wp_bind.
  apply wp_Emplace_exact; try done.
  - intros Hk o' t'. apply wp_ret.
    rewrite firstn_all, drop_all. by apply Hfull.
  - intros Hk tv' o' t'. apply wp_ret.
    rewrite firstn_all, drop_all. by apply Hroom.
  - lia.
Qed.

(** X4.  An insertion that returns, at any position and by any of the member
    functions of either version of the class, the earlier [PushBack] with
    any object as its argument, also an element of the vector.  With room to
    spare the
    buffer stays: the capacity is what it was and nothing is given back.
    With the buffer full, the new buffer has one slot if the vector was
    empty and twice as many as the old one otherwise, and the old buffer is
    given back with every element destroyed.  The capacity, and twice the
    size when the buffer is full, are numbers that [size_t] can hold. *)
Theorem insertion_doubles_a_full_buffer xs k p v nd tv o t f :
  p ≤ length xs →
  representable (length xs + k) →
  (k = 0 → representable (length xs * 2)) →
  let w := MkWorld (mk_vector xs k) nd tv o t f in
  regrown xs k f o (Emplace (Data, p) v w)
  ∧ regrown xs k f o (Insert (Data, p) v w)
  ∧ regrown xs k f o (EmplaceBack v w)
  ∧ regrown xs k f o (PushBack v w)
  ∧ regrown xs k f o (Part000.EmplaceBack v w)
  ∧ (∀ how value, is_Some (referred value xs) →
       regrown xs k f o (Part000.PushBack how value w)).
Proof.
  intros Hp Hcap Hdouble w.
  assert (0 < grown (length xs) - length xs) as Hgrown
    by (unfold grown; destruct (decide (length xs = 0)); lia).
  assert (regrown xs k f o (Emplace (Data, p) v w)) as HEmplace.
  { apply wp_total, wp_Emplace_exact; try done.
    - intros -> o' t'. simpl. split; [|done].
      rewrite !length_app, length_fmap, length_replicate, length_app.
      simpl. rewrite length_take, length_drop. lia.
    - intros Hk tv' o' t'. simpl. rewrite !decide_False by lia.
      split; [|done].
      rewrite !length_app, length_fmap, length_replicate, length_app.
      simpl. rewrite length_take, length_drop. lia. }
  assert (regrown xs k f o (EmplaceBack v w)) as HEmplaceBack.
  { apply wp_total, wp_EmplaceBack_exact; try done.
    - intros -> o' t'. simpl. split; [len|done].
    - intros Hk tv' o' t'. simpl. rewrite !decide_False by lia.
      split; [len|done]. }
  split_and!; [done|done|done| | |].
  - unfold PushBack, regrown, mbind, M_bind. unfold regrown in HEmplaceBack.
    by destruct (EmplaceBack v w).
  - apply wp_total, wp_Part000_EmplaceBack_exact; try done.
    + intros -> o' t'. simpl. split; [len|done].
    + intros Hk o' t'. simpl. rewrite !decide_False by lia.
      split; [len|done].
  - intros how value Hvalue.
    apply wp_total, wp_Part000_PushBack_exact; try done.
    + intros -> u o' t' _. simpl. split; [len|done].
    + intros Hk u o' t' _. simpl. rewrite !decide_False by lia.
      split; [|done].
      assert (length (read_from how value xs u) = length xs) as Hlen
        by (unfold read_from; destruct value, how; by rewrite ?length_insert).
      rewrite !length_app, length_fmap, length_replicate, length_app, Hlen.
      simpl. lia.
Qed.

(** X5.  An insertion with room to spare that throws, at the end, or before
    an element when neither the move constructor nor the move assignment of
    [T] can throw: the only step that can fail is the construction of the
    new value; the vector is what it was and nothing has been allocated or
    given back.  (When a move of [T] can throw, an element is the source or
    the target of the move that failed, and what it then holds is up to
    [T].) *)
Theorem failed_insertion_in_place_changes_nothing xs k p v nd tv o t f :
  p ≤ length xs → 0 < k →
  representable (length xs + k) →
  p = length xs
  ∨ is_nothrow_move_constructible = true ∧ is_nothrow_move_assignable = true →
  match Emplace (Data, p) v (MkWorld (mk_vector xs k) nd tv o t f) with
  | Ret it w' => it = (Data, p)
  | Exc w' =>
      false ∈ o
      ∧ this w' = mk_vector xs k ∧ freed w' = f ∧ new_data w' = nd
  | Fault _ => False
  end.
Proof.
  intros Hp Hk Hcap Hsafe.
  apply wp_elim, wp_Emplace_exact; try done; try lia.
  intros _ Hlt Hthrows. destruct Hsafe as [->|[_ Hnothrow]]; [lia|congruence].
Qed.



(** ** Appends that throw *)



(** X7.  [PushBack] of the earlier version, when it throws, whatever object
    it was given, unless that is an element of the vector passed with
    [std::move]: the size and the capacity are what they were.  Either the
    elements are what they were (or, for a type that is only moved and whose
    move constructor threw, the first of them moved-from) and the new
    buffer, if one was allocated, has been given back with no object left
    in it; or it is the constructor of the new element that threw, after
    the transfer: then the old buffer holds what the transfer has left,
    moved-from elements if it moves, and the new buffer has been given back
    with the transferred elements still in it. *)
Theorem earlier_PushBack_constructs_the_new_element_last
    how value xs k nd tv o t f :
  representable (length xs + k) →
  (k = 0 → representable (length xs * 2)) →
  is_Some (referred value xs) →
  not_moved_from how value →
  match Part000.PushBack how value (MkWorld (mk_vector xs k) nd tv o t f) with
  | Ret _ _ => True
  | Exc w' =>
      false ∈ o
      ∧ size_ (this w') = length xs
      ∧ length (data_ (this w')) = length xs + k
      ∧ ((∃ xs', this w' = mk_vector xs' k
            ∧ (is_nothrow_move_constructible || is_copy_constructible = true
               → xs' = xs))
         ∧ (freed w' = f ∨ ∃ c, freed w' = f ++ [replicate c Raw])
         ∨ k = 0
           ∧ this w' = mk_vector (transferred xs) 0
           ∧ freed w'
             = f ++ [(Obj <$> xs)
                       ++ replicate (grown (length xs) - length xs) Raw])
  | Fault _ => False
  end.
Proof.
  intros Hcap Hdouble Hvalue _.
  apply wp_elim with (Q := λ _ _, True).
  apply wp_Part000_PushBack_exact; try done.
  - intros o' t'. simpl. split_and!; [done|len|].
    left. split; [by eauto|by left].
  - intros -> o' t' xs' Hxs'. simpl.
    assert (length xs' = length xs) as Hlen
      by (destruct Hxs' as [->|?]; [done|by eapply interrupted_length]).
    split_and!; [done|len|].
    left. split; [|by eauto]. exists xs'. split; [done|].
    destruct Hxs' as [->|Hxs']; [done|].
    intros ?. by apply interrupted_unchanged.
  - intros -> o' t'. simpl. rewrite length_transferred.
    split_and!; [done| |by right].
    rewrite length_app, length_fmap, length_transferred. simpl. lia.
Qed.

(** X21.  [PushBack] of the earlier version on a full vector, given one of
    the elements of that vector, [S.PushBack(S[i])], for a type whose
    elements are transferred by move: the transfer has moved the element
    out before the new element is constructed from it, so that the element
    appended holds the moved-from value, not the value of [S[i]].  This is
    so for both overloads; the old elements arrive in the new buffer as they
    were.  [PushBack] of src/vector.h constructs the new element first and
    appends the value.  Twice the size is a number that [size_t] can
    hold. *)
Theorem earlier_PushBack_of_an_own_element how xs i x nd tv o t f :
  representable (length xs * 2) →
  xs !! i = Some x →
  transfers_by_move = true →
  let w := MkWorld (mk_vector xs 0) nd tv o t f in
  match Part000.PushBack how (Part000.ElementAt i) w with
  | Ret _ w' =>
      this w'
      = mk_vector (xs ++ [moved_from x]) (grown (length xs) - length xs - 1)
  | Exc _ => false ∈ o
  | Fault _ => False
  end
  ∧ match PushBack x w with
    | Ret _ w' => ∃ k', this w' = mk_vector (xs ++ [x]) k'
    | Exc _ => false ∈ o
    | Fault _ => False
    end.
Proof.
  intros Hdouble Hi Hmove w.
  assert (representable (length xs + 0)) as Hcap by rep.
  split.
  - apply wp_total, wp_Part000_PushBack_exact; try done; [|lia].
    intros _ v o' t'. simpl. unfold transferred.
    rewrite Hmove, list_lookup_fmap, Hi. simpl. by intros [= <-].
  - apply wp_total, wp_PushBack; try done. simpl. by eauto.
Qed.

(** ** Sequences of calls *)

Lemma capacity_after_bounds n :
  n ≤ capacity_after n ≤ n * 2
  ∧ (0 < n → capacity_after n < n * 2 ∧ ∃ e, capacity_after n = 2 ^ e).
Proof.
  induction n as [|n [[IH1 IH2] IH3]]; [simpl; split; lia|].
  cbn [capacity_after]. unfold grown.
  destruct (decide (capacity_after n = n)) as [Heq|Hne].
  - destruct (decide (n = 0)) as [->|Hnz].
    + split; [lia|]. intros _. split; [lia|]. by exists 0.
    + split; [lia|]. intros _. split; [lia|].
      destruct IH3 as [_ [e He]]; [lia|].
      exists (S e). rewrite Nat.pow_succ_r', <-He. lia.
  - split; [lia|]. intros _.
    destruct IH3 as [? [e He]]; [lia|]. split; [lia|]. by exists e.
Qed.


Lemma wp_push_all vs : ∀ xs k nd tv o t f Q E,
  length xs + k = capacity_after (length xs) →
  representable ((length xs + length vs) * 2) →
  (∀ nd' tv' o' t' f', Q tt
     (MkWorld
        (mk_vector (xs ++ vs)
           (capacity_after (length xs + length vs)
            - (length xs + length vs)))
        nd' tv' o' t' f')) →
  (∀ w', E w') →
  wp (push_all vs) Q E (MkWorld (mk_vector xs k) nd tv o t f).
Proof.
  induction vs as [|v vs IH]; intros xs k nd tv o t f Q E Hcap Hrep HQ HE.
  { apply wp_ret. specialize (HQ nd tv o t f).
    rewrite app_nil_r in HQ. simpl in HQ. rewrite Nat.add_0_r in HQ.
    by replace (capacity_after (length xs) - length xs) with k in HQ by lia. }
  simpl in Hrep. cbn [push_all].
  pose proof (capacity_after_bounds (length xs)) as [[? ?] _].
  assert (∀ k' nd' tv' o' t' f',
            length xs + 1 + k' = capacity_after (length xs + 1) →
            wp (push_all vs) Q E
              (MkWorld (mk_vector (xs ++ [v]) k') nd' tv' o' t' f'))
    as Hnext.
  { intros k' nd' tv' o' t' f' Hk'. apply IH; [len|rep| |done].
    intros nd'' tv'' o'' t'' f''. specialize (HQ nd'' tv'' o'' t'' f'').
    rewrite <-app_assoc, length_app. simpl.
    by replace (length xs + 1 + length vs)
      with (length xs + S (length vs)) by lia. }
  assert (capacity_after (length xs + 1)
          = if decide (capacity_after (length xs) = length xs)
            then grown (length xs) else capacity_after (length xs)) as Hstep
    by (by replace (length xs + 1) with (S (length xs)) by lia).
  assert (length xs < grown (length xs)) as Hgrown
    by (unfold grown; destruct (decide (length xs = 0)); lia).
  apply wp_bind. unfold PushBack.
  apply wp_bind, wp_EmplaceBack_exact; [rep|intros; rep| | |done|done].
  - intros -> o' t'. apply wp_ret, Hnext.
    rewrite Hstep, decide_True by lia. lia.
  - intros Hk tv' o' t'. apply wp_ret, Hnext.
    rewrite Hstep, decide_False by lia. lia.
Qed.

(** X8.  The values [vs] appended one after the other to a vector without
    storage: if no step fails the vector holds [vs], in a buffer whose
    capacity is a power of two, at least the size and less than twice the
    size.  Twice the size is a number that [size_t] can hold. *)
Theorem appending_to_an_empty_vector vs o :
  representable (length vs * 2) →
  match push_all vs (start Vector_default o) with
  | Ret _ w' =>
      this w' = mk_vector vs (capacity_after (length vs) - length vs)
      ∧ length (data_ (this w')) = capacity_after (length vs)
      ∧ length vs ≤ capacity_after (length vs)
      ∧ (vs ≠ [] →
         capacity_after (length vs) < length vs * 2
         ∧ ∃ e, capacity_after (length vs) = 2 ^ e)
  | Exc _ => false ∈ o
  | Fault _ => False
  end.
Proof.
  intros Hrep. pose proof (capacity_after_bounds (length vs)) as [[? ?] ?].
  apply wp_total.
  apply (wp_push_all vs [] 0 None None o [] []); [done|done| |done].
  intros nd' tv' o' t' f'. simpl.
  split_and!; [done|len|done|].
  intros Hvs. destruct vs; [done|]. simpl in *. auto with lia.
Qed.


Lemma wp_push_all_with_room vs : ∀ xs k nd tv o t f Q E,
  length vs ≤ k →
  representable (length xs + k) →
  (∀ tv' o' t', Q tt
     (MkWorld (mk_vector (xs ++ vs) (k - length vs)) nd tv' o' t' f)) →
  (∀ w', E w') →
  wp (push_all vs) Q E (MkWorld (mk_vector xs k) nd tv o t f).
Proof.
  induction vs as [|v vs IH]; intros xs k nd tv o t f Q E Hroom Hrep HQ HE.
  { apply wp_ret. specialize (HQ tv o t).
    by rewrite app_nil_r, Nat.sub_0_r in HQ. }
  simpl in Hroom. cbn [push_all]. apply wp_bind. unfold PushBack.
  apply wp_bind, wp_EmplaceBack_exact; [done|lia|lia| |done|lia].
  intros _ tv' o' t'. apply wp_ret, IH; [lia|rep| |done].
  intros tv'' o'' t''. specialize (HQ tv'' o'' t'').
  rewrite <-app_assoc. simpl.
  by replace (k - 1 - length vs) with (k - S (length vs)) by lia.
Qed.

(** X20.  After [Reserve(n)], appending values while the size stays within
    [n] never takes another buffer: the capacity stays at the larger of [n]
    and the old capacity, and the only buffer given back is the one that
    [Reserve] replaced, if it did.  That capacity is a number that [size_t]
    can hold. *)
Theorem Reserve_makes_room_for_the_appends n vs xs k nd tv o t f :
  length xs + length vs ≤ n →
  representable (Nat.max n (length xs + k)) →
  match (Reserve n;; push_all vs) (MkWorld (mk_vector xs k) nd tv o t f) with
  | Ret _ w' =>
      this w'
      = mk_vector (xs ++ vs)
          (Nat.max n (length xs + k) - (length xs + length vs))
      ∧ length (data_ (this w')) = Nat.max n (length xs + k)
      ∧ freed w'
        = (if decide (length xs + k < n)
           then f ++ [replicate (length xs + k) Raw] else f)
  | Exc _ => false ∈ o
  | Fault _ => False
  end.
Proof.
  intros Hfits Hrep.
  apply wp_total, wp_bind, wp_Reserve; try done.
  - intros Hle. apply wp_push_all_with_room; [lia|rep| |done].
    intros tv' o' t'. simpl. rewrite decide_False by lia.
    replace (Nat.max n (length xs + k)) with (length xs + k) by lia.
    split_and!; [|len|done]. f_equal. lia.
  - intros Hlt o'. apply wp_push_all_with_room; [lia|rep| |done].
    intros tv' o'' t'. simpl. rewrite decide_True by lia.
    replace (Nat.max n (length xs + k)) with n by lia.
    split_and!; [|len|done]. f_equal. lia.
Qed.

End Correctness.

(** * Concrete runs *)

Lemma Resize_destroys_exactly_the_tail_witness :
  ∃ w',
    Resize 0 (start (mk_vector [1; 2; 3; 4; 5]%Z 0) []) = Ret tt w'
    ∧ trace w' = destroy_events Data 0 5
    ∧ this w' = mk_vector [] 5
    ∧ size_ (this w') = 0
    ∧ length (data_ (this w')) = 5.
Proof.
  apply (Resize_destroys_exactly_the_tail [1; 2; 3; 4; 5]%Z 0 0
           (start (mk_vector [1; 2; 3; 4; 5]%Z 0) []) Resize).
  - left. reflexivity.
  - reflexivity.
  - unfold representable, SIZE_MAX. simpl. lia.
  - simpl. lia.
Defined.

Lemma PopBack_destroys_the_last_witness :
  ∃ w',
    PopBack (start (mk_vector [1; 2; 3]%Z 1) []) = Ret tt w'
    ∧ trace w' = [Destroy (Data, 2)]
    ∧ this w' = mk_vector [1; 2]%Z 2
    ∧ size_ (this w') = 2
    ∧ length (data_ (this w')) = 4.
Proof.
  apply (PopBack_destroys_the_last [1; 2; 3]%Z 1
           (start (mk_vector [1; 2; 3]%Z 1) [])).
  - reflexivity.
  - unfold representable, SIZE_MAX. simpl. lia.
  - simpl. lia.
Defined.

Lemma Reserve_capacity_is_monotonic_witness :
  match Reserve 10 (start (mk_vector [1; 2; 3]%Z 0) []) with
  | Ret _ w' =>
      10 ≤ length (data_ (this w'))
      ∧ 3 ≤ length (data_ (this w'))
      ∧ (10 ≤ 3 → w' = start (mk_vector [1; 2; 3]%Z 0) [])
      ∧ size_ (this w') = 3
      ∧ ∃ k', this w' = mk_vector [1; 2; 3]%Z k'
  | Exc _ => false ∈ []
  | Fault _ => False
  end.
Proof.
  apply (Reserve_capacity_is_monotonic [1; 2; 3]%Z 0 10
           (start (mk_vector [1; 2; 3]%Z 0) [])).
  reflexivity.
Defined.


(** A full vector of a type that is transferred by copy: the argument may
    be the vector's first element. *)
Lemma PushBack_appends_the_value_witness :
  let w := start (mk_vector [Tracked 1; Tracked 2] 0) [] in
  match PushBack (Tracked 1) w with
  | Ret _ w' => appended [Tracked 1; Tracked 2] (Tracked 1) w'
  | Exc _ => false ∈ []
  | Fault _ => False
  end
  ∧ (∀ how value,
       holds_until_read [Tracked 1; Tracked 2] 0 how value (Tracked 1) →
       match Part000.PushBack how value w with
       | Ret _ w' => appended [Tracked 1; Tracked 2] (Tracked 1) w'
       | Exc _ => false ∈ []
       | Fault _ => False
       end)
  ∧ match call (CallPushBack (Tracked 1)) w with
    | Ret r w' => r = Nothing ∧ appended [Tracked 1; Tracked 2] (Tracked 1) w'
    | Exc _ => false ∈ []
    | Fault _ => False
    end
  ∧ (∀ emplace, emplace = EmplaceBack ∨ emplace = Part000.EmplaceBack →
       match emplace (Tracked 1) w with
       | Ret r w' =>
           r = (Data, 2) ∧ appended [Tracked 1; Tracked 2] (Tracked 1) w'
       | Exc _ => false ∈ []
       | Fault _ => False
       end)
  ∧ match call (CallEmplaceBack (Tracked 1)) w with
    | Ret r w' =>
        r = Reference (Data, 2)
        ∧ appended [Tracked 1; Tracked 2] (Tracked 1) w'
    | Exc _ => false ∈ []
    | Fault _ => False
    end.
Proof.
  apply (PushBack_appends_the_value [Tracked 1; Tracked 2] 0 (Tracked 1)
           (start (mk_vector [Tracked 1; Tracked 2] 0) [])).
  - reflexivity.
  - unfold representable, SIZE_MAX. simpl. lia.
  - intros _. unfold representable, SIZE_MAX. simpl. lia.
Defined.

(** The run of that witness for [S.PushBack(S[0])] in the earlier version:
    the elements are copied to the new buffer, then the new element is
    copied from the first element, which the old buffer still holds. *)
Example earlier_PushBack_of_an_element_that_is_copied :
  holds_until_read [Tracked 1; Tracked 2] 0
    Part000.ByConstRef (Part000.ElementAt 0) (Tracked 1)
  ∧ Part000.PushBack Part000.ByConstRef (Part000.ElementAt 0)
      (start (mk_vector [Tracked 1; Tracked 2] 0) [])
    = Ret tt
        (MkWorld (mk_vector [Tracked 1; Tracked 2; Tracked 1] 1) None None []
           [Allocate 4; CopyConstruct (NewData, 0) (Data, 0);
            CopyConstruct (NewData, 1) (Data, 1);
            CopyConstruct (NewData, 2) (Data, 0);
            Destroy (Data, 0); Destroy (Data, 1)]
           [[Raw; Raw]]).
Proof. split; [by repeat split|vm_compute; reflexivity]. Qed.


Example Reserve_with_a_throwing_copy :
  Reserve 10 (start (mk_vector [Tracked 1; Tracked 2; Tracked 3] 0) [true; false])
  = Exc (MkWorld (mk_vector [Tracked 1; Tracked 2; Tracked 3] 0) None None []
           [Allocate 10; Throw] [replicate 10 Raw]).
Proof. vm_compute. reflexivity. Qed.


(** C5, as stated, fails for [PushBack]: it is a [void] function. *)
Lemma PushBack_returns_no_reference :
  ¬ ∃ p w',
      call (CallPushBack 7%Z) (start (mk_vector [1; 2]%Z 0) [])
      = Ret (Reference p) w'.
Proof. intros (p & w' & H). vm_compute in H. discriminate H. Qed.

(** ** [Erase] on strings *)

(** C4.  [Erase(begin())] on the strings [one, five, two]: the elements
    behind the position move one slot forward, then the object at the
    position -- the string [five] that has just been moved there -- is
    destroyed, and the vacated last slot is not.  The source says
    [std::destroy_at(data_.GetAddress() + offset)]. *)
Theorem Erase_destroys_the_slot_at_the_position :
  Erase begin (start (mk_vector ["one"; "five"; "two"]%string 0) [])
  = Ret (Data, 0)
      (MkWorld (MkVector [Raw; Obj "two"%string; Obj EmptyString] 2)
         None None []
         [MoveAssign (Data, 0) (Data, 1); MoveAssign (Data, 1) (Data, 2);
          Destroy (Data, 0)] []).
Proof. vm_compute. reflexivity. Qed.

(** C2.  The same call breaks the representation invariant: of the two
    slots that [Size()] counts, the first holds no object, and the slot
    behind them holds one. *)
Theorem Erase_breaks_the_invariant :
  let w := start (mk_vector ["one"; "five"; "two"]%string 0) [] in
  invariant (this w) = true
  ∧ ∃ w', Erase begin w = Ret (Data, 0) w'
      ∧ invariant (this w') = false
      ∧ data_ (this w') !! 0 = Some Raw
      ∧ data_ (this w') !! size_ (this w') = Some (Obj EmptyString).
Proof.
  split; [vm_compute; reflexivity|].
  eexists. split; [vm_compute; reflexivity|].
  split_and!; vm_compute; reflexivity.
Qed.

(** C8.  [Insert(begin(), five)] into [one, two] followed by [Erase] at the
    iterator returned: the iterator [Erase] returns is the position again,
    but the sequence does not hold [one, two] any more, its first slot holds
    no object. *)
Theorem Insert_then_Erase_does_not_restore :
  let w := start (mk_vector ["one"; "two"]%string 1) [] in
  ∃ w', (it ← Insert begin "five"%string; Erase it) w = Ret begin w'
    ∧ this w' = MkVector [Raw; Obj "two"%string; Obj EmptyString] 2
    ∧ this w' ≠ this w.
Proof.
  eexists. split; [vm_compute; reflexivity|].
  split; [reflexivity|]. intros H. discriminate H.
Qed.

(** ** Runs of the theorems on the whole interface *)

Lemma operations_other_than_Erase_keep_the_invariant_witness :
  match call (CallInsert (Data, 1) 5%Z) (start (mk_vector [1; 2; 3]%Z 1) []) with
  | Ret _ w' => invariant (this w') = true
  | Exc _ => false ∈ []
  | Fault _ => False
  end.
Proof.
  apply (operations_other_than_Erase_keep_the_invariant
           (CallInsert (Data, 1) 5%Z) (start (mk_vector [1; 2; 3]%Z 1) [])).
  - reflexivity.
  - unfold representable, SIZE_MAX. simpl. lia.
  - simpl. split; [reflexivity|lia].
Defined.

Lemma Erase_is_right_only_for_the_last_element_witness :
  match Erase (Data, 2) (start (mk_vector ["one"; "five"; "two"]%string 0) []) with
  | Ret it w' =>
      it = (Data, 2)
      ∧ size_ (this w') = 2 + 0
      ∧ (@nil string = [] → this w' = mk_vector ["one"; "five"]%string 1)
      ∧ (@nil string ≠ [] →
         data_ (this w') !! 2 = Some Raw ∧ invariant (this w') = false)
  | Exc _ => false ∈ []
  | Fault _ => False
  end.
Proof.
  apply (Erase_is_right_only_for_the_last_element
           ["one"; "five"]%string "two"%string [] 0
           (start (mk_vector ["one"; "five"; "two"]%string 0) [])).
  - reflexivity.
  - unfold representable, SIZE_MAX. simpl. lia.
Defined.

Lemma Reserve_takes_a_buffer_of_the_size_asked_witness :
  match Reserve 5 (MkWorld (mk_vector [Tracked 1; Tracked 2] 0) None None [] [] []) with
  | Ret _ w' =>
      this w' = mk_vector [Tracked 1; Tracked 2] (5 - 2)
      ∧ length (data_ (this w')) = 5
      ∧ trace w' = [] ++ Allocate 5 :: transfer_events 0 0 2
                     ++ destroy_events Data 0 2
      ∧ freed w' = [] ++ [replicate (2 + 0) Raw]
      ∧ new_data w' = None
  | Exc _ => false ∈ []
  | Fault _ => False
  end.
Proof.
  apply (Reserve_takes_a_buffer_of_the_size_asked Reserve
           [Tracked 1; Tracked 2] 0 5 None None [] [] []).
  - left. reflexivity.
  - simpl. lia.
Defined.

Lemma Resize_appends_value_initialized_elements_witness :
  match Resize 4 (MkWorld (mk_vector [1; 2]%Z 0) None None [] [] []) with
  | Ret _ w' =>
      this w' = mk_vector ([1; 2]%Z ++ replicate (4 - 2) 0%Z) (Nat.max (2 + 0) 4 - 4)
      ∧ size_ (this w') = 4
      ∧ length (data_ (this w')) = Nat.max (2 + 0) 4
  | Exc w' =>
      false ∈ []
      ∧ ∃ xs' k', this w' = mk_vector xs' k'
          ∧ length xs' = 2
          ∧ (true || true = true → xs' = [1; 2]%Z)
  | Fault _ => False
  end.
Proof.
  refine (Resize_appends_value_initialized_elements Resize 4 [1; 2]%Z 0
           None None [] [] [] _ _ _).
  - left. reflexivity.
  - simpl. lia.
  - unfold representable, SIZE_MAX. simpl. lia.
Defined.

Lemma insertion_doubles_a_full_buffer_witness :
  let w := MkWorld (mk_vector [1; 2]%Z 0) None None [] [] [] in
  regrown [1; 2]%Z 0 [] [] (Emplace (Data, 1) 5%Z w)
  ∧ regrown [1; 2]%Z 0 [] [] (Insert (Data, 1) 5%Z w)
  ∧ regrown [1; 2]%Z 0 [] [] (EmplaceBack 5%Z w)
  ∧ regrown [1; 2]%Z 0 [] [] (PushBack 5%Z w)
  ∧ regrown [1; 2]%Z 0 [] [] (Part000.EmplaceBack 5%Z w)
  ∧ (∀ how value, is_Some (referred value [1; 2]%Z) →
       regrown [1; 2]%Z 0 [] [] (Part000.PushBack how value w)).
Proof.
  refine (insertion_doubles_a_full_buffer [1; 2]%Z 0 1 5%Z None None [] [] [] _ _ _).
  - simpl. lia.
  - unfold representable, SIZE_MAX. simpl. lia.
  - intros _. unfold representable, SIZE_MAX. simpl. lia.
Defined.

Lemma failed_insertion_in_place_changes_nothing_witness :
  match Emplace (Data, 1) 5%Z
          (MkWorld (mk_vector [1; 2; 3]%Z 2) None None [false] [] []) with
  | Ret it w' => it = (Data, 1)
  | Exc w' =>
      false ∈ [false]
      ∧ this w' = mk_vector [1; 2; 3]%Z 2 ∧ freed w' = [] ∧ new_data w' = None
  | Fault _ => False
  end.
Proof.
  refine (failed_insertion_in_place_changes_nothing [1; 2; 3]%Z 2 1 5%Z
           None None [false] [] [] _ _ _ _).
  - simpl. lia.
  - lia.
  - unfold representable, SIZE_MAX. simpl. lia.
  - right. split; reflexivity.
Defined.


Lemma earlier_PushBack_constructs_the_new_element_last_witness :
  match Part000.PushBack Part000.ByConstRef (Part000.Outside "c"%string)
          (MkWorld (mk_vector ["a"; "b"]%string 0) None None [true; false]
             [] []) with
  | Ret _ _ => True
  | Exc w' =>
      false ∈ [true; false]
      ∧ size_ (this w') = 2
      ∧ length (data_ (this w')) = 2 + 0
      ∧ ((∃ xs', this w' = mk_vector xs' 0
            ∧ (true || true = true → xs' = ["a"; "b"]%string))
         ∧ (freed w' = [] ∨ ∃ c, freed w' = [] ++ [replicate c Raw])
         ∨ 0 = 0
           ∧ this w' = mk_vector (transferred ["a"; "b"]%string) 0
           ∧ freed w'
             = [] ++ [(Obj <$> ["a"; "b"]%string)
                        ++ replicate (grown 2 - 2) Raw])
  | Fault _ => False
  end.
Proof.
  refine (earlier_PushBack_constructs_the_new_element_last
           Part000.ByConstRef (Part000.Outside "c"%string)
           ["a"; "b"]%string 0 None None [true; false] [] [] _ _ _ _).
  - unfold representable, SIZE_MAX. simpl. lia.
  - intros _. unfold representable, SIZE_MAX. simpl. lia.
  - simpl. eexists. reflexivity.
  - simpl. exact I.
Defined.

(** The run of that witness: the two strings have been moved out of the old
    buffer, and the new buffer has been given back with them in it. *)
Example earlier_PushBack_with_a_throwing_copy :
  Part000.PushBack Part000.ByConstRef (Part000.Outside "c"%string)
    (MkWorld (mk_vector ["a"; "b"]%string 0) None None [true; false] [] [])
  = Exc (MkWorld (mk_vector [EmptyString; EmptyString] 0) None None []
           [Allocate 4; MoveConstruct (NewData, 0) (Data, 0);
            MoveConstruct (NewData, 1) (Data, 1); Throw]
           [[Obj "a"%string; Obj "b"%string; Raw; Raw]]).
Proof. vm_compute. reflexivity. Qed.

Lemma earlier_PushBack_of_an_own_element_witness :
  let w := MkWorld (mk_vector ["a"; "b"]%string 0) None None [] [] [] in
  match Part000.PushBack Part000.ByConstRef (Part000.ElementAt 0) w with
  | Ret _ w' =>
      this w' = mk_vector (["a"; "b"]%string ++ [EmptyString]) (grown 2 - 2 - 1)
  | Exc _ => false ∈ []
  | Fault _ => False
  end
  ∧ match PushBack "a"%string w with
    | Ret _ w' =>
        ∃ k', this w' = mk_vector (["a"; "b"]%string ++ ["a"%string]) k'
    | Exc _ => false ∈ []
    | Fault _ => False
    end.
Proof.
  refine (earlier_PushBack_of_an_own_element Part000.ByConstRef
            ["a"; "b"]%string 0 "a"%string None None [] [] [] _ _ _).
  - unfold representable, SIZE_MAX. simpl. lia.
  - reflexivity.
  - reflexivity.
Defined.

(** The run of that witness, [S.PushBack(S[0])] on the strings [a, b]: the
    two strings are moved to the new buffer, then the new element is copied
    from the first slot of the old buffer, which holds an empty string by
    now.  The same call in src/vector.h appends the string [a]. *)
Example earlier_PushBack_appends_a_moved_from_string :
  Part000.PushBack Part000.ByConstRef (Part000.ElementAt 0)
    (start (mk_vector ["a"; "b"]%string 0) [])
  = Ret tt
      (MkWorld (mk_vector ["a"; "b"; EmptyString]%string 1) None None []
         [Allocate 4; MoveConstruct (NewData, 0) (Data, 0);
          MoveConstruct (NewData, 1) (Data, 1);
          CopyConstruct (NewData, 2) (Data, 0);
          Destroy (Data, 0); Destroy (Data, 1)]
         [[Raw; Raw]])
  ∧ ∃ w', PushBack "a"%string (start (mk_vector ["a"; "b"]%string 0) [])
          = Ret tt w'
      ∧ this w' = mk_vector ["a"; "b"; "a"]%string 1.
Proof.
  split; [vm_compute; reflexivity|].
  eexists. split; vm_compute; reflexivity.
Qed.

Lemma appending_to_an_empty_vector_witness :
  match push_all [1; 2; 3]%Z (start Vector_default []) with
  | Ret _ w' =>
      this w' = mk_vector [1; 2; 3]%Z (capacity_after 3 - 3)
      ∧ length (data_ (this w')) = capacity_after 3
      ∧ 3 ≤ capacity_after 3
      ∧ ([1; 2; 3]%Z ≠ [] →
         capacity_after 3 < 3 * 2 ∧ ∃ e, capacity_after 3 = 2 ^ e)
  | Exc _ => false ∈ []
  | Fault _ => False
  end.
Proof.
  assert (representable (length [1; 2; 3]%Z * 2)) as Hrep
    by (unfold representable, SIZE_MAX; simpl; lia).
  pose proof (appending_to_an_empty_vector [1; 2; 3]%Z [] Hrep) as Hrun.
  exact Hrun.
Defined.


Lemma copy_assignment_takes_the_elements_witness :
  let w := MkWorld (mk_vector [1; 2]%Z 0) None None [] [] [] in
  copy_assignment This w = Ret tt w
  ∧ match copy_assignment (Other (mk_vector [7; 8; 9]%Z 1)) w with
    | Ret _ w' =>
        this w' = mk_vector [7; 8; 9]%Z (Nat.max (2 + 0) 3 - 3)
        ∧ (2 + 0 < 3 → freed w' = [] ++ [replicate (2 + 0) Raw])
        ∧ (3 ≤ 2 + 0 → freed w' = [] ∧ new_data w' = None)
    | Exc _ => false ∈ []
    | Fault _ => False
    end.
Proof.
  refine (copy_assignment_takes_the_elements [1; 2]%Z 0 [7; 8; 9]%Z 1
           None None [] [] [] _ _).
  - unfold representable, SIZE_MAX. simpl. lia.
  - unfold representable, SIZE_MAX. simpl. lia.
Defined.

Lemma failed_copy_assignment_keeps_a_valid_vector_witness :
  match copy_assignment (Other (mk_vector [Tracked 7; Tracked 8] 0))
          (MkWorld (mk_vector [Tracked 1; Tracked 2; Tracked 3] 0)
             None None [true; false] [] []) with
  | Ret _ _ => True
  | Exc w' =>
      false ∈ [true; false]
      ∧ (3 + 0 < 2 →
         this w' = mk_vector [Tracked 1; Tracked 2; Tracked 3] 0
         ∧ (freed w' = [] ∨ freed w' = [] ++ [replicate 2 Raw]))
      ∧ (2 ≤ 3 + 0 →
         freed w' = []
         ∧ ∃ zs m, this w' = mk_vector zs 0
             ∧ length zs = 3
             ∧ m ≤ 3 ∧ m ≤ 2
             ∧ take m zs = take m [Tracked 7; Tracked 8]
             ∧ drop (S m) zs = drop (S m) [Tracked 1; Tracked 2; Tracked 3]
             ∧ invariant (this w') = true)
  | Fault _ => False
  end.
Proof.
  refine (failed_copy_assignment_keeps_a_valid_vector
           [Tracked 1; Tracked 2; Tracked 3] 0 [Tracked 7; Tracked 8] 0
           None None [true; false] [] [] _ _).
  - unfold representable, SIZE_MAX. simpl. lia.
  - unfold representable, SIZE_MAX. simpl. lia.
Defined.

(** The run of that witness: the first element has been overwritten, the
    second assignment threw. *)
Example copy_assignment_with_a_throwing_assignment :
  copy_assignment (Other (mk_vector [Tracked 7; Tracked 8] 0))
    (MkWorld (mk_vector [Tracked 1; Tracked 2; Tracked 3] 0)
       None None [true; false] [] [])
  = Exc (MkWorld (mk_vector [Tracked 7; Tracked 2; Tracked 3] 0) None None []
           [Throw] []).
Proof. vm_compute. reflexivity. Qed.

Lemma destructor_destroys_each_element_once_witness :
  ∃ w',
    destructor (start (mk_vector ["one"; "two"]%string 1) []) = Ret tt w'
    ∧ trace w' = [] ++ destroy_events Data 0 2
    ∧ freed w' = [] ++ [replicate 3 Raw]
    ∧ oracle w' = [].
Proof.
  refine (destructor_destroys_each_element_once
           (start (mk_vector ["one"; "two"]%string 1) []) _).
  reflexivity.
Defined.

Lemma move_assignment_hands_the_elements_over_witness :
  let w := start (mk_vector [1; 2]%Z 1) [] in
  let w' := MkWorld (mk_vector [7]%Z 0) None None [] [] [] in
  move_assignment (Other (mk_vector [7]%Z 0)) w
  = Ret (Other (mk_vector [1; 2]%Z 1)) w'
  ∧ Swap (mk_vector [7]%Z 0) w = Ret (mk_vector [1; 2]%Z 1) w'
  ∧ (other' ← Swap (mk_vector [7]%Z 0); Swap other') w
    = Ret (mk_vector [7]%Z 0) w
  ∧ move_assignment This w = Ret This w
  ∧ destructor (MkWorld (mk_vector [1; 2]%Z 1) None None [] [] [])
    = Ret tt
        (MkWorld (MkVector [] 2) None None [] ([] ++ destroy_events Data 0 2)
           ([] ++ [replicate (2 + 1) Raw])).
Proof.
  refine (move_assignment_hands_the_elements_over [1; 2]%Z 1
           (mk_vector [7]%Z 0) (start (mk_vector [1; 2]%Z 1) []) _).
  reflexivity.
Defined.


(** The run of that witness: the last element has been moved into the free
    slot, the first move assignment of [std::move_backward] threw. *)
Example Emplace_with_a_throwing_move_assignment :
  Emplace (Data, 1) (Tracked 9)
    (MkWorld (mk_vector [Tracked 1; Tracked 2; Tracked 3] 1)
       None None [true; true; false] [] [])
  = Exc (MkWorld
           (MkVector
              [Obj (Tracked 1); Obj (Tracked 2); Obj (Tracked 3);
               Obj (Tracked 3)] 3)
           None None []
           [Construct (TempVal, 0); MoveConstruct (Data, 3) (Data, 2); Throw;
            Destroy (TempVal, 0)] []).
Proof. vm_compute. reflexivity. Qed.

Lemma Reserve_makes_room_for_the_appends_witness :
  match (Reserve 4;; push_all [3; 4]%Z)
          (MkWorld (mk_vector [1; 2]%Z 0) None None [] [] []) with
  | Ret _ w' =>
      this w' = mk_vector ([1; 2] ++ [3; 4])%Z (Nat.max 4 (2 + 0) - (2 + 2))
      ∧ length (data_ (this w')) = Nat.max 4 (2 + 0)
      ∧ freed w'
        = (if decide (2 + 0 < 4) then [] ++ [replicate (2 + 0) Raw] else [])
  | Exc _ => false ∈ []
  | Fault _ => False
  end.
Proof.
  refine (Reserve_makes_room_for_the_appends 4 [3; 4]%Z [1; 2]%Z 0
            None None [] [] [] _ _).
  - simpl. lia.
  - unfold representable, SIZE_MAX. simpl. lia.
Defined.
